(** * Research-HUB front end: [script.js]

    A shallow embedding of the browser script of the paper catalogue and
    the properties its specification states about it.  Each module embeds
    one group of functions of [script.js]:

    - [JsString]: the string helpers [formatSummaries] and [cleanSummary],
      with the regular expressions they use;
    - [Normalizer]: [convertToHierarchy];
    - [Renderer]: the collapsible tree inside [renderMindmap]
      ([collapse], the click handler, [update]);
    - [Mindmap]: the entry of [renderMindmap];
    - [PaperList]: the filter and sort of [loadPapers]. *)

From Stdlib Require Import ZArith Lia Bool Ascii String List Permutation Sorted
  DecimalString.
From stdpp Require Import base option list gmap strings sorting.

#[local] Set Warnings "-register-all".
Local Open Scope Z_scope.
Local Open Scope nat_scope.

(** ** Strings and regular expressions *)

Module JsString.

(** A JavaScript string is a sequence of UTF-16 code units.  The embedding
    uses Rocq strings, that is the code units below 256; every string the
    properties below mention is ASCII. *)

Definition chars (s : string) : list ascii := list_ascii_of_string s.
Definition str (l : list ascii) : string := string_of_list_ascii l.

Definition code (c : ascii) : nat := nat_of_ascii c.

(** [\s] and [trim]: WhiteSpace and LineTerminator, restricted to the code
    units below 256 (TAB, LF, VT, FF, CR, SP, NBSP). *)
Definition is_space (c : ascii) : bool :=
  let n := code c in
  ((9 <=? n) && (n <=? 13)) || (n =? 32) || (n =? 160).

Definition is_line_terminator (c : ascii) : bool :=
  let n := code c in (n =? 10) || (n =? 13).

(** Canonicalize of the [i] flag (no [u] flag): the upper case of a code
    unit, unless that leaves the code unit's range.  For a-z it is A-Z;
    for the letters of Latin-1 it is the letter 32 below, except for
    [ÿ] and [µ] whose capitals are above 255, and [ß] which has none. *)
Definition canonicalize (c : ascii) : ascii :=
  let n := code c in
  if ((97 <=? n) && (n <=? 122))
     || ((224 <=? n) && (n <=? 254) && negb (n =? 247))
  then ascii_of_nat (n - 32) else c.

(** The regular expressions of [script.js] use literals, [.], [\s], [^],
    [$], sequence, alternation, the quantifiers [*], [+] and [+?], one
    capture group and one lookahead. *)
Inductive re : Type :=
| Lit (c : ascii)
| Dot
| Space
| Bol
| Eol
| Eps
| Seq (r1 r2 : re)
| Alt (r1 r2 : re)
| Star (greedy : bool) (r : re)
| Group (r : re)
| Look (r : re).

Definition Plus (greedy : bool) (r : re) : re := Seq r (Star greedy r).

Fixpoint Lits (l : list ascii) : re :=
  match l with
  | [] => Eps
  | [c] => Lit c
  | c :: l' => Seq (Lit c) (Lits l')
  end.

Definition Word (s : string) : re := Lits (chars s).

Record flags := { ignoreCase : bool; dotAll : bool; multiline : bool }.

(** The capture of group 1: start and end index, when it took part. *)
Definition capture := option (nat * nat).

Section Matcher.
Variable fl : flags.
Variable inp : list ascii.

Definition at_pos (pos : nat) : option ascii := nth_error inp pos.

Definition lit_matches (p c : ascii) : bool :=
  if ignoreCase fl then bool_decide (canonicalize p = canonicalize c)
  else bool_decide (p = c).

Definition at_bol (pos : nat) : bool :=
  match pos with
  | 0 => true
  | S q => multiline fl &&
           match at_pos q with Some c => is_line_terminator c | None => false end
  end.

Definition at_eol (pos : nat) : bool :=
  match at_pos pos with
  | None => true
  | Some c => multiline fl && is_line_terminator c
  end.

Definition orelse {A} (x : option A) (y : unit -> option A) : option A :=
  match x with Some a => Some a | None => y tt end.

(** The backtracking matcher of the language specification, in
    continuation-passing style: [run r pos cap k] matches [r] at [pos]
    and hands the end position to [k]; [None] is failure, on which the
    caller tries its next choice.  An iteration of a quantifier that
    consumes nothing is rejected (RepeatMatcher), so a quantifier runs at
    most once per remaining code unit and the matcher is total. *)
Fixpoint run (r : re) (pos : nat) (cap : capture)
         (k : nat -> capture -> option (nat * capture)) {struct r}
  : option (nat * capture) :=
  match r with
  | Lit p =>
      match at_pos pos with
      | Some c => if lit_matches p c then k (S pos) cap else None
      | None => None
      end
  | Dot =>
      match at_pos pos with
      | Some c => if dotAll fl || negb (is_line_terminator c)
                  then k (S pos) cap else None
      | None => None
      end
  | Space =>
      match at_pos pos with
      | Some c => if is_space c then k (S pos) cap else None
      | None => None
      end
  | Bol => if at_bol pos then k pos cap else None
  | Eol => if at_eol pos then k pos cap else None
  | Eps => k pos cap
  | Seq r1 r2 => run r1 pos cap (fun p c => run r2 p c k)
  | Alt r1 r2 => orelse (run r1 pos cap k) (fun _ => run r2 pos cap k)
  | Star greedy r1 =>
      (fix loop (n : nat) (pos : nat) (cap : capture) {struct n} :=
         let again (_ : unit) :=
           match n with
           | 0 => None
           | S n' => run r1 pos cap
                       (fun p c => if p <=? pos then None else loop n' p c)
           end in
         let stop (_ : unit) := k pos cap in
         if greedy then orelse (again tt) stop else orelse (stop tt) again)
        (length inp - pos) pos cap
  | Group r1 => run r1 pos cap (fun p _ => k p (Some (pos, p)))
  | Look r1 =>
      match run r1 pos cap (fun p c => Some (p, c)) with
      | Some (_, c) => k pos c
      | None => None
      end
  end.

Definition match_at (r : re) (pos : nat) : option (nat * capture) :=
  run r pos None (fun p c => Some (p, c)).

(** RegExpBuiltinExec without the sticky flag: the first start index,
    from [from] on, at which the pattern matches. *)
Fixpoint search_from (r : re) (n : nat) (from : nat)
  : option (nat * nat * capture) :=
  match match_at r from with
  | Some (e, c) => Some (from, e, c)
  | None => match n with
            | 0 => None
            | S n' => search_from r n' (S from)
            end
  end.

Definition exec (r : re) : option (nat * nat * capture) :=
  search_from r (length inp) 0.

Definition slice (b e : nat) : list ascii := firstn (e - b) (skipn b inp).
End Matcher.

Record regexp := { pattern : re; reflags : flags; global : bool }.

(** [text.match(rx)] for a regular expression without the [g] flag: the
    matched text and the text of group 1, or [None] for [null]. *)
Definition js_match (text : string) (rx : regexp)
  : option (string * option string) :=
  let inp := chars text in
  match exec (reflags rx) inp (pattern rx) with
  | Some (b, e, c) =>
      Some (str (slice inp b e),
            match c with
            | Some (gb, ge) => Some (str (slice inp gb ge))
            | None => None
            end)
  | None => None
  end.

(** [text.replace(rx, "")]: the first match is removed, every match when
    the expression has the [g] flag.  After an empty match the search moves
    one code unit on. *)
Fixpoint remove_matches (fl : flags) (inp : list ascii) (r : re) (all : bool)
         (n : nat) (from : nat) (copied : nat) : list ascii :=
  match search_from fl inp r (length inp - from) from with
  | None => skipn copied inp
  | Some (b, e, _) =>
      slice inp copied b ++
      (if all then
         match n with
         | 0 => skipn e inp
         | S n' =>
             remove_matches fl inp r all n' (if e =? b then S e else e) e
         end
       else skipn e inp)
  end.

Definition js_remove (text : string) (rx : regexp) : string :=
  let inp := chars text in
  str (remove_matches (reflags rx) inp (pattern rx) (global rx)
                      (length inp) 0 0).

(** [text.trim()] *)
Fixpoint trim_start (l : list ascii) : list ascii :=
  match l with
  | c :: l' => if is_space c then trim_start l' else l
  | [] => []
  end.

Definition trim (s : string) : string :=
  str (rev (trim_start (rev (trim_start (chars s))))).

(** [s.toLowerCase()], code unit by code unit: A-Z and the capitals of
    Latin-1 (all of 192-222 but the multiplication sign) move 32 up. *)
Definition lower (c : ascii) : ascii :=
  let n := code c in
  if ((65 <=? n) && (n <=? 90))
     || ((192 <=? n) && (n <=? 222) && negb (n =? 215))
  then ascii_of_nat (n + 32) else c.

Definition toLowerCase (s : string) : string := str (List.map lower (chars s)).

(** [s.includes(t)] *)
Fixpoint starts_with (t l : list ascii) : bool :=
  match t, l with
  | [], _ => true
  | c :: t', d :: l' => bool_decide (c = d) && starts_with t' l'
  | _ :: _, [] => false
  end.

Fixpoint occurs_in (t l : list ascii) : bool :=
  starts_with t l ||
  match l with
  | [] => false
  | _ :: l' => occurs_in t l'
  end.

Definition includes (s t : string) : bool := occurs_in (chars t) (chars s).

(** The regular expressions of [script.js], flag by flag. *)

(** [/^Here are the summaries based on the provided abstract:\s*/i] *)
Definition re_preamble : regexp :=
  {| pattern :=
       Seq Bol (Seq (Word "Here are the summaries based on the provided abstract:")
                    (Star true Space));
     reflags := {| ignoreCase := true; dotAll := false; multiline := false |};
     global := false |}.

(** [/^#+\s*/gm] *)
Definition re_heading : regexp :=
  {| pattern := Seq Bol (Seq (Plus true (Lit "#")) (Star true Space));
     reflags := {| ignoreCase := false; dotAll := false; multiline := true |};
     global := true |}.

(** [/\*\*/g] *)
Definition re_bold : regexp :=
  {| pattern := Word "**";
     reflags := {| ignoreCase := false; dotAll := false; multiline := false |};
     global := true |}.

(** [/Short Summary\s*(.+?)(?=Long Summary|$)/is] *)
Definition re_short : regexp :=
  {| pattern :=
       Seq (Word "Short Summary")
           (Seq (Star true Space)
                (Seq (Group (Plus false Dot))
                     (Look (Alt (Word "Long Summary") Eol))));
     reflags := {| ignoreCase := true; dotAll := true; multiline := false |};
     global := false |}.

(** [/Long Summary\s*(.+)$/is] *)
Definition re_long : regexp :=
  {| pattern :=
       Seq (Word "Long Summary")
           (Seq (Star true Space) (Seq (Group (Plus true Dot)) Eol));
     reflags := {| ignoreCase := true; dotAll := true; multiline := false |};
     global := false |}.

(** The text argument of the two helpers is a summary field of the API
    answer: a string, or [None] for [null] and [undefined]. *)
Definition falsy_text (text : option string) : bool :=
  match text with
  | None => true
  | Some s => bool_decide (s = "")
  end.

(** [cleanSummary] *)
Definition cleanSummary (text : option string) : string :=
  match text with
  | None => ""
  | Some s =>
      if bool_decide (s = "") then ""
      else js_remove (js_remove (js_remove s re_preamble) re_heading) re_bold
  end.

(** Group 1 of a match.  In [re_short] and [re_long] the group is not
    optional, so it takes part in every match and [m[1]] is a string. *)
Definition group1 (m : string * option string) : string :=
  match snd m with
  | Some g => g
  | None => ""
  end.

(** [formatSummaries]; [type] is the second argument, ["short"] when the
    caller leaves it out. *)
Definition formatSummaries (text : option string) (type : string) : string :=
  match text with
  | None => ""
  | Some s =>
      if bool_decide (s = "") then ""
      else
        let text := js_remove s re_preamble in
        let shortMatch := js_match text re_short in
        let longMatch := js_match text re_long in
        match (if bool_decide (type = "short") then shortMatch else None) with
        | Some m => "<strong>Short Summary:</strong> " +:+ trim (group1 m)
        | None =>
            match (if bool_decide (type = "long") then longMatch else None) with
            | Some m => " " +:+ trim (group1 m)
            | None => trim text
            end
        end
  end.

(** The summary blob of the specification's example. *)
Definition example_blob : string :=
  "Here are the summaries based on the provided abstract: Short Summary: foo. Long Summary: bar.".

(** *** Notions the proofs use *)

(** The literal [w] stands in the input at [pos], up to what the flags let
    pass. *)
Fixpoint word_at (fl : flags) (inp w : list ascii) (pos : nat) : bool :=
  match w with
  | [] => true
  | c :: w' =>
      match nth_error inp pos with
      | Some d => lit_matches fl c d && word_at fl inp w' (S pos)
      | None => false
      end
  end.

(** The number of code units of a class a list starts with. *)
Fixpoint leading (cls : ascii -> bool) (l : list ascii) : nat :=
  match l with
  | c :: l' => if cls c then S (leading cls l') else 0
  | [] => 0
  end.

(** No two asterisks stand side by side. *)
Definition no_bold (l : list ascii) : Prop :=
  forall p, ~ (l !! p = Some "*"%char /\ l !! S p = Some "*"%char).

(** Every code unit of the embedding. *)
Definition code_units : list ascii := List.map ascii_of_nat (seq 0 256).

(** Two code units that the [i] flag takes for one lower to one. *)
Definition fold_agrees (a b : ascii) : bool :=
  implb (bool_decide (canonicalize a = canonicalize b))
        (bool_decide (lower a = lower b)).

(** A summary field with nothing to read: missing, empty, or white space
    alone. *)
Definition blank (text : option string) : Prop :=
  match text with
  | None => True
  | Some s => Forall (fun c => is_space c = true) (chars s)
  end.

(** The preamble [re_preamble] looks for. *)
Definition preamble : string :=
  "Here are the summaries based on the provided abstract:".


End JsString.


(** ** Outcomes of a call *)

(** The errors the script can raise. *)
Inductive error : Type := TypeError | ReferenceError | SyntaxError.

(** A call either returns or throws. *)
Inductive result (A : Type) : Type :=
| Ok (a : A)
| Throw (e : error).
Arguments Ok {A} a.
Arguments Throw {A} e.

#[export] Instance result_ret : MRet result := fun A a => Ok a.

#[export] Instance result_bind : MBind result := fun A B f x =>
  match x with
  | Ok a => f a
  | Throw e => Throw e
  end.

(** ** The graph normalizer *)

Module Normalizer.

(** The graph of the API answer.  Identifiers are property keys; the
    embedding takes them as strings, which is what a key is once it is used
    on [nodesById]. *)
Record node := { id : string; label : string }.
Record edge := { from : string; to : string }.
Record graph := { nodes : list node; edges : list edge }.

(** What [nodesById[k]] can evaluate to.  [nodesById] is an object literal,
    so a key that is not an own property is looked up along the prototype
    chain. *)
Inductive value : Type :=
| VUndefined
| VNode (k : string)      (* the tree node registered under [k] *)
| VString (s : string)    (* a label *)
| VArray (k : string)     (* the [children] array of the tree node under [k] *)
| VBuiltin (k : string).  (* the member [k] of [Object.prototype] *)

#[export] Instance value_eq_dec : EqDecision value.
Proof. solve_decision. Defined.

(** A tree node [{ name, children }].  The children are references: an
    object pushed into two arrays, or into its own, is one object. *)
Record tnode := { name : string; children : list value }.

(** The tree nodes, by the key they are registered under. *)
Abbreviation store := (gmap string tnode).

(** The members of [Object.prototype] in a browser: eleven functions and the
    accessor [__proto__]. *)
Definition object_prototype_keys : list string :=
  [ "constructor"; "hasOwnProperty"; "isPrototypeOf"; "propertyIsEnumerable";
    "toLocaleString"; "toString"; "valueOf"; "__defineGetter__";
    "__defineSetter__"; "__lookupGetter__"; "__lookupSetter__"; "__proto__" ]%string.

Definition object_prototype (k : string) : value :=
  if bool_decide (k ∈ object_prototype_keys) then VBuiltin k else VUndefined.

(** [nodesById[k] = obj].  For every key but [__proto__] this defines an
    own property.  For [__proto__] it runs the accessor of
    [Object.prototype], which makes [obj] the prototype of [nodesById];
    reading [nodesById.__proto__] then gives [obj] back, so the embedding
    keeps it under that key and [get] accounts for what else it brings. *)
Definition set (m : store) (k : string) (obj : tnode) : store := <[k := obj]> m.

(** [nodesById[k]]: the own property; otherwise, when a node was
    registered as [__proto__], the [name] and [children] of that node;
    otherwise the member of [Object.prototype]. *)
Definition get (m : store) (k : string) : value :=
  match m !! k with
  | Some _ => VNode k
  | None =>
      match m !! "__proto__"%string with
      | Some p =>
          if bool_decide (k = "name"%string) then VString (name p)
          else if bool_decide (k = "children"%string) then VArray "__proto__"
          else object_prototype k
      | None => object_prototype k
      end
  end.

(** ToBoolean on these values: objects and functions are true, a string is
    true unless empty. *)
Definition truthy (v : value) : bool :=
  match v with
  | VUndefined => false
  | VString s => negb (bool_decide (s = ""%string))
  | VNode _ | VArray _ | VBuiltin _ => true
  end.

(** [graph.nodes.forEach(n => { nodesById[n.id] = { name: n.label, children: [] } })] *)
Definition fresh_node (n : node) : tnode := {| name := label n; children := [] |}.

Definition build_nodes (ns : list node) : store :=
  fold_left (fun m n => set m (id n) (fresh_node n)) ns ∅.

Definition push (c : value) (t : tnode) : tnode :=
  {| name := name t; children := children t ++ [c] |}.

(** The body of the loop over the edges.  [v.children.push(..)] on a value
    [v] that is not a tree node reads [children] off a function, a string,
    an array or [Object.prototype], gets [undefined], and throws. *)
Definition link_edge (m : store) (e : edge) : result store :=
  let src := get m (from e) in
  let tgt := get m (to e) in
  if truthy src && truthy tgt then
    match src with
    | VNode k => Ok (alter (push tgt) k m)
    | _ => Throw TypeError
    end
  else Ok m.

(** [graph.edges.forEach(..)] *)
Fixpoint link_edges (m : store) (es : list edge) : result store :=
  match es with
  | [] => Ok m
  | e :: es' => m' ← link_edge m e; link_edges m' es'
  end.

(** [new Set(graph.edges.map(e => e.to))] *)
Definition targets (es : list edge) : gset string := list_to_set (to <$> es).

(** [graph.nodes.find(n => !targets.has(n.id)) || graph.nodes[0]];
    [None] is [undefined]. *)
Definition select_root (ns : list node) (ts : gset string) : option node :=
  match List.find (fun n => negb (bool_decide (id n ∈ ts))) ns with
  | Some n => Some n
  | None => head ns
  end.

(** [convertToHierarchy]: the store of tree nodes and the value returned. *)
Definition convertToHierarchy (g : graph) : result (store * value) :=
  let nodesById := build_nodes (nodes g) in
  nodesById ← link_edges nodesById (edges g);
  match select_root (nodes g) (targets (edges g)) with
  | Some rootNode => Ok (nodesById, get nodesById (id rootNode))
  | None => Throw TypeError
  end.

(** The hierarchy a value stands for, as the tree renderer reads it: the
    [name] and the [children] of a tree node, and a leaf for any other
    value.  A store with a cycle has no finite hierarchy: [None] when
    [depth] levels do not reach the leaves. *)
Inductive hierarchy : Type :=
| HNode (name : string) (children : list hierarchy)
| HOther (v : value).

Fixpoint unfold (depth : nat) (m : store) (v : value) : option hierarchy :=
  match depth with
  | 0 => None
  | S d =>
      match v with
      | VNode k =>
          match m !! k with
          | Some t => HNode (name t) <$> mapM (unfold d m) (children t)
          | None => None
          end
      | _ => Some (HOther v)
      end
  end.

(** An edge is well formed when both ends are declared nodes. *)
Definition declared (g : graph) (k : string) : Prop := k ∈ id <$> nodes g.

#[export] Instance declared_dec g k : Decision (declared g k).
Proof. unfold declared. apply _. Defined.

Definition well_formed (g : graph) (e : edge) : bool :=
  bool_decide (declared g (from e)) && bool_decide (declared g (to e)).

Definition well_formed_edges (g : graph) : list edge :=
  List.filter (well_formed g) (edges g).

(** The keys an empty-looking [nodesById] answers to: the members of
    [Object.prototype] and, once a node is registered as [__proto__], that
    node's [name] and [children]. *)
Definition inherited (g : graph) (k : string) : Prop :=
  k ∈ object_prototype_keys ∨
  (declared g "__proto__"%string ∧ (k = "name"%string ∨ k = "children"%string)).

(** Every end of an edge is a declared node or a key [nodesById] does not
    answer to. *)
Definition plain_edges (g : graph) : Prop :=
  ∀ e, e ∈ edges g →
       (declared g (from e) ∨ ¬ inherited g (from e)) ∧
       (declared g (to e) ∨ ¬ inherited g (to e)).

(** The graph with its well-formed edges alone. *)
Definition prune (g : graph) : graph :=
  {| nodes := nodes g; edges := well_formed_edges g |}.

(** The rule of the specification for the root, in its words: the first
    declared node whose id is not the target of any edge and, if every
    declared node is a target, the first declared node. *)
Definition is_target (g : graph) (k : string) : Prop :=
  ∃ e, e ∈ edges g ∧ to e = k.

Definition first_non_target (g : graph) (r : node) : Prop :=
  ∃ pre post, nodes g = pre ++ r :: post
              ∧ ¬ is_target g (id r)
              ∧ ∀ n, n ∈ pre → is_target g (id n).

Definition chosen_root (g : graph) (r : node) : Prop :=
  first_non_target g r
  ∨ ((∀ n, n ∈ nodes g → is_target g (id n)) ∧ head (nodes g) = Some r).

(** The hierarchy a call returns, read [depth] levels deep. *)
Definition hierarchy_of_result (depth : nat) (r : result (store * value))
  : result (option hierarchy) :=
  '(m, v) ← r; Ok (unfold depth m v).

(** A graph whose only edge starts at a key that is no node but a member of
    every object. *)
Definition inherited_source_graph : graph :=
  {| nodes := [ {| id := "a"; label := "A" |} ];
     edges := [ {| from := "constructor"; to := "a" |} ] |}.

(** A graph with an edge from an undeclared node into the first node. *)
Definition dangling_edge_graph : graph :=
  {| nodes := [ {| id := "a"; label := "A" |}; {| id := "b"; label := "B" |} ];
     edges := [ {| from := "zzz"; to := "a" |} ] |}.

(** The children the edges [es] give the node [k]: the targets of the
    well-formed edges that leave it. *)
Definition edge_children (g : graph) (k : string) (es : list edge) : list value :=
  (fun e => VNode (to e))
    <$> List.filter (fun e => bool_decide (from e = k) && well_formed g e) es.

(** A graph that declares one id twice, and a graph with two edges over
    the same ends. *)
Definition duplicate_id_graph : graph :=
  {| nodes := [ {| id := "a"; label := "first" |}; {| id := "a"; label := "second" |} ];
     edges := [] |}.

Definition parallel_edge_graph : graph :=
  {| nodes := [ {| id := "a"; label := "A" |}; {| id := "b"; label := "B" |} ];
     edges := [ {| from := "a"; to := "b" |}; {| from := "zzz"; to := "b" |};
                {| from := "a"; to := "b" |} ] |}.

(** A graph whose first node is a child of its own. *)
Definition loop_graph : graph :=
  {| nodes := [ {| id := "a"; label := "A" |}; {| id := "b"; label := "B" |} ];
     edges := [ {| from := "a"; to := "a" |}; {| from := "a"; to := "b" |} ] |}.


End Normalizer.

(** ** The collapsible tree *)

Module Renderer.

Import Normalizer(hierarchy, HNode, HOther).

(** A slot of a render node that holds an array, [null] or nothing. *)
Inductive slot (A : Type) : Type :=
| Undefined
| Null
| Arr (l : list A).
Arguments Undefined {A}.
Arguments Null {A}.
Arguments Arr {A} l.

(** ToBoolean: an array is true, also an empty one. *)
Definition truthy {A} (s : slot A) : bool :=
  match s with
  | Arr _ => true
  | _ => false
  end.

(** A node object is known by the way to it from the root: the indices into
    the child arrays, whichever slot holds them.  Neither [collapse] nor a
    click moves a node to another array or index. *)
Definition path := list nat.

(** The shape of the visible tree, which is all the layout reads. *)
Inductive shape : Type := Shape (kids : list shape).

Section Layout.

(** Coordinates are numbers of the layout library; the embedding does not
    look inside them. *)
Variable coord : Type.

Definition point : Type := coord * coord.

(** Modelled from the spec: [d3.tree().size([height - 100, width - 200])] is
    the layout library's, not in [script.js].  It "assigns each visible
    node a depth-based and sibling-based coordinate pair": [tidy s p] is the
    pair [(x, y)] of the node at [p] in the visible tree of shape [s]. *)
Variable tidy : shape -> path -> point.

(** The node objects [d3.hierarchy] creates, with the fields the script
    reads and writes: [d.data], [d.id], [d.children], [d._children],
    [(d.x, d.y)] and [(d.x0, d.y0)].  [d.id] is a number once the key
    function set it. *)
Inductive rnode : Type :=
  RNode { data : hierarchy;
          id : option Z;
          children : slot rnode;
          _children : slot rnode;
          xy : option point;
          xy0 : option point }.

(** Modelled from the spec: [d3.hierarchy(data)] is the layout library's.
    It wraps every datum in a node and sets [children] only where the datum
    has a non-empty [children] array. *)
Fixpoint hierarchy_of (d : hierarchy) : rnode :=
  match d with
  | HNode _ [] | HOther _ => RNode d None Undefined Undefined None None
  | HNode _ l => RNode d None (Arr (List.map hierarchy_of l)) Undefined None None
  end.

(** [collapse] *)
Fixpoint collapse (d : rnode) : rnode :=
  match d with
  | RNode dt i (Arr l) _ p p0 => RNode dt i Null (Arr (List.map collapse l)) p p0
  | _ => d
  end.

(** [root.children?.forEach(collapse)] *)
Definition collapse_children (root : rnode) : rnode :=
  match root with
  | RNode dt i (Arr l) h p p0 => RNode dt i (Arr (List.map collapse l)) h p p0
  | _ => root
  end.

(** The body of the click handler, before it calls [update]. *)
Definition toggle (d : rnode) : rnode :=
  match d with
  | RNode dt i c h p p0 =>
      if truthy c then RNode dt i Null c p p0 else RNode dt i h Null p p0
  end.

(** The child objects of a node, in the slot that holds them. *)
Definition kids (d : rnode) : list rnode :=
  match children d, _children d with
  | Arr l, _ => l
  | _, Arr l => l
  | _, _ => []
  end.

Fixpoint node_at (p : path) (d : rnode) : option rnode :=
  match p with
  | [] => Some d
  | i :: p' => kids d !! i ≫= node_at p'
  end.

(** [f] applied to the node at [p], in place. *)
Fixpoint modify_at (f : rnode -> rnode) (p : path) (d : rnode) : rnode :=
  match p with
  | [] => f d
  | i :: p' =>
      match d with
      | RNode dt n (Arr l) h q q0 =>
          RNode dt n (Arr (alter (modify_at f p') i l)) h q q0
      | RNode dt n c (Arr l) q q0 =>
          RNode dt n c (Arr (alter (modify_at f p') i l)) q q0
      | _ => d
      end
  end.

Fixpoint visible_shape (d : rnode) : shape :=
  match d with
  | RNode _ _ (Arr l) _ _ _ => Shape (List.map visible_shape l)
  | _ => Shape []
  end.

(** Modelled from the spec: [root.descendants()] is the layout library's.
    It lists the nodes reached through [children], the root first, level by
    level; nodes in a [_children] slot "are excluded entirely". *)
Fixpoint zip_levels (a b : list (list path)) : list (list path) :=
  match a, b with
  | x :: a', y :: b' => (x ++ y) :: zip_levels a' b'
  | [], _ => b
  | _, [] => a
  end.

Fixpoint levels (s : shape) : list (list path) :=
  match s with
  | Shape l =>
      [[]] ::
      (fix go (i : nat) (l : list shape) : list (list path) :=
         match l with
         | [] => []
         | k :: l' => zip_levels (List.map (List.map (cons i)) (levels k)) (go (S i) l')
         end) 0 l
  end.

Definition descendants (root : rnode) : list path :=
  concat (levels (visible_shape root)).

(** [treeLayout(root)] writes [x] and [y] of every visible node. *)
Fixpoint place (s : shape) (p : path) (d : rnode) : rnode :=
  match d with
  | RNode dt i c h _ q0 =>
      RNode dt i
        match c with
        | Arr l =>
            Arr ((fix go (j : nat) (l : list rnode) : list rnode :=
                    match l with
                    | [] => []
                    | k :: l' => place s (p ++ [j]) k :: go (S j) l'
                    end) 0 l)
        | _ => c
        end
        h (Some (tidy s p)) q0
  end.

Definition treeLayout (root : rnode) : rnode := place (visible_shape root) [] root.

(** [nodes.forEach(d => { d.x0 = d.x; d.y0 = d.y; })] *)
Fixpoint save_positions (d : rnode) : rnode :=
  match d with
  | RNode dt i c h q _ =>
      RNode dt i
        match c with
        | Arr l => Arr (List.map save_positions l)
        | _ => c
        end
        h q q
  end.

(** A drawn [g.node] element: the node object bound to it and where its
    [transform] puts it once the transition has run. *)
Record element := { datum : path; translate : option point }.

(** What [update] reads and writes: the tree under [root], the counter [i]
    and the [g.node] elements of the group, in document order.
    [script.js] uses [i] without declaring it, so it is a binding of the
    enclosing scope: [Some n] when that scope binds it to the number [n],
    [None] when nothing binds it. *)
Record view := { root : rnode; i : option Z; drawn : list element }.

Definition id_at (p : path) (t : rnode) : option Z := node_at p t ≫= id.

Definition set_id (z : Z) (d : rnode) : rnode :=
  match d with
  | RNode dt _ c h q q0 => RNode dt (Some z) c h q q0
  end.

(** The key function [d => d.id || (d.id = ++i)] on the node at [p]; zero is
    false as [undefined] is.  The numbers are integers, which [++]
    increments exactly below 2^53. *)
Definition key (p : path) (st : rnode * option Z)
  : result (Z * (rnode * option Z)) :=
  let fresh :=
    match st.2 with
    | Some n => Ok (n + 1, (modify_at (set_id (n + 1)) p st.1, Some (n + 1)))%Z
    | None => Throw ReferenceError
    end in
  match id_at p st.1 with
  | Some z => if (z =? 0)%Z then fresh else Ok (z, st)
  | None => fresh
  end.

Fixpoint keys (ps : list path) (st : rnode * option Z)
  : result (list Z * (rnode * option Z)) :=
  match ps with
  | [] => Ok ([], st)
  | p :: ps' =>
      '(k, st1) ← key p st;
      '(ks, st2) ← keys ps' st1;
      Ok (k :: ks, st2)
  end.

(** Modelled from the spec: the keyed data join [selection.data(nodes, key)]
    is the drawing library's.  An element and a datum with the same key are
    joined; of elements with one key only the first can be; a datum that
    finds no element enters.  [bind_key gkeys dkeys used] gives for every
    datum the index of the element it joins, [None] when it enters. *)
Fixpoint first_index (k : Z) (gkeys : list Z) : option nat :=
  match gkeys with
  | [] => None
  | k' :: gkeys' => if bool_decide (k' = k) then Some 0 else S <$> first_index k gkeys'
  end.

Fixpoint bind_key (gkeys dkeys : list Z) (used : list Z) : list (option nat) :=
  match dkeys with
  | [] => []
  | k :: dkeys' =>
      match (if bool_decide (k ∈ used) then None else first_index k gkeys) with
      | Some j => Some j :: bind_key gkeys dkeys' (k :: used)
      | None => None :: bind_key gkeys dkeys' used
      end
  end.

(** The entering data up to the next joined one, which is the element they
    are inserted before ([_next]); the last run has none. *)
Fixpoint runs (joined : list (path * option nat)) (pending : list path)
  : list (list path * nat * path) * list path :=
  match joined with
  | [] => ([], pending)
  | (p, None) :: rest => runs rest (pending ++ [p])
  | (p, Some j) :: rest =>
      let '(rs, last) := runs rest [] in ((pending, j, p) :: rs, last)
  end.

Definition enter (p : path) : element := {| datum := p; translate := None |}.

(** The group after [enter().append("g")] and [exit().remove()]: every
    joined element stays where it is in the document, bound to its datum,
    with the elements entered before it in front; the others are gone. *)
Definition joined_group (els : list element) (rs : list (list path * nat * path))
           (last : list path) : list element :=
  concat (imap (fun j el =>
                  match List.find (fun r => bool_decide (r.1.2 = j)) rs with
                  | Some (ens, _, p) =>
                      (enter <$> ens) ++ [{| datum := p; translate := translate el |}]
                  | None => []
                  end) els)
  ++ (enter <$> last).

(** [.attr("transform", d => `translate(${d.y},${d.x})`)] on the entered and
    the joined elements, at the end of the transition. *)
Definition transform (t : rnode) (el : element) : element :=
  {| datum := datum el;
     translate := (fun q : point => (q.2, q.1)) <$> (node_at (datum el) t ≫= xy) |}.

(** [update].  Its argument [source] only gives the entering elements the
    place their transition starts from.  The join of the links reads
    [d.target.id] and writes neither the tree nor the node elements; it is
    left out. *)
Definition update (v : view) : result view :=
  let nodes := descendants (root v) in
  let t := treeLayout (root v) in
  '(gkeys, st1) ← keys (datum <$> drawn v) (t, i v);
  '(dkeys, st2) ← keys nodes st1;
  let joined := zip nodes (bind_key gkeys dkeys []) in
  let '(rs, last) := runs joined [] in
  let group := joined_group (drawn v) rs last in
  Ok {| root := save_positions st2.1;
        i := st2.2;
        drawn := transform st2.1 <$> group |}.

(** The click handler of the element bound to the node at [p]. *)
Definition click (p : path) (v : view) : result view :=
  update {| root := modify_at toggle p (root v); i := i v; drawn := drawn v |}.

(** The part of [renderMindmap] from [d3.hierarchy(data)] on: the container
    was emptied, so no element is drawn yet. *)
Definition render (dt : hierarchy) (i0 : option Z) : result view :=
  let root := hierarchy_of dt in
  let root := treeLayout root in
  let root := collapse_children root in
  update {| root := root; i := i0; drawn := [] |}.

(** The views a page goes through: the first rendering of the hierarchy
    [dt] with [i] bound to [i0], then clicks on drawn elements. *)
Inductive reachable (dt : hierarchy) (i0 : Z) : view -> Prop :=
| reach_render (v : view) :
    render dt (Some i0) = Ok v -> reachable dt i0 v
| reach_click (v v' : view) (p : path) :
    reachable dt i0 v -> p ∈ datum <$> drawn v -> click p v = Ok v' ->
    reachable dt i0 v'.

(** What a slot holds: the array, or nothing for [null] and [undefined]. *)
Definition contents {A} (s : slot A) : option (list A) :=
  match s with
  | Arr l => Some l
  | _ => None
  end.

(** The expand/collapse state of a tree: for every node, which children are
    in its visible slot and which in its hidden slot. *)
Inductive state : Type :=
  State (dt : hierarchy) (visible hidden : option (list state)).

Fixpoint state_of (d : rnode) : state :=
  match d with
  | RNode dt _ c h _ _ =>
      State dt
        match c with
        | Arr l => Some (List.map state_of l)
        | _ => None
        end
        match h with
        | Arr l => Some (List.map state_of l)
        | _ => None
        end
  end.

(** The specification's state machine on that state.  A click moves the
    visible children of an expanded node into the hidden slot and restores
    the hidden children of a collapsed node. *)
Definition state_toggle (s : state) : state :=
  match s with
  | State dt (Some l) _ => State dt None (Some l)
  | State dt None h => State dt h None
  end.

Definition state_kids (s : state) : list state :=
  match s with
  | State _ (Some l) _ => l
  | State _ None (Some l) => l
  | State _ None None => []
  end.

Fixpoint state_at (q : path) (s : state) : option state :=
  match q with
  | [] => Some s
  | j :: q' => state_kids s !! j ≫= state_at q'
  end.

Fixpoint state_modify_at (f : state -> state) (p : path) (s : state) : state :=
  match p with
  | [] => f s
  | j :: p' =>
      match s with
      | State dt (Some l) h => State dt (Some (alter (state_modify_at f p') j l)) h
      | State dt None (Some l) => State dt None (Some (alter (state_modify_at f p') j l))
      | State _ None None => s
      end
  end.

(** Whether the node at [q] has children in its visible and in its hidden
    slot. *)
Definition flags (s : state) : bool * bool :=
  match s with
  | State _ v h => (bool_decide (is_Some v), bool_decide (is_Some h))
  end.

Definition flags_at (q : path) (s : state) : option (bool * bool) :=
  flags <$> state_at q s.

(** No node holds children in both slots. *)
Definition exclusive (s : state) : Prop :=
  forall q, flags_at q s <> Some (true, true).

(** The state the specification gives a tree that was just rendered: the
    root shows its children and every node below it is collapsed. *)
Fixpoint collapsed_state (h : hierarchy) : state :=
  match h with
  | HNode _ [] | HOther _ => State h None None
  | HNode _ l => State h None (Some (List.map collapsed_state l))
  end.

Definition initial_state (h : hierarchy) : state :=
  match h with
  | HNode _ [] | HOther _ => State h None None
  | HNode _ l => State h (Some (List.map collapsed_state l)) None
  end.

(** The children of a datum. *)
Definition data_children (h : hierarchy) : list hierarchy :=
  match h with
  | HNode _ l => l
  | HOther _ => []
  end.

(** The views that follow a view: by clicks on drawn elements. *)
Inductive later : view -> view -> Prop :=
| later_refl (v : view) : later v v
| later_click (v v1 v2 : view) (p : path) :
    later v v1 -> p ∈ datum <$> drawn v1 -> click p v1 = Ok v2 -> later v v2.

(** The children of a node as [place] lays them out. *)
Definition place_list (s : shape) (p : path) :=
  fix go (j : nat) (l : list rnode) : list rnode :=
    match l with
    | [] => []
    | k :: l' => place s (p ++ [j]) k :: go (S j) l'
    end.

(** *** Notions the proofs use *)

Definition slot_Forall {A} (P : A -> Prop) (s : slot A) : Prop :=
  match s with
  | Arr l => Forall P l
  | _ => True
  end.

(** The visible shape, read off the state. *)
Fixpoint shape_of (s : state) : shape :=
  match s with
  | State _ (Some l) _ => Shape (List.map shape_of l)
  | State _ None _ => Shape []
  end.

(** A path is visible when every node above it shows its children. *)
Fixpoint visible_path (p : path) (s : state) : Prop :=
  match p with
  | [] => True
  | j :: q =>
      match s with
      | State _ (Some l) _ => exists k, l !! j = Some k /\ visible_path q k
      | State _ None _ => False
      end
  end.

(** The order in which [descendants] lists paths: the shorter first, and
    paths of one length by the first index in which they differ. *)
Fixpoint lex (p q : path) : Prop :=
  match p, q with
  | a :: p', b :: q' => a < b \/ (a = b /\ lex p' q')
  | _, _ => False
  end.

Definition path_lt (p q : path) : Prop :=
  length p < length q \/ (length p = length q /\ lex p q).

(** The levels below a node whose children have the shapes [l], the first
    child having the index [i]. *)
Definition levels_go :=
  fix go (i : nat) (l : list shape) : list (list path) :=
    match l with
    | [] => []
    | k :: l' => zip_levels (List.map (List.map (cons i)) (levels k)) (go (S i) l')
    end.

(** A list of levels, the first at depth [d]: every level is in
    lexicographic order and holds paths of its depth, which start at [lo]
    or above. *)
Definition levels_ok (lo d : nat) (ll : list (list path)) : Prop :=
  forall k L, ll !! k = Some L ->
    StronglySorted lex L /\
    forall q, q ∈ L -> length q = d + k /\ match q with [] => True | h :: _ => lo <= h end.

(** Two trees whose nodes correspond, child by child, along every path. *)
Definition corresponds (R : rnode -> rnode -> Prop) : Prop :=
  forall d d', R d d' -> forall j, option_Forall2 R (kids d !! j) (kids d' !! j).

Definition placed (s : shape) (d d' : rnode) : Prop :=
  d' = d \/ exists p, d' = place s p d.

Definition saved (d d' : rnode) : Prop := d' = d \/ d' = save_positions d.

(** The ids are positive and not above the counter, and no two nodes share
    one. *)
Definition ids_ok (n : Z) (t : rnode) : Prop :=
  forall p z, id_at p t = Some z -> (0 < z <= n)%Z.

Definition ids_inj (t : rnode) : Prop :=
  forall p q z, id_at p t = Some z -> id_at q t = Some z -> p = q.

(** A run of [runs]: the index of the element it is inserted before, and
    the data it brings into the group. *)
Definition run_index (r : list path * nat * path) : nat := r.1.2.
Definition run_data (r : list path * nat * path) : list path := r.1.1 ++ [r.2].

(** What the element at index [j] becomes in [joined_group]. *)
Definition group_at (rs : list (list path * nat * path)) (j : nat) (el : element)
  : list element :=
  match List.find (fun r => bool_decide (r.1.2 = j)) rs with
  | Some (ens, _, p) => (enter <$> ens) ++ [{| datum := p; translate := translate el |}]
  | None => []
  end.

(** The element drawn for the node at [p]. *)
Definition draw_at (t : rnode) (p : path) : element := transform t (enter p).

(** What holds of every view the page goes through. *)
Definition settled (v : view) : Prop :=
  exists n,
    i v = Some n /\ (0 <= n)%Z
    /\ ids_ok n (root v) /\ ids_inj (root v)
    /\ drawn v = draw_at (root v) <$> descendants (root v)
    /\ (forall p, p ∈ descendants (root v) -> is_Some (id_at p (root v)))
    /\ treeLayout (root v) = root v
    /\ save_positions (root v) = root v
    /\ exclusive (state_of (root v)).

End Layout.

Arguments RNode {coord} data id children _children xy xy0.
Arguments data {coord} r.
Arguments id {coord} r.
Arguments children {coord} r.
Arguments _children {coord} r.
Arguments xy {coord} r.
Arguments xy0 {coord} r.
Arguments hierarchy_of {coord} d.
Arguments collapse {coord} d.
Arguments collapse_children {coord} root.
Arguments toggle {coord} d.
Arguments kids {coord} d.
Arguments node_at {coord} p d.
Arguments modify_at {coord} f p d.
Arguments visible_shape {coord} d.
Arguments descendants {coord} root.
Arguments place {coord} tidy s p d.
Arguments treeLayout {coord} tidy root.
Arguments save_positions {coord} d.
Arguments Build_element {coord} datum translate.
Arguments datum {coord} e.
Arguments translate {coord} e.
Arguments Build_view {coord} root i drawn.
Arguments root {coord} v.
Arguments i {coord} v.
Arguments drawn {coord} v.
Arguments id_at {coord} p t.
Arguments set_id {coord} z d.
Arguments key {coord} p st.
Arguments keys {coord} ps st.
Arguments enter {coord} p.
Arguments joined_group {coord} els rs last.
Arguments transform {coord} t el.
Arguments update {coord} tidy v.
Arguments click {coord} tidy p v.
Arguments render {coord} tidy dt i0.
Arguments reachable {coord} tidy dt i0 v.
Arguments state_of {coord} d.
Arguments later {coord} tidy v v'.
Arguments place_list {coord} tidy s p j l.
Arguments corresponds {coord} R.
Arguments placed {coord} tidy s d d'.
Arguments saved {coord} d d'.
Arguments ids_ok {coord} n t.
Arguments ids_inj {coord} t.
Arguments group_at {coord} rs j el.
Arguments draw_at {coord} t p.
Arguments settled {coord} tidy v.

(** A tree of three levels, and a layout that puts a node at its depth and
    the sum of its indices. *)
Definition example_tree : hierarchy :=
  HNode "root" [HNode "a" [HNode "a1" []; HNode "a2" [HNode "a21" []]];
                HNode "b" [HNode "b1" []]; HNode "c" []].

Definition example_tidy (s : shape) (p : path) : point nat := (length p, list_sum p).

(** [p] is a node strictly above [q]. *)
Definition above (p q : path) : Prop := exists r, r <> [] /\ q = p ++ r.

(** The element of the node at [p] in the picture of a tree: where the
    layout of the visible shape puts the node, the two coordinates
    swapped. *)
Definition pictured {coord} (tidy : shape -> path -> point coord)
           (t : rnode coord) (p : path) : element coord :=
  {| datum := p;
     translate := Some ((tidy (visible_shape t) p).2, (tidy (visible_shape t) p).1) |}.


End Renderer.

(** ** The entry of the mind map renderer *)

Module Mindmap.

Import Normalizer(graph, hierarchy, convertToHierarchy, unfold).
Import Renderer(view, element, shape, path, point).

(** The value of [data] after the [try] block: the detail API supplies a
    graph or a hierarchy that is already built; [DNull] is [null], which is
    what the JSON text [null] parses to. *)
Inductive data : Type :=
| DNull
| DGraph (g : graph)
| DTree (t : hierarchy).

(** The argument of [renderMindmap]: nothing ([undefined], [null]), a
    string, or an object. *)
Inductive payload : Type :=
| PUndefined
| PNull
| PString (s : string)
| PObject (d : data).

(** [!mindmapJson] *)
Definition absent (v : payload) : bool :=
  match v with
  | PUndefined | PNull => true
  | PString s => bool_decide (s = ""%string)
  | PObject _ => false
  end.

Section Page.

Variable coord : Type.
Variable tidy : shape -> path -> point coord.

(** [JSON.parse] on a payload string; [None] when it throws its
    SyntaxError. *)
Variable JSON_parse : string -> option data.

(** The page as [renderMindmap] sees it: the element [#mindmapContainer]
    ([None] when the page has none) with the tree drawn in it ([None] while
    it holds other markup or nothing), the console, and the binding of [i]
    in the enclosing scope. *)
Record page := {
  container : option (option (view coord));
  console : list (string * error);
  i : option Z }.

(** How a call ends.  [Unfinished]: the hierarchy has no leaf level within
    the depth given, as for a graph with a cycle below its root, where
    [d3.hierarchy] does not return. *)
Inductive outcome : Type :=
| Returned (pg : page)
| Thrown (e : error) (pg : page)
| Unfinished.

Definition set_container (c : option (view coord)) (pg : page) : page :=
  {| container := Some c; console := console pg; i := i pg |}.

(** [renderMindmap] from [document.getElementById("mindmapContainer")] on. *)
Definition draw (h : option hierarchy) (pg : page) : outcome :=
  match container pg with
  | None => Returned pg
  | Some _ =>
      match h with
      | None => Unfinished
      | Some t =>
          match Renderer.render tidy t (i pg) with
          | Ok v => Returned {| container := Some (Some v);
                                console := console pg;
                                i := Renderer.i v |}
          | Throw e =>
              let root := Renderer.collapse_children
                            (Renderer.treeLayout tidy (Renderer.hierarchy_of t)) in
              Thrown e (set_container
                          (Some {| Renderer.root := root;
                                   Renderer.i := i pg;
                                   Renderer.drawn := [] |}) pg)
          end
      end
  end.

(** [renderMindmap] *)
Definition renderMindmap (depth : nat) (mindmapJson : payload) (pg : page)
  : outcome :=
  if absent mindmapJson then Returned pg
  else
    let parsed :=
      match mindmapJson with
      | PString s =>
          match JSON_parse s with
          | Some d => Ok d
          | None => Throw SyntaxError
          end
      | PObject d => Ok d
      | PUndefined | PNull => Ok DNull  (* not reached: these are absent *)
      end in
    match parsed with
    | Throw e =>
        Returned {| container := container pg;
                    console := console pg ++ [("Invalid mindmap JSON"%string, e)];
                    i := i pg |}
    | Ok DNull => Thrown TypeError pg
    | Ok (DGraph g) =>
        match convertToHierarchy g with
        | Throw e => Thrown e pg
        | Ok (m, v) => draw (unfold depth m v) pg
        end
    | Ok (DTree t) => draw (Some t) pg
    end.

End Page.

Arguments Build_page {coord} container console i.
Arguments container {coord} p.
Arguments console {coord} p.
Arguments i {coord} p.
Arguments Returned {coord} pg.
Arguments Thrown {coord} e pg.
Arguments Unfinished {coord}.
Arguments set_container {coord} c pg.
Arguments draw {coord} tidy h pg.
Arguments renderMindmap {coord} tidy JSON_parse depth mindmapJson pg.

End Mindmap.

(** ** The paper list *)

Module PaperList.

Import JsString.

(** A paper of the list answer.  [published] is the time value of
    [new Date(p.published_date)], [None] when the date is invalid (NaN). *)
Record paper := {
  id : Z;
  title : string;
  authors : option string;
  summary_short : option string;
  published : option Z }.

(** [{ papers, total_pages, page }] *)
Record listing := { papers : list paper; total_pages : nat; page : nat }.

(** The controls of the list page; [None] where the element is missing. *)
Record controls := { searchInput : option string; sortSelect : option string }.

(** [Array.prototype.sort(cmp)] sorts in place and is stable.  Under a
    consistent comparator the result is the one arrangement that is ordered
    and keeps the elements the comparator does not separate in their
    order, which is what insertion from the right builds; under any other
    comparator the language leaves the order to the implementation. *)
Section Sort.
Context {A : Type} (cmp : A -> A -> Z).

Fixpoint insert (x : A) (l : list A) : list A :=
  match l with
  | [] => [x]
  | y :: l' => if (cmp x y <=? 0)%Z then x :: l else y :: insert x l'
  end.

Fixpoint sort (l : list A) : list A :=
  match l with
  | [] => []
  | x :: l' => insert x (sort l')
  end.
(** [a] may stand before [b]. *)
Definition precedes (a b : A) : Prop := (cmp a b <= 0)%Z.

(** A comparator is consistent on a list when it orders its elements
    totally and transitively. *)
Definition consistent_on (l : list A) : Prop :=
  (forall a b, a ∈ l -> b ∈ l -> precedes a b \/ precedes b a)
  /\ (forall a b c, a ∈ l -> b ∈ l -> c ∈ l ->
        precedes a b -> precedes b c -> precedes a c).
End Sort.

Section View.

(** [a.localeCompare(b)]: the collation of the browser's locale. *)
Variable localeCompare : string -> string -> Z.

(** [new Date(b.published_date) - new Date(a.published_date)]; with an
    invalid date the difference is NaN, which [sort] reads as zero. *)
Definition by_date (a b : paper) : Z :=
  match published b, published a with
  | Some tb, Some ta => (tb - ta)%Z
  | _, _ => 0%Z
  end.

Definition by_title (a b : paper) : Z := localeCompare (title a) (title b).

(** [document.getElementById("searchInput")?.value?.toLowerCase() || ""] *)
Definition searchTerm (c : controls) : string :=
  match searchInput c with
  | Some v => toLowerCase v
  | None => ""%string
  end.

(** The papers the cards are made from, in the order of the cards. *)
Definition shown (data : listing) (c : controls) : list paper :=
  let term := searchTerm c in
  let papers :=
    if bool_decide (term = ""%string) then papers data
    else List.filter (fun p => includes (toLowerCase (title p)) term) (papers data) in
  if bool_decide (sortSelect c = Some "title"%string)
  then sort by_title papers
  else sort by_date papers.

(** A card: the title, the authors line, the summary paragraph and the
    target of the link. *)
Record card := {
  heading : string;
  byline : string;
  summary : string;
  href : Z }.

Definition or_else (s fallback : string) : string :=
  if bool_decide (s = ""%string) then fallback else s.

Definition card_of (p : paper) : card :=
  {| heading := title p;
     byline := match authors p with
               | Some a => or_else a "Unknown"
               | None => "Unknown"%string
               end;
     summary := or_else (cleanSummary (Some (formatSummaries (summary_short p) "short")))
                        "No summary available.";
     href := id p |}.

(** The page buttons: the number and whether the button is disabled. *)
Definition pagination (data : listing) : list (nat * bool) :=
  (fun n => (n, bool_decide (n = page data))) <$> seq 1 (total_pages data).

(** [loadPapers] once the answer is there: the cards put into
    [#papersGrid] and the buttons put into [#pagination]; [None] when the
    page has no grid and nothing is rendered. *)
Definition loadPapers (grid : bool) (data : listing) (c : controls)
  : option (list card * list (nat * bool)) :=
  if grid then Some (card_of <$> shown data c, pagination data) else None.

(** The text of the search field. *)
Definition search_text (c : controls) : string := default ""%string (searchInput c).

(** One string is part of another whatever the case of the letters. *)
Definition contains_ignoring_case (title term : string) : Prop :=
  exists pre post,
    chars (toLowerCase title) = pre ++ chars (toLowerCase term) ++ post.

(** The papers of the page whose title contains the search text. *)
Definition matching (data : listing) (term : string) : list paper :=
  List.filter (fun p => includes (toLowerCase (title p)) (toLowerCase term)) (papers data).

(** Both dates are valid and the first is not before the second. *)
Definition newest_first (a b : paper) : Prop :=
  exists ta tb, published a = Some ta /\ published b = Some tb /\ (tb <= ta)%Z.

End View.

(** A page of three papers, and a collation by length. *)
Definition example_listing : listing :=
  {| papers := [ {| id := 1; title := "Graph Neural Networks"; authors := Some "A";
                    summary_short := None; published := Some 100%Z |};
                 {| id := 2; title := "graphs"; authors := None;
                    summary_short := None; published := Some 300%Z |};
                 {| id := 3; title := "Attention"; authors := Some "";
                    summary_short := None; published := Some 200%Z |} ]%string;
     total_pages := 3; page := 2 |}.

Definition example_collation (a b : string) : Z :=
  (Z.of_nat (String.length a) - Z.of_nat (String.length b))%Z.

End PaperList.

(** ** The links of the tree *)

Module Links.

Import Normalizer(hierarchy).
Import Renderer.

(** Modelled from the spec: the keyed data join, as in [Renderer.bind_key],
    for keys of any kind. *)
Section Keyed.
Context {K : Type} `{EqDecision K}.

Fixpoint first_index_of (k : K) (gkeys : list K) : option nat :=
  match gkeys with
  | [] => None
  | k' :: gkeys' =>
      if bool_decide (k' = k) then Some 0 else S <$> first_index_of k gkeys'
  end.

Fixpoint bind_keys (gkeys dkeys : list K) (used : list K) : list (option nat) :=
  match dkeys with
  | [] => []
  | k :: dkeys' =>
      match (if bool_decide (k ∈ used) then None else first_index_of k gkeys) with
      | Some j => Some j :: bind_keys gkeys dkeys' (k :: used)
      | None => None :: bind_keys gkeys dkeys' used
      end
  end.
End Keyed.

Section Layout.
Context {coord : Type}.
Variable tidy : shape -> path -> point coord.

(** A drawn [path.link] element: the node its link leads to, and the curve
    of its [d] attribute, from the place of the parent to the place of the
    node.  [update] sets [d] on the entering elements only. *)
Record link := {
  target : path;
  curve : option (point coord * point coord) }.

(** Modelled from the spec: [root.links()] is the layout library's.  It
    gives one link for every node below the root, in the order of
    [descendants], from the node's parent to the node. *)
Definition links (root : rnode coord) : list path := tail (descendants root).

Definition parent (p : path) : path := removelast p.

(** [d3.linkHorizontal().x(d => d.y).y(d => d.x)] on the link to the node
    at [p]. *)
Definition curve_of (t : rnode coord) (p : path)
  : option (point coord * point coord) :=
  s ← node_at (parent p) t ≫= xy;
  d ← node_at p t ≫= xy;
  Some ((s.2, s.1), (d.2, d.1)).

Definition enter_link (t : rnode coord) (p : path) : link :=
  {| target := p; curve := curve_of t p |}.

(** The group after [link.enter().append("path")]: every joined element
    stays where it is, bound to its datum, with the elements entered
    before it in front.  The script does not remove the exit selection, so
    the elements that are not joined stay as well. *)
Definition joined_links (t : rnode coord) (els : list link)
           (rs : list (list path * nat * path)) (last : list path) : list link :=
  concat (imap (fun j el =>
                  match List.find (fun r => bool_decide (r.1.2 = j)) rs with
                  | Some (ens, _, p) =>
                      (enter_link t <$> ens) ++ [{| target := p; curve := curve el |}]
                  | None => [el]
                  end) els)
  ++ (enter_link t <$> last).

(** The part of [update] that draws the links, on the tree [update] is
    called with.  The key of a link is [d.target.id]: a number, or
    [undefined] ([None]) for a node that was never drawn; the ids are read
    before the join of the nodes gives out new ones. *)
Definition update_links (root : rnode coord) (els : list link) : list link :=
  let data := links root in
  let t := treeLayout tidy root in
  let gkeys := (fun el => id_at (target el) t) <$> els in
  let dkeys := (fun p => id_at p t) <$> data in
  let joined := zip data (bind_keys gkeys dkeys []) in
  let '(rs, last) := runs joined [] in
  joined_links t els rs last.

(** The tree with its node elements, and the link elements. *)
Record scene := { tree : view coord; paths : list link }.

(** [update] with both joins. *)
Definition update_scene (s : scene) : result scene :=
  v' ← update tidy (tree s);
  Ok {| tree := v'; paths := update_links (root (tree s)) (paths s) |}.

Definition click_scene (p : path) (s : scene) : result scene :=
  update_scene
    {| tree := {| root := modify_at toggle p (root (tree s));
                  i := i (tree s);
                  drawn := drawn (tree s) |};
       paths := paths s |}.

Definition render_scene (dt : hierarchy) (i0 : option Z) : result scene :=
  update_scene
    {| tree := {| root := collapse_children (treeLayout tidy (hierarchy_of dt));
                  i := i0;
                  drawn := [] |};
       paths := [] |}.

(** The scenes a page goes through. *)
Inductive reachable_scene (dt : hierarchy) (i0 : Z) : scene -> Prop :=
| scene_render (s : scene) :
    render_scene dt (Some i0) = Ok s -> reachable_scene dt i0 s
| scene_click (s s' : scene) (p : path) :
    reachable_scene dt i0 s -> p ∈ datum <$> drawn (tree s) ->
    click_scene p s = Ok s' -> reachable_scene dt i0 s'.

End Layout.

Arguments link : clear implicits.
Arguments scene : clear implicits.

(** What holds of every scene the page goes through: the tree is settled,
    every link element leads to a node that has an id, and every visible
    node below the root has a link element. *)
Definition links_ok {coord} (tidy : shape -> path -> point coord)
           (s : scene coord) : Prop :=
  settled tidy (tree s)
  /\ (forall el, el ∈ paths s -> is_Some (id_at (target el) (root (tree s))))
  /\ (forall q, q ∈ links (root (tree s)) -> q ∈ target <$> paths s).

End Links.

(** ** The paper page *)

Module PaperDetail.

Import JsString.
Import PaperList(card, href, or_else).
Import Mindmap(payload, page, outcome, renderMindmap).
Import Renderer(shape, path, point).

(** [\d], as the alternation of the ten digits it stands for. *)
Definition Digit : re :=
  Alt (Lit "0") (Alt (Lit "1") (Alt (Lit "2") (Alt (Lit "3") (Alt (Lit "4")
  (Alt (Lit "5") (Alt (Lit "6") (Alt (Lit "7") (Alt (Lit "8") (Lit "9"))))))))).

Definition is_digit (c : ascii) : bool :=
  let n := code c in (48 <=? n) && (n <=? 57).

(** [/\/paper\/(\d+)/] *)
Definition re_paper : regexp :=
  {| pattern := Seq (Word "/paper/") (Group (Plus true Digit));
     reflags := {| ignoreCase := false; dotAll := false; multiline := false |};
     global := false |}.

(** [window.location.pathname.match(..)] and [match[1]]; [None] when the
    path does not match and [loadPaperDetail] returns at once. *)
Definition paperId (pathname : string) : option string :=
  group1 <$> js_match pathname re_paper.

(** The answer of [GET /api/papers/{id}], with the fields the page reads:
    [paper.title], [paper.pdf_url], [summaries.long], [facts], [entities]
    and [mindmap_json]. *)
Record fact := { fact_type : string; value : string }.
Record entity := { entity_name : string; entity_type : string }.
Record answer := {
  title : string;
  pdf_url : string;
  long : option string;
  facts : list fact;
  entities : list entity;
  mindmap_json : payload }.

(** An entity tag: the [span]'s class and its text. *)
Record tag := { className : string; textContent : string }.

(** What the page shows in [#paperTitle], [#paperLink], [#longSummary],
    [#factsList] and [#entitiesList]. *)
Record detail := {
  paperTitle : string;
  paperLink : string;
  longSummary : string;
  factsList : list string;
  entitiesList : list tag }.

(** [`${f.type}: ${f.value}`] *)
Definition fact_line (f : fact) : string := fact_type f +:+ ": " +:+ value f.

(** [`entity-tag entity-${e.type}`] and [`${e.entity} (${e.type})`] *)
Definition entity_tag (e : entity) : tag :=
  {| className := "entity-tag entity-" +:+ entity_type e;
     textContent := entity_name e +:+ " (" +:+ entity_type e +:+ ")" |}.

(** The text part of [loadPaperDetail]: the five elements are set from the
    answer, the two lists after they were emptied. *)
Definition fill (data : answer) : detail :=
  {| paperTitle := title data;
     paperLink := pdf_url data;
     longSummary := or_else (cleanSummary (Some (formatSummaries (long data) "long")))
                            "No long summary available.";
     factsList := fact_line <$> facts data;
     entitiesList := entity_tag <$> entities data |}.

Section Page.
Context {coord : Type}.
Variable tidy : shape -> path -> point coord.
Variable JSON_parse : string -> option Mindmap.data.

(** [fetch(`${API_BASE}/papers/${paperId}`)] and [res.json()]: the answer
    of the API for an id. *)
Variable fetch : string -> answer.

(** [loadPaperDetail] on a page that has the five elements: [None] when the
    path names no paper and nothing is touched; otherwise the text that is
    shown and how the call of [renderMindmap], which comes last, ends. *)
Definition loadPaperDetail (depth : nat) (pathname : string) (pg : page coord)
  : option (detail * outcome coord) :=
  match paperId pathname with
  | None => None
  | Some id =>
      let data := fetch id in
      Some (fill data, renderMindmap tidy JSON_parse depth (mindmap_json data) pg)
  end.

End Page.

(** A number in a template literal: the decimal digits of an integer, with
    a minus sign when it is negative (integers below 10^21 in size). *)
Definition number_text (z : Z) : string := NilZero.string_of_int (Z.to_int z).

(** [href="/paper/${p.id}"]: the path the link of a card leads to. *)
Definition card_path (c : card) : string := "/paper/" +:+ number_text (href c).

End PaperDetail.

(** ** The dark mode switch *)

Module DarkMode.

(** The text of the button: what the markup of the page gives it, or one
    of the two texts the script sets (a sun and "Light Mode", a moon and
    "Dark Mode"). *)
Inductive caption : Type := Markup | LightMode | DarkMode.

(** The page as the switch sees it: the text of [#darkModeToggle] ([None]
    on a page without the button), whether [body] has the class
    [dark-mode], and the entry [dark-mode] of the local storage ([None]
    when there is none). *)
Record page := {
  toggleBtn : option caption;
  dark : bool;
  stored : option string }.

(** The handler of [DOMContentLoaded]. *)
Definition load (pg : page) : page :=
  match toggleBtn pg with
  | Some _ =>
      if bool_decide (stored pg = Some "true"%string)
      then {| toggleBtn := Some LightMode; dark := true; stored := stored pg |}
      else pg
  | None => pg
  end.

(** The handler of a click on the button; a page without the button has
    nothing to click on. *)
Definition click (pg : page) : page :=
  match toggleBtn pg with
  | Some _ =>
      let isDark := negb (dark pg) in
      {| toggleBtn := Some (if isDark then LightMode else DarkMode);
         dark := isDark;
         stored := Some (if isDark then "true" else "false")%string |}
  | None => pg
  end.

(** A visit: the page as its markup gives it, with what the storage holds,
    after the handler of [DOMContentLoaded] has run. *)
Definition visit (button markup_dark : bool) (storage : option string) : page :=
  load {| toggleBtn := if button then Some Markup else None;
          dark := markup_dark;
          stored := storage |}.

Definition clicks (n : nat) (pg : page) : page := Nat.iter n click pg.

End DarkMode.

(** ** The start of a page *)

Module Init.

(** The elements the first handler of [DOMContentLoaded] looks up. *)
Record dom := {
  papersGrid : bool;
  searchInput : bool;
  sortSelect : bool;
  paperTitle : bool }.

(** What the handler sets off. *)
Inductive step : Type :=
| LoadPapers          (* [loadPapers()] *)
| ListenInput         (* [searchInput.addEventListener("input", ..)] *)
| ListenChange        (* [sortSelect.addEventListener("change", ..)] *)
| LoadPaperDetail.    (* [loadPaperDetail()] *)

(** The handler: the steps it took, and the error it ended with, if any.
    [getElementById] gives [null] for a missing element, and calling
    [addEventListener] on it throws. *)
Definition init (d : dom) : list step * option error :=
  let list_page :=
    if papersGrid d then
      if searchInput d then
        if sortSelect d then ([LoadPapers; ListenInput; ListenChange], None)
        else ([LoadPapers; ListenInput], Some TypeError)
      else ([LoadPapers], Some TypeError)
    else ([], None) in
  match list_page.2 with
  | Some e => list_page
  | None => (list_page.1 ++ (if paperTitle d then [LoadPaperDetail] else []), None)
  end.

End Init.


(** * Properties *)

(** ** Summary cleaning *)

Section SummaryFacts.
Import JsString.

(** Once the preamble is gone, the example reads as the two labelled
    sections. *)
Lemma example_without_preamble :
  js_remove example_blob re_preamble = "Short Summary: foo. Long Summary: bar."%string.
Proof. vm_compute. reflexivity. Qed.

(** The short section is captured from the colon after the label up to the
    long label. *)
Lemma example_short_match :
  js_match "Short Summary: foo. Long Summary: bar." re_short
  = Some ("Short Summary: foo. "%string, Some ": foo. "%string).
Proof. vm_compute. reflexivity. Qed.

Lemma example_long_match :
  js_match "Short Summary: foo. Long Summary: bar." re_long
  = Some ("Long Summary: bar."%string, Some ": bar."%string).
Proof. vm_compute. reflexivity. Qed.

(** C8, as the specification states it, does not hold: neither the short
    nor the long result is the text without the colon. *)
Lemma C8_formatSummaries_spec_outputs_refuted :
  formatSummaries (Some example_blob) "short"
    <> "<strong>Short Summary:</strong> foo."%string
  /\ formatSummaries (Some example_blob) "long" <> " bar."%string.
Proof. split; vm_compute; discriminate. Qed.

(** C8 (amended): on the example blob [formatSummaries] with type "short"
    yields the short label followed by ": foo.", and with type "long" yields
    " : bar."; the colon that follows each section label in the input is
    part of the captured text.  [cleanSummary], which the callers apply to
    the result, leaves both as they are. *)
Theorem C8_formatSummaries_example :
  formatSummaries (Some example_blob) "short"
    = "<strong>Short Summary:</strong> : foo."%string
  /\ formatSummaries (Some example_blob) "long" = " : bar."%string
  /\ cleanSummary (Some (formatSummaries (Some example_blob) "short"))
     = "<strong>Short Summary:</strong> : foo."%string
  /\ cleanSummary (Some (formatSummaries (Some example_blob) "long"))
     = " : bar."%string.
Proof. repeat split; vm_compute; reflexivity. Qed.

End SummaryFacts.

(** ** The graph normalizer *)

Section NormalizerFacts.
Import Normalizer.

Lemma build_nodes_from (ns : list node) (m : gmap string tnode) (k : string) :
  fold_left (fun m n => set m (id n) (fresh_node n)) ns m !! k
  = match last (List.filter (fun n => bool_decide (id n = k)) ns) with
    | Some n => Some (fresh_node n)
    | None => m !! k
    end.
Proof.
  induction ns as [|n ns IH] using rev_ind; simpl; [done|].
  rewrite fold_left_app, List.filter_app, last_app. simpl. unfold set at 1.
  case_bool_decide as Hk; simpl.
  - subst k. by rewrite lookup_insert_eq.
  - by rewrite lookup_insert_ne.
Qed.

(** The tree node registered under a key is made from the last node
    declared with it. *)
Lemma build_nodes_lookup (ns : list node) (k : string) :
  build_nodes ns !! k
  = fresh_node <$> last (List.filter (fun n => bool_decide (id n = k)) ns).
Proof.
  unfold build_nodes. rewrite build_nodes_from, lookup_empty. by destruct (last _).
Qed.

Lemma build_nodes_declared (g : graph) (k : string) :
  declared g k <-> is_Some (build_nodes (nodes g) !! k).
Proof.
  rewrite build_nodes_lookup. unfold declared.
  rewrite list_elem_of_fmap. split.
  - intros (n & -> & Hn).
    assert (Hin : n ∈ List.filter (fun n0 => bool_decide (id n0 = id n)) (nodes g)).
    { apply list_elem_of_In, filter_In. split; [by apply list_elem_of_In|].
      by apply bool_decide_eq_true. }
    destruct (List.filter _ _) as [|x l] using rev_ind; [by apply elem_of_nil in Hin|].
    rewrite last_snoc. eauto.
  - intros [t Ht]. destruct (last _) as [n|] eqn:E; [|done].
    apply last_Some_elem_of in E. apply list_elem_of_In, filter_In in E as [Hin Hk].
    apply bool_decide_eq_true in Hk. exists n. split; [done|]. by apply list_elem_of_In.
Qed.

Lemma get_declared (g : graph) (k : string) :
  declared g k -> get (build_nodes (nodes g)) k = VNode k.
Proof.
  intros [t Ht]%build_nodes_declared. unfold get. by rewrite Ht.
Qed.

Lemma get_unknown (g : graph) (k : string) :
  ~ declared g k -> ~ inherited g k -> get (build_nodes (nodes g)) k = VUndefined.
Proof.
  intros Hd Hi. unfold get.
  destruct (build_nodes (nodes g) !! k) as [t|] eqn:Hk.
  { destruct Hd. apply build_nodes_declared. eauto. }
  assert (Hp : object_prototype k = VUndefined).
  { unfold object_prototype. case_bool_decide as Hin; [|done].
    destruct Hi. by left. }
  destruct (build_nodes (nodes g) !! "__proto__"%string) as [p|] eqn:Hproto; [|done].
  assert (declared g "__proto__"%string) by (apply build_nodes_declared; eauto).
  repeat case_bool_decide; subst; try done; destruct Hi; right; auto.
Qed.

(** Pushing a child changes neither the keys nor the names, so every key
    evaluates as before. *)
Lemma get_alter_push (m : gmap string tnode) (c : value) (k k' : string) :
  get (alter (push c) k m) k' = get m k'.
Proof.
  unfold get.
  assert (E : forall j : string, name <$> alter (push c) k m !! j = name <$> m !! j).
  { intros j. rewrite lookup_alter. case_decide; [subst|done].
    by destruct (m !! j). }
  pose proof (E k') as E1. pose proof (E "__proto__"%string) as E2.
  destruct (alter (push c) k m !! k'), (m !! k'); simplify_eq/=; try done.
  destruct (alter (push c) k m !! "__proto__"%string), (m !! "__proto__"%string);
    simplify_eq/=; try done.
  by rewrite E2.
Qed.

Lemma link_edge_get (m m' : gmap string tnode) (e : edge) :
  link_edge m e = Ok m' -> forall k, get m' k = get m k.
Proof.
  unfold link_edge. intros H k.
  destruct (truthy _ && truthy _); [|by simplify_eq].
  destruct (get m (from e)); simplify_eq. apply get_alter_push.
Qed.

Lemma well_formed_true (g : graph) (e : edge) :
  well_formed g e = true <-> declared g (from e) /\ declared g (to e).
Proof.
  unfold well_formed. rewrite andb_true_iff, !bool_decide_eq_true. done.
Qed.

(** Under plain edges the loop does not throw, and the edges with an
    undeclared end leave the store as it is. *)
Lemma link_edges_plain (g : graph) (es : list edge) (m : gmap string tnode) :
  (forall k, get m k = get (build_nodes (nodes g)) k) ->
  (forall e, e ∈ es ->
     (declared g (from e) \/ ~ inherited g (from e)) /\
     (declared g (to e) \/ ~ inherited g (to e))) ->
  exists m', link_edges m es = Ok m'
             /\ link_edges m (List.filter (well_formed g) es) = Ok m'
             /\ forall k, get m' k = get (build_nodes (nodes g)) k.
Proof.
  revert m. induction es as [|e es IH]; intros m Hm Hes; simpl.
  { by exists m. }
  destruct (Hes e) as [Hf Ht]; [by left|].
  assert (Hes' : forall e', e' ∈ es ->
     (declared g (from e') \/ ~ inherited g (from e')) /\
     (declared g (to e') \/ ~ inherited g (to e'))).
  { intros e' He'. apply Hes. by right. }
  destruct (well_formed g e) eqn:Hwf.
  - apply well_formed_true in Hwf as [Hdf Hdt].
    assert (Hstep : link_edge m e = Ok (alter (push (VNode (to e))) (from e) m)).
    { unfold link_edge. by rewrite !Hm, (get_declared g _ Hdf), (get_declared g _ Hdt). }
    destruct (IH (alter (push (VNode (to e))) (from e) m)) as (m' & H1 & H2 & H3); [|done|].
    { intros k. by rewrite get_alter_push. }
    exists m'. simpl. rewrite Hstep. simpl. done.
  - assert (Hstep : link_edge m e = Ok m).
    { unfold link_edge. rewrite !Hm.
      assert (Hnd : ~ (declared g (from e) /\ declared g (to e))).
      { intros Hd%well_formed_true. congruence. }
      destruct Hf as [Hdf|Hif].
      - destruct Ht as [Hdt|Hit]; [tauto|].
        assert (~ declared g (to e)) by tauto.
        rewrite (get_unknown g (to e)) by done. simpl. by rewrite andb_false_r.
      - destruct (decide (declared g (from e))) as [Hdf|Hdf].
        + destruct Ht as [Hdt|Hit]; [tauto|].
          assert (~ declared g (to e)) by tauto.
          rewrite (get_unknown g (to e)) by done. simpl. by rewrite andb_false_r.
        + by rewrite (get_unknown g (from e)). }
    destruct (IH m) as (m' & H1 & H2 & H3); [done..|].
    exists m'. rewrite Hstep. simpl. done.
Qed.

Lemma link_edges_get (es : list edge) (m m' : gmap string tnode) :
  link_edges m es = Ok m' -> forall k, get m' k = get m k.
Proof.
  revert m. induction es as [|e es IH]; intros m H k; simpl in H.
  { by simplify_eq. }
  destruct (link_edge m e) as [m1|] eqn:E; simpl in H; [|done].
  rewrite (IH _ H). by apply (link_edge_get m m1 e).
Qed.

Lemma select_root_elem (ns : list node) (ts : gset string) (r : node) :
  select_root ns ts = Some r -> r ∈ ns.
Proof.
  unfold select_root. destruct (List.find _ ns) as [n|] eqn:E.
  - intros; simplify_eq. apply find_some in E as [Hin _]. by apply list_elem_of_In.
  - destruct ns; simpl; intros; simplify_eq. by left.
Qed.

Lemma select_root_nonempty (ns : list node) (ts : gset string) :
  ns <> [] -> is_Some (select_root ns ts).
Proof.
  unfold select_root. destruct (List.find _ ns); [eauto|].
  destruct ns; [done|]. simpl. eauto.
Qed.

Lemma targets_spec (g : graph) (k : string) : k ∈ targets (edges g) <-> is_target g k.
Proof.
  unfold targets, is_target. rewrite elem_of_list_to_set, list_elem_of_fmap.
  split; intros (e & H1 & H2); exists e; done.
Qed.

Lemma find_first {A} (f : A -> bool) (l : list A) (x : A) :
  List.find f l = Some x ->
  exists pre post, l = pre ++ x :: post /\ f x = true /\ forall y, y ∈ pre -> f y = false.
Proof.
  induction l as [|a l IH]; simpl; [done|].
  destruct (f a) eqn:Ha.
  - intros; simplify_eq. exists [], l. split; [done|]. split; [done|].
    intros y Hy. by apply elem_of_nil in Hy.
  - intros (pre & post & -> & Hx & Hpre)%IH. exists (a :: pre), post.
    split; [done|]. split; [done|]. intros y [->|Hy]%elem_of_cons; auto.
Qed.

Lemma select_root_spec (g : graph) (r : node) :
  select_root (nodes g) (targets (edges g)) = Some r -> chosen_root g r.
Proof.
  unfold select_root. destruct (List.find _ (nodes g)) as [n|] eqn:E.
  - intros; simplify_eq. left.
    apply find_first in E as (pre & post & Hn & Hr & Hpre).
    exists pre, post. split; [done|]. split.
    + apply negb_true_iff, bool_decide_eq_false in Hr. by rewrite <- targets_spec.
    + intros n Hn'. apply Hpre, negb_false_iff, bool_decide_eq_true in Hn'.
      by apply targets_spec.
  - intros Hh. right. split; [|done]. intros n Hn.
    apply targets_spec. apply list_elem_of_In in Hn.
    pose proof (find_none _ _ E n Hn) as Hf. simpl in Hf.
    by apply negb_false_iff, bool_decide_eq_true in Hf.
Qed.

(** Root selection, whenever the loop over the edges completes: the value
    returned is the tree node registered under the id of the node the
    specification's rule names. *)
Lemma convertToHierarchy_root (g : graph) (m : gmap string tnode) :
  nodes g <> [] ->
  link_edges (build_nodes (nodes g)) (edges g) = Ok m ->
  exists r, chosen_root g r /\ convertToHierarchy g = Ok (m, VNode (id r)).
Proof.
  intros Hne Hm.
  destruct (select_root_nonempty (nodes g) (targets (edges g)) Hne) as [r Hr].
  exists r. split; [by apply select_root_spec|].
  unfold convertToHierarchy. rewrite Hm. simpl. rewrite Hr.
  rewrite (link_edges_get _ _ _ Hm).
  rewrite (get_declared g); [done|].
  apply select_root_elem in Hr. unfold declared. apply list_elem_of_fmap. eauto.
Qed.

(** With plain edges the loop over the edges completes, so the root is the
    one the rule names. *)
Lemma convertToHierarchy_plain_root (g : graph) :
  nodes g <> [] -> plain_edges g ->
  exists m r, chosen_root g r /\ convertToHierarchy g = Ok (m, VNode (id r)).
Proof.
  intros Hne Hp.
  destruct (link_edges_plain g (edges g) (build_nodes (nodes g)))
    as (m & Hm & _ & _); [done|exact Hp|].
  destruct (convertToHierarchy_root g m Hne Hm) as (r & Hr & Hc). eauto.
Qed.

(** C1: a graph with one declared node and an edge whose source is
    ["constructor"].  The node list is not empty and, the only node being a
    target, the rule names that node as the root; but [nodesById] answers
    to the source with a member of [Object.prototype], the guard of the
    loop lets the edge through, and [convertToHierarchy] throws before it
    selects a root. *)
Theorem C1_inherited_source_throws :
  nodes inherited_source_graph <> []
  /\ chosen_root inherited_source_graph {| id := "a"; label := "A" |}
  /\ get (build_nodes (nodes inherited_source_graph)) "constructor"
     = VBuiltin "constructor"
  /\ convertToHierarchy inherited_source_graph = Throw TypeError.
Proof.
  split; [done|]. split; [|split; vm_compute; reflexivity].
  right. split; [|done].
  intros n Hn. apply list_elem_of_singleton in Hn as ->.
  exists {| from := "constructor"; to := "a" |}. split; [|done].
  apply list_elem_of_singleton. reflexivity.
Qed.

(** C2: for a graph of one node and no edge, [convertToHierarchy] returns a
    hierarchy node with that node's label and no children; for three nodes
    with distinct ids and the edges from the first to the second and from
    the second to the third, it returns the first with the second as its
    only child, which has the third as its only child, which has none. *)
Theorem C2_single_node_and_chain :
  (forall (n : node) (depth : nat),
      0 < depth ->
      hierarchy_of_result depth (convertToHierarchy {| nodes := [n]; edges := [] |})
      = Ok (Some (HNode (label n) [])))
  /\ (forall (a b c : node) (depth : nat),
        id a <> id b -> id b <> id c -> id a <> id c -> 2 < depth ->
        hierarchy_of_result depth
          (convertToHierarchy
             {| nodes := [a; b; c];
                edges := [ {| from := id a; to := id b |};
                           {| from := id b; to := id c |} ] |})
        = Ok (Some (HNode (label a) [HNode (label b) [HNode (label c) []]]))).
Proof.
  split.
  - intros n [|d] Hd; [lia|].
    unfold convertToHierarchy, hierarchy_of_result, select_root, targets, build_nodes, get, set.
    simpl. rewrite bool_decide_eq_false_2 by set_solver. simpl.
    rewrite lookup_insert_eq. simpl. by rewrite lookup_insert_eq.
  - intros a b c [|[|[|d]]] Hab Hbc Hac Hd; try lia.
    unfold convertToHierarchy, hierarchy_of_result, select_root, targets, build_nodes.
    simpl. unfold link_edge, get, set. simpl.
    simplify_map_eq. simpl.
    rewrite bool_decide_eq_false_2 by set_solver. simpl.
    simplify_map_eq. simpl. reflexivity.
Qed.

Lemma C2_single_node_and_chain_witness :
  hierarchy_of_result 1
    (convertToHierarchy {| nodes := [ {| id := "n"; label := "Only" |} ]; edges := [] |})
  = Ok (Some (HNode "Only" []))
  /\ hierarchy_of_result 3
       (convertToHierarchy
          {| nodes := [ {| id := "A"; label := "A" |}; {| id := "B"; label := "B" |};
                        {| id := "C"; label := "C" |} ];
             edges := [ {| from := "A"; to := "B" |}; {| from := "B"; to := "C" |} ] |})
     = Ok (Some (HNode "A" [HNode "B" [HNode "C" []]])).
Proof.
  split.
  - apply (proj1 C2_single_node_and_chain {| id := "n"; label := "Only" |} 1). lia.
  - apply (proj2 C2_single_node_and_chain
             {| id := "A"; label := "A" |} {| id := "B"; label := "B" |}
             {| id := "C"; label := "C" |} 3); simpl; (done || lia).
Defined.

(** C7, as the specification states it, does not hold: the edge from the
    undeclared ["zzz"] into ["a"] adds no child, yet with it the hierarchy
    returned is the one of ["b"], and with the well-formed edges alone (there
    is none) it is the one of ["a"]. *)
Lemma C7_dangling_edge_changes_root :
  well_formed_edges dangling_edge_graph = []
  /\ hierarchy_of_result 1 (convertToHierarchy dangling_edge_graph)
     = Ok (Some (HNode "B" []))
  /\ hierarchy_of_result 1 (convertToHierarchy (prune dangling_edge_graph))
     = Ok (Some (HNode "A" []))
  /\ convertToHierarchy dangling_edge_graph
     <> convertToHierarchy (prune dangling_edge_graph).
Proof.
  assert (H1 : hierarchy_of_result 1 (convertToHierarchy dangling_edge_graph)
               = Ok (Some (HNode "B" []))) by (vm_compute; reflexivity).
  assert (H2 : hierarchy_of_result 1 (convertToHierarchy (prune dangling_edge_graph))
               = Ok (Some (HNode "A" []))) by (vm_compute; reflexivity).
  split; [vm_compute; reflexivity|]. split; [done|]. split; [done|].
  intros E. rewrite E, H2 in H1. discriminate.
Qed.

(** C7 (amended): in a graph where no undeclared end of an edge is a key
    that [nodesById] inherits, an edge with an undeclared end adds no child
    and raises no error: the loop over the edges completes with the very
    store that the well-formed edges alone build.  The root is still
    selected against the targets of all the edges, the ignored ones too;
    the call throws only for an empty node list. *)
Theorem C7_unknown_ends_add_no_child (g : graph) :
  plain_edges g ->
  exists m,
    link_edges (build_nodes (nodes g)) (edges g) = Ok m
    /\ link_edges (build_nodes (nodes (prune g))) (edges (prune g)) = Ok m
    /\ convertToHierarchy g
       = match select_root (nodes g) (targets (edges g)) with
         | Some r => Ok (m, VNode (id r))
         | None => Throw TypeError
         end
    /\ (nodes g <> [] -> exists r r',
           convertToHierarchy g = Ok (m, VNode (id r))
           /\ convertToHierarchy (prune g) = Ok (m, VNode (id r'))).
Proof.
  intros Hp.
  destruct (link_edges_plain g (edges g) (build_nodes (nodes g)))
    as (m & Hm & Hm' & Hget); [done|exact Hp|].
  exists m. split; [done|]. split; [done|].
  assert (Hc : convertToHierarchy g
       = match select_root (nodes g) (targets (edges g)) with
         | Some r => Ok (m, VNode (id r))
         | None => Throw TypeError
         end).
  { unfold convertToHierarchy. rewrite Hm. simpl.
    destruct (select_root _ _) as [r|] eqn:Hr; [|done].
    rewrite Hget, (get_declared g); [done|].
    apply select_root_elem in Hr. unfold declared. apply list_elem_of_fmap. eauto. }
  split; [done|]. intros Hne.
  destruct (convertToHierarchy_root g m Hne Hm) as (r & _ & Hr).
  destruct (convertToHierarchy_root (prune g) m Hne Hm') as (r' & _ & Hr').
  eauto.
Qed.

Lemma C7_unknown_ends_add_no_child_witness :
  exists m,
    link_edges (build_nodes (nodes dangling_edge_graph)) (edges dangling_edge_graph) = Ok m
    /\ link_edges (build_nodes (nodes (prune dangling_edge_graph)))
                  (edges (prune dangling_edge_graph)) = Ok m
    /\ convertToHierarchy dangling_edge_graph
       = match select_root (nodes dangling_edge_graph)
                           (targets (edges dangling_edge_graph)) with
         | Some r => Ok (m, VNode (id r))
         | None => Throw TypeError
         end
    /\ (nodes dangling_edge_graph <> [] -> exists r r',
           convertToHierarchy dangling_edge_graph = Ok (m, VNode (id r))
           /\ convertToHierarchy (prune dangling_edge_graph) = Ok (m, VNode (id r'))).
Proof.
  apply (C7_unknown_ends_add_no_child dangling_edge_graph).
  intros e He. apply list_elem_of_singleton in He as ->. simpl. split.
  - right. intros [H|[_ [H|H]]]; [|discriminate H..].
    assert (Hd : bool_decide ("zzz"%string ∈ object_prototype_keys) = false)
      by (vm_compute; reflexivity).
    apply bool_decide_eq_false in Hd. exact (Hd H).
  - left. unfold declared. simpl. set_solver.
Defined.

(** Without a declared node the call throws, whatever the edges: in the
    loop when an edge names two members of [Object.prototype], otherwise
    when the root, which is [undefined], is dereferenced. *)
Lemma link_edges_empty (es : list edge) :
  link_edges ∅ es = Ok ∅ \/ link_edges ∅ es = Throw TypeError.
Proof.
  induction es as [|e es IH]; simpl; [by left|].
  assert (Hs : link_edge ∅ e = Ok ∅ \/ link_edge ∅ e = Throw TypeError).
  { unfold link_edge, get. rewrite !lookup_empty.
    destruct (truthy (object_prototype (from e)) && truthy (object_prototype (to e)));
      [|by left].
    unfold object_prototype. case_bool_decide; by right. }
  destruct Hs as [-> | ->]; simpl; [exact IH|by right].
Qed.

Lemma convertToHierarchy_no_nodes (g : graph) :
  nodes g = [] -> convertToHierarchy g = Throw TypeError.
Proof.
  intros Hn. unfold convertToHierarchy. rewrite Hn. simpl.
  change (build_nodes []) with (∅ : gmap string tnode).
  by destruct (link_edges_empty (edges g)) as [-> | ->].
Qed.

End NormalizerFacts.

(** ** The entry of the mind map renderer *)

Section MindmapFacts.
Import Mindmap.

Variable coord : Type.
Variable tidy : Renderer.shape -> Renderer.path -> Renderer.point coord.
Variable JSON_parse : string -> option data.

(** C6: for an absent payload [renderMindmap] returns with the page as it
    was; for a string that [JSON.parse] rejects it returns, without
    throwing, with one more line on the console and the container as it
    was. *)
Theorem C6_absent_or_unparsable_input (depth : nat) (pg : page coord) :
  (forall v : payload,
      absent v = true ->
      renderMindmap tidy JSON_parse depth v pg = Returned pg)
  /\ (forall s : string,
        s <> ""%string -> JSON_parse s = None ->
        renderMindmap tidy JSON_parse depth (PString s) pg
        = Returned
            {| container := container pg;
               console := console pg
                          ++ [("Invalid mindmap JSON"%string, SyntaxError)];
               i := i pg |}).
Proof.
  split.
  - intros v Hv. unfold renderMindmap. by rewrite Hv.
  - intros s Hs Hp. unfold renderMindmap. simpl.
    rewrite bool_decide_eq_false_2 by done. by rewrite Hp.
Qed.

(** C10: a payload that is, or parses to, a graph with an empty node list
    makes [convertToHierarchy] throw a TypeError, which [renderMindmap]
    passes on to its caller: nothing is drawn and nothing is logged. *)
Theorem C10_empty_node_list_throws (depth : nat) (pg : page coord)
        (g : Normalizer.graph) :
  Normalizer.nodes g = [] ->
  Normalizer.convertToHierarchy g = Throw TypeError
  /\ renderMindmap tidy JSON_parse depth (PObject (DGraph g)) pg
     = Thrown TypeError pg
  /\ (forall s : string,
        JSON_parse s = Some (DGraph g) -> s <> ""%string ->
        renderMindmap tidy JSON_parse depth (PString s) pg
        = Thrown TypeError pg).
Proof.
  intros Hn. pose proof (convertToHierarchy_no_nodes g Hn) as Hc.
  split; [done|]. split.
  - unfold renderMindmap. simpl. by rewrite Hc.
  - intros s Hp Hs. unfold renderMindmap. simpl.
    rewrite bool_decide_eq_false_2 by done. by rewrite Hp, Hc.
Qed.

End MindmapFacts.

Lemma C6_absent_or_unparsable_input_witness :
  let pg : Mindmap.page unit :=
    {| Mindmap.container := Some None; Mindmap.console := [];
       Mindmap.i := Some 0%Z |} in
  Mindmap.renderMindmap (coord := unit) (fun _ _ => (tt, tt)) (fun _ => None) 0
    (Mindmap.PString "") pg = Mindmap.Returned pg
  /\ Mindmap.renderMindmap (coord := unit) (fun _ _ => (tt, tt)) (fun _ => None) 0
       (Mindmap.PString "{nodes") pg
     = Mindmap.Returned
         {| Mindmap.container := Some None;
            Mindmap.console := [("Invalid mindmap JSON"%string, SyntaxError)];
            Mindmap.i := Some 0%Z |}.
Proof.
  intros pg. split.
  - apply (proj1 (C6_absent_or_unparsable_input unit (fun _ _ => (tt, tt))
                    (fun _ => None) 0 pg) (Mindmap.PString "")).
    reflexivity.
  - apply (proj2 (C6_absent_or_unparsable_input unit (fun _ _ => (tt, tt))
                    (fun _ => None) 0 pg) "{nodes"%string); [discriminate|reflexivity].
Defined.

Lemma C10_empty_node_list_throws_witness :
  let pg : Mindmap.page unit :=
    {| Mindmap.container := Some None; Mindmap.console := [];
       Mindmap.i := Some 0%Z |} in
  let g := {| Normalizer.nodes := []; Normalizer.edges := [] |} in
  Normalizer.convertToHierarchy g = Throw TypeError
  /\ Mindmap.renderMindmap (coord := unit) (fun _ _ => (tt, tt))
       (fun _ => Some (Mindmap.DGraph g)) 0 (Mindmap.PObject (Mindmap.DGraph g)) pg
     = Mindmap.Thrown TypeError pg
  /\ (forall s : string,
        Some (Mindmap.DGraph g) = Some (Mindmap.DGraph g) -> s <> ""%string ->
        Mindmap.renderMindmap (coord := unit) (fun _ _ => (tt, tt))
          (fun _ => Some (Mindmap.DGraph g)) 0 (Mindmap.PString s) pg
        = Mindmap.Thrown TypeError pg).
Proof.
  intros pg g.
  apply (C10_empty_node_list_throws unit (fun _ _ => (tt, tt))
           (fun _ => Some (Mindmap.DGraph g)) 0 pg g).
  reflexivity.
Defined.

(** ** The collapsible tree *)

Section RendererFacts.
Import Renderer.
Import Normalizer(hierarchy, HNode, HOther).

Context {coord : Type}.
Variable tidy : shape -> path -> point coord.

(** Induction over a render node and the nodes in both of its slots. *)
Lemma rnode_ind' (P : rnode coord -> Prop) :
  (forall dt n c h q q0,
      slot_Forall P c -> slot_Forall P h -> P (RNode dt n c h q q0)) ->
  forall d, P d.
Proof.
  intros H. fix IH 1. intros [dt n c h q q0].
  apply H.
  - destruct c as [| |l]; simpl; [exact I..|].
    induction l as [|x l IHl]; constructor; [apply IH|exact IHl].
  - destruct h as [| |l]; simpl; [exact I..|].
    induction l as [|x l IHl]; constructor; [apply IH|exact IHl].
Qed.

Lemma hierarchy_ind' (P : hierarchy -> Prop) :
  (forall n l, Forall P l -> P (HNode n l)) ->
  (forall v, P (HOther v)) ->
  forall h, P h.
Proof.
  intros Hn Ho. fix IH 1. intros [n l|v]; [|apply Ho].
  apply Hn. induction l as [|x l IHl]; constructor; [apply IH|exact IHl].
Qed.

Lemma place_unfold (s : shape) (p : path) (d : rnode coord) :
  place tidy s p d
  = RNode (data d) (id d)
      match children d with
      | Arr l => Arr (place_list tidy s p 0 l)
      | c => c
      end
      (_children d) (Some (tidy s p)) (xy0 d).
Proof. by destruct d as [dt n [| |l] h q q0]. Qed.

Lemma place_list_fmap {B} (f : rnode coord -> B) (s : shape) (p : path)
      (l : list (rnode coord)) (j : nat) :
  Forall (fun d => forall p', f (place tidy s p' d) = f d) l ->
  f <$> place_list tidy s p j l = f <$> l.
Proof.
  intros H. revert j. induction H as [|x l Hx _ IH]; intros j; simpl; [done|].
  by rewrite Hx, IH.
Qed.

(** The layout, the saving of positions and the key function write
    coordinates and ids only: the state of the tree stays. *)
Lemma state_of_place (s : shape) (d : rnode coord) :
  forall p, state_of (place tidy s p d) = state_of d.
Proof.
  induction d as [dt n c h q q0 IHc _] using rnode_ind'. intros p.
  rewrite place_unfold. simpl. destruct c as [| |l]; simpl; try done.
  do 2 f_equal. by apply (place_list_fmap state_of).
Qed.

Lemma state_of_save_positions (d : rnode coord) :
  state_of (save_positions d) = state_of d.
Proof.
  induction d as [dt n c h q q0 IHc _] using rnode_ind'.
  simpl. destruct c as [| |l]; simpl; try done.
  do 2 f_equal. rewrite map_map. apply map_ext_Forall. exact IHc.
Qed.

Lemma fmap_alter_id {A B} (g : A -> B) (f : A -> A) (j : nat) (l : list A) :
  (forall x, l !! j = Some x -> g (f x) = g x) -> g <$> alter f j l = g <$> l.
Proof.
  revert j. induction l as [|a l IH]; intros [|j] H; csimpl; try done.
  - by rewrite H.
  - f_equal. apply IH. exact H.
Qed.

Lemma state_of_set_id (z : Z) (p : path) (d : rnode coord) :
  state_of (modify_at (set_id z) p d) = state_of d.
Proof.
  revert d. induction p as [|j p IH]; intros [dt n c h q q0]; simpl; [done|].
  destruct c as [| |l]; simpl.
  - destruct h as [| |l]; simpl; try done. do 2 f_equal.
    apply (fmap_alter_id state_of). auto.
  - destruct h as [| |l]; simpl; try done. do 2 f_equal.
    apply (fmap_alter_id state_of). auto.
  - do 2 f_equal. apply (fmap_alter_id state_of). auto.
Qed.

Lemma state_of_key (p : path) (st st' : rnode coord * option Z) (k : Z) :
  key p st = Ok (k, st') -> state_of st'.1 = state_of st.1.
Proof.
  unfold key. destruct st as [t c]. simpl.
  destruct (id_at p t) as [z|]; [destruct (z =? 0)%Z|];
    destruct c; intros; simplify_eq; simpl; try done; apply state_of_set_id.
Qed.

Lemma state_of_keys (ps : list path) (st st' : rnode coord * option Z) (ks : list Z) :
  keys ps st = Ok (ks, st') -> state_of st'.1 = state_of st.1.
Proof.
  revert st ks. induction ps as [|p ps IH]; intros st ks; simpl.
  { intros; by simplify_eq. }
  destruct (key p st) as [[k st1]|] eqn:Hk; simpl; [|done].
  destruct (keys ps st1) as [[ks' st2]|] eqn:Hks; simpl; [|done].
  intros; simplify_eq. rewrite (IH _ _ Hks). by apply (state_of_key p st st1 k).
Qed.

Lemma state_of_update (v v' : view coord) :
  update tidy v = Ok v' -> state_of (root v') = state_of (root v).
Proof.
  unfold update.
  destruct (keys (datum <$> drawn v) _) as [[gk st1]|] eqn:H1; simpl; [|done].
  destruct (keys (descendants (root v)) st1) as [[dk st2]|] eqn:H2; simpl; [|done].
  destruct (runs _ _) as [rs last]. intros; simplify_eq. simpl.
  rewrite state_of_save_positions, (state_of_keys _ _ _ _ H2), (state_of_keys _ _ _ _ H1).
  simpl. apply state_of_place.
Qed.

(** The visible shape is read off the state. *)
Lemma visible_shape_state (d : rnode coord) :
  visible_shape d = shape_of (state_of d).
Proof.
  induction d as [dt n c h q q0 IHc _] using rnode_ind'.
  destruct c as [| |l]; simpl; try done. f_equal.
  rewrite map_map. apply map_ext_Forall. exact IHc.
Qed.

Local Arguments state_modify_at : simpl never.
Local Arguments modify_at : simpl never.

(** The click handler acts on the state as the specification's toggle. *)
Lemma state_of_toggle (d : rnode coord) :
  state_of (toggle d) = state_toggle (state_of d).
Proof. by destruct d as [dt n [| |l] [| |l'] q q0]. Qed.

Lemma alter_fmap_commute {A B} (g : A -> B) (f : A -> A) (f' : B -> B) (j : nat)
      (l : list A) :
  (forall x, g (f x) = f' (g x)) -> g <$> alter f j l = alter f' j (g <$> l).
Proof.
  intros H. revert j. induction l as [|a l IH]; intros [|j]; csimpl; try done.
  - by rewrite H.
  - by rewrite IH.
Qed.

Lemma state_of_modify_at (f : rnode coord -> rnode coord) (f' : state -> state)
      (p : path) :
  (forall d, state_of (f d) = f' (state_of d)) ->
  forall d, state_of (modify_at f p d) = state_modify_at f' p (state_of d).
Proof.
  intros Hf. induction p as [|j p IH]; intros [dt n c h q q0]; [apply Hf|].
  unfold modify_at, state_modify_at; fold (modify_at f p) (state_modify_at f' p).
  destruct c as [| |l]; simpl.
  - destruct h as [| |l]; simpl; try done. do 2 f_equal.
    by apply (alter_fmap_commute state_of).
  - destruct h as [| |l]; simpl; try done. do 2 f_equal.
    by apply (alter_fmap_commute state_of).
  - do 2 f_equal. by apply (alter_fmap_commute state_of).
Qed.

Lemma state_kids_toggle (s : state) : state_kids (state_toggle s) = state_kids s.
Proof. by destruct s as [dt [l|] [l'|]]. Qed.

Lemma state_kids_modify_at (f : state -> state) (j : nat) (p : path) (s : state) :
  state_kids (state_modify_at f (j :: p) s) = alter (state_modify_at f p) j (state_kids s).
Proof. by destruct s as [dt [l|] [l'|]]. Qed.

Lemma flags_modify_below (f : state -> state) (j : nat) (p : path) (s : state) :
  flags (state_modify_at f (j :: p) s) = flags s.
Proof. by destruct s as [dt [l|] [l'|]]. Qed.

(** A toggle leaves the slots of every other node as they are. *)
Lemma flags_at_toggle_other (p q : path) (s : state) :
  q <> p -> flags_at q (state_modify_at state_toggle p s) = flags_at q s.
Proof.
  unfold flags_at. revert p s. induction q as [|j q IH]; intros p s Hne.
  - destruct p as [|i p]; [done|]. simpl. by rewrite flags_modify_below.
  - destruct p as [|i p]; simpl.
    + change (state_modify_at state_toggle [] s) with (state_toggle s).
      by rewrite state_kids_toggle.
    + rewrite state_kids_modify_at.
      destruct (decide (i = j)) as [->|Hij].
      * rewrite list_lookup_alter_eq. destruct (state_kids s !! j) as [k|]; simpl; [|done].
        apply IH. congruence.
      * by rewrite list_lookup_alter_ne.
Qed.

Lemma state_at_toggle_self (p : path) (s : state) :
  state_at p (state_modify_at state_toggle p s) = state_toggle <$> state_at p s.
Proof.
  revert s. induction p as [|j p IH]; intros s; simpl; [done|].
  rewrite state_kids_modify_at, list_lookup_alter_eq.
  destruct (state_kids s !! j) as [k|]; simpl; [|done]. apply IH.
Qed.

Lemma state_toggle_twice (s : state) :
  flags s <> (true, true) -> state_toggle (state_toggle s) = s.
Proof. destruct s as [dt [l|] [l'|]]; simpl; try done. Qed.

Lemma alter_alter_id {A} (f : A -> A) (j : nat) (l : list A) :
  (forall x, l !! j = Some x -> f (f x) = x) -> alter f j (alter f j l) = l.
Proof.
  revert j. induction l as [|a l IH]; intros [|j] H; csimpl; try done.
  - by rewrite H.
  - f_equal. by apply IH.
Qed.

(** Two toggles of a node that does not hold children in both slots give
    the state back. *)
Lemma state_toggle_at_twice (p : path) (s : state) :
  flags_at p s <> Some (true, true) ->
  state_modify_at state_toggle p (state_modify_at state_toggle p s) = s.
Proof.
  unfold flags_at. revert s. induction p as [|j p IH]; intros s H; simpl in *.
  - apply state_toggle_twice. congruence.
  - unfold state_modify_at; fold (state_modify_at state_toggle p).
    destruct s as [dt [l|] [l'|]]; simpl in *; try done; do 2 f_equal;
      apply alter_alter_id; intros x Hx; apply IH; by rewrite Hx in H.
Qed.

Lemma exclusive_toggle (p : path) (s : state) :
  exclusive s -> exclusive (state_modify_at state_toggle p s).
Proof.
  intros He q. destruct (decide (q = p)) as [->|Hne].
  - unfold flags_at. rewrite state_at_toggle_self.
    destruct (state_at p s) as [[dt [l|] [l'|]]|]; simpl; done.
  - rewrite flags_at_toggle_other by done. apply He.
Qed.

Lemma map_fmap {A B} (f : A -> B) (l : list A) : List.map f l = f <$> l.
Proof. reflexivity. Qed.

Lemma collapsed_state_flags (q : path) (h : hierarchy) (s : state) :
  state_at q (collapsed_state h) = Some s -> (flags s).1 = false.
Proof.
  revert h s. induction q as [|j q IH]; intros h s; simpl.
  - intros; simplify_eq. by destruct h as [n [|x l]|v].
  - destruct h as [n [|x l]|v]; simpl; try done.
    rewrite (map_fmap _ l), <- fmap_cons, list_lookup_fmap.
    destruct ((x :: l) !! j) as [k|]; simpl; [|done].
    apply IH.
Qed.

(** Below the root of a fresh tree no node is expanded. *)
Lemma initial_state_flags (q : path) (h : hierarchy) (f : bool * bool) :
  q <> [] -> flags_at q (initial_state h) = Some f -> f.1 = false.
Proof.
  unfold flags_at. destruct q as [|j q]; [done|]. intros _. simpl.
  destruct h as [n [|x l]|v]; simpl; try done.
  rewrite (map_fmap _ l), <- fmap_cons, list_lookup_fmap.
  destruct ((x :: l) !! j) as [k|]; simpl; [|done].
  destruct (state_at q (collapsed_state k)) as [s|] eqn:Hs; simpl; [|done].
  intros; simplify_eq. by apply (collapsed_state_flags q k).
Qed.

Lemma initial_state_exclusive (h : hierarchy) : exclusive (initial_state h).
Proof.
  intros q Hq. destruct (decide (q = [])) as [->|Hne].
  - unfold flags_at in Hq. simpl in Hq. by destruct h as [n [|x l]|v].
  - by apply (initial_state_flags q h _ Hne) in Hq.
Qed.
End RendererFacts.

Section PathOrder.
Import Renderer.

Lemma lex_irrefl (p : path) : ~ lex p p.
Proof. induction p as [|a p IH]; simpl; [tauto|]. intros [H|[_ H]]; [lia|tauto]. Qed.

Lemma lex_trans (p q r : path) : lex p q -> lex q r -> lex p r.
Proof.
  revert q r. induction p as [|a p IH]; intros [|b q] [|c r]; simpl; try tauto.
  intros [H1|[-> H1]] [H2|[-> H2]]; eauto with lia.
Qed.

Lemma path_lt_irrefl (p : path) : ~ path_lt p p.
Proof. intros [H|[_ H]]; [lia|by apply lex_irrefl in H]. Qed.

Lemma path_lt_trans (p q r : path) : path_lt p q -> path_lt q r -> path_lt p r.
Proof.
  intros [H1|[E1 H1]] [H2|[E2 H2]]; unfold path_lt; try (left; lia).
  right. split; [lia|]. by apply (lex_trans p q r).
Qed.

Lemma levels_unfold (l : list shape) : levels (Shape l) = [[]] :: levels_go 0 l.
Proof. reflexivity. Qed.

Lemma zip_levels_lookup (a b : list (list path)) (k : nat) :
  zip_levels a b !! k
  = match a !! k, b !! k with
    | Some x, Some y => Some (x ++ y)
    | Some x, None => Some x
    | None, o => o
    end.
Proof.
  revert b k. induction a as [|x a IH]; intros [|y b] [|k]; simpl; try done.
  all: first [by destruct (a !! k) | apply IH].
Qed.

Lemma zip_levels_lookup_cases (a b : list (list path)) (k : nat) (L : list path) :
  zip_levels a b !! k = Some L ->
  (exists x y, a !! k = Some x /\ b !! k = Some y /\ L = x ++ y)
  \/ (a !! k = Some L /\ b !! k = None)
  \/ (a !! k = None /\ b !! k = Some L).
Proof.
  rewrite zip_levels_lookup.
  destruct (a !! k) as [x|], (b !! k) as [y|]; intros; simplify_eq; eauto 10.
Qed.

Lemma concat_zip_levels (a b : list (list path)) (p : path) :
  p ∈ concat (zip_levels a b) <-> p ∈ concat a \/ p ∈ concat b.
Proof.
  revert b. induction a as [|x a IH]; intros [|y b]; simpl.
  - rewrite elem_of_nil. tauto.
  - rewrite elem_of_nil. tauto.
  - rewrite elem_of_nil. tauto.
  - rewrite !elem_of_app, IH. tauto.
Qed.

Lemma shape_ind' (P : shape -> Prop) :
  (forall l, Forall P l -> P (Shape l)) -> forall s, P s.
Proof.
  intros H. fix IH 1. intros [l]. apply H.
  induction l as [|x l IHl]; constructor; [apply IH|exact IHl].
Qed.

Lemma levels_ok_cons (i : nat) (ll : list (list path)) :
  levels_ok 0 0 ll -> levels_ok i 1 (List.map (List.map (cons i)) ll)
  /\ forall k L q, List.map (List.map (cons i)) ll !! k = Some L -> q ∈ L -> head q = Some i.
Proof.
  intros H. split.
  - intros k L.
    change (List.map (List.map (cons i)) ll) with (fmap (M := list) (fmap (M := list) (cons i)) ll).
    rewrite list_lookup_fmap, fmap_Some. intros (L0 & E & ->).
    destruct (H k L0 E) as [Hs Hl]. split.
    + eapply StronglySorted_fmap; [|exact Hs]. intros x y Hxy. right. split; [reflexivity|exact Hxy].
    + intros q (q0 & -> & Hq0)%list_elem_of_fmap. destruct (Hl q0 Hq0) as [Hlen _].
      simpl. split; [lia|done].
  - intros k L q.
    change (List.map (List.map (cons i)) ll) with (fmap (M := list) (fmap (M := list) (cons i)) ll).
    rewrite list_lookup_fmap, fmap_Some. intros (L0 & E & ->).
    intros (q0 & -> & _)%list_elem_of_fmap. done.
Qed.

Lemma levels_go_ok (l : list shape) :
  Forall (fun s => levels_ok 0 0 (levels s)) l ->
  forall i, levels_ok i 1 (levels_go i l).
Proof.
  induction 1 as [|s l Hs _ IH]; intros i; simpl.
  { intros k L Hk. done. }
  destruct (levels_ok_cons i _ Hs) as [Ha Hhd].
  pose proof (IH (S i)) as Hb.
  intros k L [(x & y & Ex & Ey & ->)|[[Ex Ey]|[Ex Ey]]]%zip_levels_lookup_cases.
  - destruct (Ha k x Ex) as [Hsx Hlx]. destruct (Hb k y Ey) as [Hsy Hly]. split.
    + apply StronglySorted_app_2; [|done..].
      intros p q Hp Hq. pose proof (Hhd k x p Ex Hp) as Hh.
      destruct (Hly q Hq) as [Hlen Hlo].
      destruct p as [|a p]; [done|]. simpl in Hh. simplify_eq.
      destruct q as [|b q]; [simpl in Hlen; lia|]. simpl. left. lia.
    + intros q [Hq|Hq]%elem_of_app; [by apply Hlx|].
      destruct (Hly q Hq) as [Hlen Hlo]. split; [done|].
      destruct q; [done|lia].
  - by apply Ha.
  - destruct (Hb k L Ey) as [Hsy Hly]. split; [done|].
    intros q Hq. destruct (Hly q Hq) as [Hlen Hlo]. split; [done|].
    destruct q; [done|lia].
Qed.

Lemma levels_levels_ok (s : shape) : levels_ok 0 0 (levels s).
Proof.
  induction s as [l IH] using shape_ind'. rewrite levels_unfold.
  intros [|k] L; simpl.
  - intros; simplify_eq. split; [repeat constructor|].
    intros q ->%list_elem_of_singleton. done.
  - intros Hk. destruct (levels_go_ok l IH 0 k L Hk) as [Hs Hl]. split; [done|].
    intros q Hq. destruct (Hl q Hq) as [Hlen _]. split; [lia|]. destruct q; [done|lia].
Qed.

Lemma levels_ok_sorted (lo d : nat) (ll : list (list path)) :
  levels_ok lo d ll -> StronglySorted path_lt (concat ll).
Proof.
  revert d. induction ll as [|L ll IH]; intros d H; simpl; [constructor|].
  assert (H' : levels_ok lo (S d) ll).
  { intros k L' Hk. destruct (H (S k) L' Hk) as [Hs Hl]. split; [done|].
    intros q Hq. destruct (Hl q Hq) as [Hlen Hlo]. split; [lia|done]. }
  destruct (H 0 L eq_refl) as [Hs Hl].
  apply StronglySorted_app_2; [| |by apply (IH (S d))].
  - intros p q Hp Hq. left. destruct (Hl p Hp) as [-> _].
    apply list_elem_of_In, in_concat in Hq as (L' & HL' & Hq).
    apply list_elem_of_In, list_elem_of_lookup in HL' as [k Hk].
    destruct (H' k L' Hk) as [_ Hl']. apply list_elem_of_In in Hq.
    destruct (Hl' q Hq) as [-> _]. lia.
  - clear -Hs Hl. induction Hs as [|p L Hs IH Hf]; constructor.
    + apply IH. intros q Hq. apply Hl. by right.
    + rewrite Forall_forall in *. intros q Hq. right. split; [|by apply Hf].
      destruct (Hl p) as [-> _]; [by left|]. destruct (Hl q) as [-> _]; [by right|]. done.
Qed.

(** The visible nodes are listed without repetition, in one fixed order. *)
Lemma descendants_sorted {coord} (t : rnode coord) :
  StronglySorted path_lt (descendants t).
Proof. apply (levels_ok_sorted 0 0), levels_levels_ok. Qed.
End PathOrder.

Section Observe.
Import Renderer.
Import Normalizer(hierarchy, HNode, HOther).

Context {coord : Type}.
Variable tidy : shape -> path -> point coord.

Local Arguments modify_at : simpl never.

Lemma place_list_lookup (s : shape) (p : path) (l : list (rnode coord)) (i j : nat) :
  place_list tidy s p i l !! j = place tidy s (p ++ [i + j]) <$> l !! j.
Proof.
  revert i j. induction l as [|x l IH]; intros i [|j]; simpl; try done.
  - by rewrite Nat.add_0_r.
  - rewrite IH. by replace (S i + j) with (i + S j) by lia.
Qed.

Lemma node_at_corresponds (R : rnode coord -> rnode coord -> Prop) :
  corresponds R ->
  forall q t t', R t t' -> option_Forall2 R (node_at q t) (node_at q t').
Proof.
  intros HR. induction q as [|j q IH]; intros t t' Ht; simpl; [by constructor|].
  destruct (HR t t' Ht j) as [c c' Hc|]; simpl; [by apply IH|constructor].
Qed.

Lemma observe_corresponds {B} (g : rnode coord -> B)
      (R : rnode coord -> rnode coord -> Prop) :
  corresponds R -> (forall d d', R d d' -> g d' = g d) ->
  forall q t t', R t t' -> g <$> node_at q t' = g <$> node_at q t.
Proof.
  intros HR Hg q t t' Ht.
  destruct (node_at_corresponds R HR q t t' Ht) as [d d' Hd|]; simpl; [|done].
  f_equal. by apply Hg.
Qed.

Lemma option_Forall2_same (R : rnode coord -> rnode coord -> Prop)
      (o : option (rnode coord)) :
  (forall c, R c c) -> option_Forall2 R o o.
Proof. intros H. destruct o; constructor. apply H. Qed.

Lemma placed_corresponds (s : shape) : corresponds (placed tidy s).
Proof.
  assert (Hrefl : forall c, placed tidy s c c) by (intros c; by left).
  intros d d' [->|[p ->]] j; [by apply option_Forall2_same|].
  rewrite place_unfold. destruct d as [dt n [| |l] h q q0]; simpl;
    try (by apply option_Forall2_same).
  unfold kids. simpl. rewrite place_list_lookup.
  destruct (l !! j); simpl; constructor. right. eauto.
Qed.

Lemma saved_corresponds : corresponds (@saved coord).
Proof.
  assert (Hrefl : forall c : rnode coord, saved c c) by (intros c; by left).
  intros d d' [->| ->] j; [by apply option_Forall2_same|].
  destruct d as [dt n [| |l] h q q0]; simpl; try (by apply option_Forall2_same).
  unfold kids. simpl. rewrite map_fmap, list_lookup_fmap.
  destruct (l !! j); simpl; constructor. by right.
Qed.

Lemma id_at_fmap (q : path) (t : rnode coord) : id_at q t = mjoin (id <$> node_at q t).
Proof. unfold id_at. by destruct (node_at q t). Qed.

Lemma id_at_place (s : shape) (p q : path) (t : rnode coord) :
  id_at q (place tidy s p t) = id_at q t.
Proof.
  rewrite !id_at_fmap. f_equal.
  apply (observe_corresponds id (placed tidy s)); [apply placed_corresponds| |right; eauto].
  intros d d' [->|[p' ->]]; [done|]. by rewrite place_unfold.
Qed.

Lemma id_at_save_positions (q : path) (t : rnode coord) :
  id_at q (save_positions t) = id_at q t.
Proof.
  rewrite !id_at_fmap. f_equal.
  apply (observe_corresponds id (@saved coord)); [apply saved_corresponds| |by right].
  intros d d' [->| ->]; [done|]. by destruct d as [dt n [| |l] h q0 q1].
Qed.

Lemma xy_at_save_positions (q : path) (t : rnode coord) :
  xy <$> node_at q (save_positions t) = xy <$> node_at q t.
Proof.
  apply (observe_corresponds xy (@saved coord)); [apply saved_corresponds| |by right].
  intros d d' [->| ->]; [done|]. by destruct d as [dt n [| |l] h q0 q1].
Qed.

(** A change of the node at [p]. *)
Lemma kids_modify_at (f : rnode coord -> rnode coord) (j : nat) (p : path)
      (d : rnode coord) :
  kids (modify_at f (j :: p) d) = alter (modify_at f p) j (kids d).
Proof.
  unfold modify_at; fold (modify_at f p).
  by destruct d as [dt n [| |l] [| |l'] q q0].
Qed.

Lemma node_at_modify_at (f : rnode coord -> rnode coord) (p : path) (t : rnode coord) :
  node_at p (modify_at f p t) = f <$> node_at p t.
Proof.
  revert t. induction p as [|j p IH]; intros t; [done|]. simpl.
  rewrite kids_modify_at, list_lookup_alter_eq.
  destruct (kids t !! j); simpl; [apply IH|done].
Qed.

Lemma shallow_modify_at {B} (g : rnode coord -> B) (f : rnode coord -> rnode coord)
      (p q : path) (t : rnode coord) :
  (forall d, kids (f d) = kids d) ->
  (forall j p' d, g (modify_at f (j :: p') d) = g d) ->
  q <> p ->
  g <$> node_at q (modify_at f p t) = g <$> node_at q t.
Proof.
  intros Hk Hg. revert p t. induction q as [|j q IH]; intros p t Hne.
  - destruct p as [|i p]; [done|]. simpl. by rewrite Hg.
  - destruct p as [|i p]; simpl.
    + change (modify_at f [] t) with (f t). by rewrite Hk.
    + rewrite kids_modify_at. destruct (decide (i = j)) as [->|Hij].
      * rewrite list_lookup_alter_eq. destruct (kids t !! j); simpl; [|done].
        apply IH. congruence.
      * by rewrite list_lookup_alter_ne.
Qed.

Lemma id_modify_below (f : rnode coord -> rnode coord) (j : nat) (p : path)
      (d : rnode coord) :
  id (modify_at f (j :: p) d) = id d.
Proof.
  unfold modify_at; fold (modify_at f p).
  by destruct d as [dt n [| |l] [| |l'] q q0].
Qed.

Lemma kids_set_id (z : Z) (d : rnode coord) : kids (set_id z d) = kids d.
Proof. by destruct d. Qed.

Lemma kids_toggle (d : rnode coord) : kids (toggle d) = kids d.
Proof. by destruct d as [dt n [| |l] [| |l'] q q0]. Qed.

Lemma id_at_set_id_other (z : Z) (p q : path) (t : rnode coord) :
  q <> p -> id_at q (modify_at (set_id z) p t) = id_at q t.
Proof.
  intros Hne. rewrite !id_at_fmap. f_equal.
  apply shallow_modify_at; [apply kids_set_id|apply id_modify_below|done].
Qed.

Lemma id_at_set_id_same (z : Z) (p : path) (t : rnode coord) :
  is_Some (node_at p t) -> id_at p (modify_at (set_id z) p t) = Some z.
Proof.
  intros [d Hd]. unfold id_at. rewrite node_at_modify_at, Hd. by destruct d.
Qed.

Lemma id_at_toggle (p q : path) (t : rnode coord) :
  id_at q (modify_at toggle p t) = id_at q t.
Proof.
  destruct (decide (q = p)) as [->|Hne].
  - unfold id_at. rewrite node_at_modify_at.
    destruct (node_at p t) as [[dt n c h x x0]|]; simpl; [|done]. by destruct (truthy c).
  - rewrite !id_at_fmap. f_equal.
    apply shallow_modify_at; [apply kids_toggle|apply id_modify_below|done].
Qed.

Lemma valid_modify_at (f : rnode coord -> rnode coord) (p q : path) (t : rnode coord) :
  (forall d, kids (f d) = kids d) ->
  is_Some (node_at q (modify_at f p t)) <-> is_Some (node_at q t).
Proof.
  intros Hk. destruct (decide (q = p)) as [->|Hne].
  - rewrite node_at_modify_at, fmap_is_Some. done.
  - pose proof (shallow_modify_at (fun _ => tt) f p q t Hk (fun _ _ _ => eq_refl) Hne) as H.
    destruct (node_at q (modify_at f p t)), (node_at q t); simpl in H; try done.
    all: split; intros [? ?]; simplify_eq; eauto.
Qed.
End Observe.

Section Keys.
Import Renderer.
Import Normalizer(hierarchy, HNode, HOther).

Context {coord : Type}.
Variable tidy : shape -> path -> point coord.

Local Arguments modify_at : simpl never.

Lemma key_known (p : path) (t : rnode coord) (c : option Z) (z : Z) :
  id_at p t = Some z -> z <> 0%Z -> key p (t, c) = Ok (z, (t, c)).
Proof.
  intros Hid Hz. unfold key. simpl. rewrite Hid.
  by rewrite (proj2 (Z.eqb_neq z 0) Hz).
Qed.

Lemma key_fresh (p : path) (t : rnode coord) (n : Z) :
  id_at p t = None ->
  key p (t, Some n) = Ok ((n + 1)%Z, (modify_at (set_id (n + 1)) p t, Some (n + 1)%Z)).
Proof. intros Hid. unfold key. simpl. by rewrite Hid. Qed.

(** The key function on nodes that all have their id: the ids, and nothing
    is written. *)
Lemma keys_known (ps : list path) (t : rnode coord) (c : option Z) :
  (forall p, p ∈ ps -> exists z, id_at p t = Some z /\ z <> 0%Z) ->
  exists ks, keys ps (t, c) = Ok (ks, (t, c))
             /\ Forall2 (fun p k => id_at p t = Some k) ps ks.
Proof.
  induction ps as [|p ps IH]; intros H; simpl.
  { exists []. split; [done|constructor]. }
  destruct (H p) as (z & Hz & Hz0); [by left|].
  destruct IH as (ks & Hks & Hf); [intros q Hq; apply H; by right|].
  exists (z :: ks). rewrite (key_known p t c z Hz Hz0). simpl. rewrite Hks. simpl.
  split; [done|by constructor].
Qed.

(** The key function in general: ids that are there stay, the others are
    drawn from the counter, and the ids stay positive, below the counter and
    distinct. *)
Lemma keys_spec (ps : list path) :
  forall (t : rnode coord) (n : Z),
    (0 <= n)%Z -> ids_ok n t -> ids_inj t ->
    (forall p, p ∈ ps -> is_Some (node_at p t)) ->
    exists ks t' n',
      keys ps (t, Some n) = Ok (ks, (t', Some n'))
      /\ (n <= n')%Z /\ ids_ok n' t' /\ ids_inj t'
      /\ (forall q z, id_at q t = Some z -> id_at q t' = Some z)
      /\ Forall2 (fun p k => id_at p t' = Some k) ps ks
      /\ (forall q, is_Some (node_at q t') <-> is_Some (node_at q t)).
Proof.
  induction ps as [|p ps IH]; intros t n Hn Hok Hinj Hval; simpl.
  { exists [], t, n. repeat split; auto; try lia; try constructor; apply Hok in H; lia. }
  assert (Hp : is_Some (node_at p t)) by (apply Hval; by left).
  assert (Hval' : forall q, q ∈ ps -> is_Some (node_at q t)) by (intros q Hq; apply Hval; by right).
  destruct (id_at p t) as [z|] eqn:Hid.
  - destruct (Hok p z Hid) as [Hz1 Hz2].
    rewrite (key_known p t (Some n) z Hid) by lia. simpl.
    destruct (IH t n Hn Hok Hinj Hval') as (ks & t' & n' & Hk & Hle & Hok' & Hinj' & Hpre & Hf & Hv).
    exists (z :: ks), t', n'. rewrite Hk. simpl. repeat split; auto; try apply Hv.
    + apply Hok' in H. lia.
    + apply Hok' in H. lia.
  - rewrite (key_fresh p t n Hid). simpl.
    set (t1 := modify_at (set_id (n + 1)) p t).
    assert (Hsame : id_at p t1 = Some (n + 1)%Z) by (by apply id_at_set_id_same).
    assert (Hother : forall q, q <> p -> id_at q t1 = id_at q t)
      by (intros q Hq; by apply id_at_set_id_other).
    assert (Hok1 : ids_ok (n + 1) t1).
    { intros q z Hq. destruct (decide (q = p)) as [->|Hne].
      - rewrite Hsame in Hq. simplify_eq. lia.
      - rewrite Hother in Hq by done. apply Hok in Hq. lia. }
    assert (Hinj1 : ids_inj t1).
    { intros q1 q2 z H1 H2.
      destruct (decide (q1 = p)) as [->|Hne1]; destruct (decide (q2 = p)) as [->|Hne2]; try done.
      - rewrite Hsame in H1. simplify_eq. rewrite Hother in H2 by done. apply Hok in H2. lia.
      - rewrite Hsame in H2. simplify_eq. rewrite Hother in H1 by done. apply Hok in H1. lia.
      - rewrite Hother in H1, H2 by done. by apply (Hinj q1 q2 z). }
    assert (Hv1 : forall q, is_Some (node_at q t1) <-> is_Some (node_at q t)).
    { intros q. apply valid_modify_at, kids_set_id. }
    destruct (IH t1 (n + 1)%Z) as (ks & t' & n' & Hk & Hle & Hok' & Hinj' & Hpre & Hf & Hv);
      [lia|done|done|intros q Hq; apply Hv1; auto|].
    exists ((n + 1)%Z :: ks), t', n'. rewrite Hk. simpl.
    split; [done|]. split; [lia|]. split; [done|]. split; [done|]. split; [|split].
    + intros q z Hq. apply Hpre. rewrite Hother; [done|]. intros ->. congruence.
    + constructor; [by apply Hpre|done].
    + intros q. by rewrite Hv, Hv1.
Qed.

(** An operation that leaves the ids alone and commutes with setting one
    goes through the key function. *)
Lemma key_commute (G : rnode coord -> rnode coord) (p : path) (t t' : rnode coord)
      (c c' : option Z) (k : Z) :
  (forall z q d, G (modify_at (set_id z) q d) = modify_at (set_id z) q (G d)) ->
  (forall q d, id_at q (G d) = id_at q d) ->
  key p (t, c) = Ok (k, (t', c')) -> key p (G t, c) = Ok (k, (G t', c')).
Proof.
  intros H1 H2. unfold key. simpl. rewrite H2.
  destruct (id_at p t) as [z|]; [destruct (z =? 0)%Z|]; destruct c;
    intros; simplify_eq; by rewrite ?H1.
Qed.

Lemma keys_commute (G : rnode coord -> rnode coord) (ps : list path) :
  (forall z q d, G (modify_at (set_id z) q d) = modify_at (set_id z) q (G d)) ->
  (forall q d, id_at q (G d) = id_at q d) ->
  forall (t t' : rnode coord) (c c' : option Z) (ks : list Z),
    keys ps (t, c) = Ok (ks, (t', c')) -> keys ps (G t, c) = Ok (ks, (G t', c')).
Proof.
  intros H1 H2. induction ps as [|p ps IH]; intros t t' c c' ks; simpl.
  { intros; by simplify_eq. }
  destruct (key p (t, c)) as [[k [t1 c1]]|] eqn:Hk; simpl; [|done].
  rewrite (key_commute G p t t1 c c1 k H1 H2 Hk). simpl.
  destruct (keys ps (t1, c1)) as [[ks' [t2 c2]]|] eqn:Hks; simpl; [|done].
  rewrite (IH _ _ _ _ _ Hks). simpl. intros; by simplify_eq.
Qed.
End Keys.

Section LayoutFacts.
Import Renderer.
Import Normalizer(hierarchy, HNode, HOther).

Context {coord : Type}.
Variable tidy : shape -> path -> point coord.

Local Arguments modify_at : simpl never.

Lemma place_list_alter (f : rnode coord -> rnode coord) (s : shape) (p : path)
      (l : list (rnode coord)) (i j : nat) :
  (forall p' d, place tidy s p' (f d) = f (place tidy s p' d)) ->
  place_list tidy s p i (alter f j l) = alter f j (place_list tidy s p i l).
Proof.
  intros H. revert i j. induction l as [|x l IH]; intros i [|j]; simpl; try done.
  - by rewrite H.
  - f_equal. apply IH.
Qed.

Lemma place_set_id (z : Z) (q : path) :
  forall (s : shape) (p : path) (d : rnode coord),
    place tidy s p (modify_at (set_id z) q d) = modify_at (set_id z) q (place tidy s p d).
Proof.
  induction q as [|j q IH]; intros s p d.
  - unfold modify_at.
    by destruct d as [dt n [| |l] h x x0].
  - rewrite (place_unfold tidy s p d).
    unfold modify_at; fold (modify_at (coord := coord) (set_id z) q).
    destruct d as [dt n [| |l] [| |l'] x x0]; simpl; try done.
    all: do 2 f_equal; apply place_list_alter; intros; apply IH.
Qed.

Lemma save_positions_set_id (z : Z) (q : path) :
  forall d : rnode coord,
    save_positions (modify_at (set_id z) q d) = modify_at (set_id z) q (save_positions d).
Proof.
  induction q as [|j q IH]; intros d.
  - unfold modify_at.
    by destruct d as [dt n [| |l] h x x0].
  - unfold modify_at; fold (modify_at (coord := coord) (set_id z) q).
    destruct d as [dt n [| |l] [| |l'] x x0]; simpl; try done.
    all: do 2 f_equal; rewrite !map_fmap; by apply alter_fmap_commute.
Qed.

Lemma place_list_twice (s : shape) (p : path) (l : list (rnode coord)) (i : nat)
      (f : rnode coord -> rnode coord) :
  Forall (fun d => forall p', place tidy s p' (f (place tidy s p' d)) = f (place tidy s p' d)) l ->
  place_list tidy s p i (f <$> place_list tidy s p i l) = f <$> place_list tidy s p i l.
Proof.
  intros H. revert i. induction H as [|x l Hx _ IH]; intros i; simpl; [done|].
  rewrite Hx. f_equal. apply IH.
Qed.

(** Laying a tree out a second time, also after the positions were saved,
    changes nothing. *)
Lemma place_save_place (s : shape) (d : rnode coord) :
  forall p, place tidy s p (save_positions (place tidy s p d))
            = save_positions (place tidy s p d).
Proof.
  induction d as [dt n c h q q0 IHc _] using rnode_ind'. intros p.
  rewrite (place_unfold tidy s p (RNode dt n c h q q0)). simpl.
  destruct c as [| |l]; simpl; try done.
  do 2 f_equal. rewrite !map_fmap. by apply place_list_twice.
Qed.

Lemma save_positions_twice (d : rnode coord) :
  save_positions (save_positions d) = save_positions d.
Proof.
  induction d as [dt n c h q q0 IHc _] using rnode_ind'. simpl.
  destruct c as [| |l]; simpl; try done.
  do 2 f_equal. rewrite map_map. apply map_ext_Forall. exact IHc.
Qed.

Lemma place_twice (s : shape) (d : rnode coord) :
  forall p, place tidy s p (place tidy s p d) = place tidy s p d.
Proof.
  induction d as [dt n c h q q0 IHc _] using rnode_ind'. intros p.
  rewrite (place_unfold tidy s p (RNode dt n c h q q0)). simpl.
  destruct c as [| |l]; simpl; try done.
  do 2 f_equal.
  pose proof (place_list_twice s p l 0 (fun x => x)) as H.
  rewrite !list_fmap_id in H. apply H. exact IHc.
Qed.
End LayoutFacts.

Section Join.
Import Renderer.

Context {coord : Type}.

Lemma first_index_lookup (k : Z) (g : list Z) (j : nat) :
  first_index k g = Some j -> g !! j = Some k.
Proof.
  revert j. induction g as [|k' g IH]; intros j; simpl; [done|].
  case_bool_decide as Hk; [intros; by simplify_eq|].
  destruct (first_index k g) as [j'|]; simpl; [|done].
  intros; simplify_eq. by apply IH.
Qed.

Lemma first_index_None (k : Z) (g : list Z) :
  first_index k g = None -> k ∉ g.
Proof.
  induction g as [|k' g IH]; simpl; [intros _; apply not_elem_of_nil|].
  case_bool_decide as Hk; [done|].
  destruct (first_index k g) as [j'|]; simpl; [done|].
  intros _ [->|Hin]%elem_of_cons; [done|]. by apply IH.
Qed.

Lemma bind_key_distinct (g dkeys used : list Z) :
  NoDup dkeys -> (forall k, k ∈ dkeys -> k ∉ used) ->
  bind_key g dkeys used = (fun k => first_index k g) <$> dkeys.
Proof.
  intros Hnd. revert used. induction Hnd as [|k dkeys Hk Hnd IH]; intros used Hu; simpl; [done|].
  rewrite bool_decide_eq_false_2 by (apply Hu; by left).
  destruct (first_index k g) as [j|]; csimpl; f_equal; apply IH.
  - intros k' Hk' [->|Hin]%elem_of_cons; [done|]. eapply Hu; [by right|done].
  - intros k' Hk'. apply Hu. by right.
Qed.

Lemma runs_spec (joined : list (path * option nat)) :
  forall pending rs last,
    runs joined pending = (rs, last) ->
    run_index <$> rs = omap snd joined
    /\ concat (run_data <$> rs) ++ last = pending ++ joined.*1.
Proof.
  induction joined as [|[p [j|]] joined IH]; intros pending rs last; simpl.
  - intros; simplify_eq. by rewrite app_nil_r.
  - destruct (runs joined []) as [rs' last'] eqn:E. intros; simplify_eq.
    destruct (IH [] rs' last E) as [H1 H2]. csimpl. split; [by f_equal|].
    unfold run_data at 1. simpl. rewrite <- !app_assoc. simpl. by rewrite H2.
  - intros H. destruct (IH _ _ _ H) as [H1 H2]. split; [done|].
    rewrite H2, <- app_assoc. done.
Qed.

Lemma joined_group_unfold (els : list (element coord)) rs last :
  joined_group els rs last = concat (imap (group_at rs) els) ++ (enter <$> last).
Proof. reflexivity. Qed.

Lemma datum_enter (l : list path) : datum <$> (enter (coord := coord) <$> l) = l.
Proof. rewrite <- list_fmap_compose. apply list_fmap_id. Qed.

(** When the joined elements come in the order of their data, the group is
    in the order of the data. *)
Lemma group_in_data_order (els : list (element coord)) :
  forall off rs,
    StronglySorted lt (run_index <$> rs) ->
    (forall j, j ∈ run_index <$> rs -> off <= j < off + length els) ->
    datum <$> concat (imap (fun j => group_at rs (off + j)) els)
    = concat (run_data <$> rs).
Proof.
  induction els as [|el els IH]; intros off rs Hs Hb.
  { destruct rs as [|r rs]; [done|]. destruct (Hb (run_index r)); [by left|]. simpl in *. lia. }
  rewrite imap_cons. simpl.
  assert (Hext : imap ((fun j => group_at rs (off + j)) ∘ S) els
                 = imap (fun j => group_at rs (S off + j)) els).
  { apply imap_ext. intros j x _. simpl. f_equal. lia. }
  rewrite Hext, fmap_app. clear Hext.
  destruct rs as [|[[ens j] p] rs].
  - rewrite (IH (S off) []); [done|constructor|]. intros j Hj. by apply elem_of_nil in Hj.
  - csimpl in Hs. apply StronglySorted_cons in Hs as [Hall Hs].
    destruct (decide (j = off)) as [->|Hne].
    + assert (Hhere : group_at ((ens, off, p) :: rs) (off + 0) el
                      = (enter <$> ens) ++ [{| datum := p; translate := translate el |}]).
      { unfold group_at. cbn [List.find fst snd]. rewrite bool_decide_eq_true_2 by (simpl; lia). done. }
      rewrite Hhere. clear Hhere.
      assert (Hext : imap (fun j => group_at ((ens, off, p) :: rs) (S off + j)) els
                     = imap (fun j => group_at rs (S off + j)) els).
      { apply imap_ext. intros j x _. unfold group_at. cbn [List.find fst snd].
        rewrite bool_decide_eq_false_2 by (simpl; lia). done. }
      rewrite Hext, IH; clear Hext.
      * rewrite fmap_app, datum_enter. csimpl. unfold run_data at 2. simpl.
        by rewrite <- app_assoc.
      * done.
      * intros j Hj. rewrite Forall_forall in Hall. pose proof (Hall j Hj).
        destruct (Hb j); [by right|]. unfold run_index in *. simpl in *. lia.
    + assert (Hlt : off < j). { destruct (Hb j); [by left|]. lia. }
      assert (Hhere : group_at ((ens, j, p) :: rs) (off + 0) el = []).
      { unfold group_at.
        destruct (List.find _ _) as [[[ens' j'] p']|] eqn:E; [|done].
        apply find_some in E as [Hin Hj']. apply bool_decide_eq_true in Hj'. simpl in Hj'.
        assert (Hin' : j' ∈ run_index <$> ((ens, j, p) :: rs)).
        { apply list_elem_of_fmap. exists (ens', j', p'). split; [done|]. by apply list_elem_of_In. }
        csimpl in Hin'. unfold run_index at 1 in Hin'. simpl in Hin'.
        apply elem_of_cons in Hin' as [Heq|Hin']; [lia|].
        rewrite Forall_forall in Hall. pose proof (Hall j' Hin') as Hj.
        unfold run_index at 1 in Hj. simpl in Hj. lia. }
      rewrite Hhere, fmap_nil, app_nil_l. apply (IH (S off) ((ens, j, p) :: rs)).
      * csimpl. by apply StronglySorted_cons.
      * intros j' Hj'. destruct (Hb j' Hj') as [Hlo Hhi]. split; [|simpl in Hhi; lia].
        csimpl in Hj'. unfold run_index at 1 in Hj'. simpl in Hj'.
        apply elem_of_cons in Hj' as [->|Hj']; [lia|].
        rewrite Forall_forall in Hall. pose proof (Hall j' Hj') as Hj.
        unfold run_index at 1 in Hj. simpl in Hj. lia.
Qed.

Lemma joined_group_in_data_order (els : list (element coord))
      (joined : list (path * option nat)) rs last :
  runs joined [] = (rs, last) ->
  StronglySorted lt (omap snd joined) ->
  (forall j, j ∈ omap snd joined -> j < length els) ->
  datum <$> joined_group els rs last = joined.*1.
Proof.
  intros Hr Hs Hb. destruct (runs_spec joined [] rs last Hr) as [H1 H2].
  rewrite joined_group_unfold, fmap_app, datum_enter.
  change (imap (group_at rs) els) with (imap (fun j => group_at rs (0 + j)) els).
  rewrite (group_in_data_order els 0 rs), H2; [done|by rewrite H1|].
  intros j Hj. rewrite H1 in Hj. split; [lia|by apply Hb].
Qed.
End Join.

Section UpdateFacts.
Import Renderer.
Import Normalizer(hierarchy, HNode, HOther).

Context {coord : Type}.
Variable tidy : shape -> path -> point coord.

Local Arguments modify_at : simpl never.

Lemma concat_map_cons (i : nat) (ll : list (list path)) (p : path) :
  p ∈ concat (List.map (List.map (cons i)) ll) ->
  exists p', p = i :: p' /\ p' ∈ concat ll.
Proof.
  induction ll as [|L ll IH]; simpl; [by intros ?%elem_of_nil|].
  intros [H|H]%elem_of_app.
  - change (List.map (cons i) L) with (cons i <$> L) in H.
    apply list_elem_of_fmap in H as (p' & -> & Hp'). exists p'. split; [done|].
    apply elem_of_app. by left.
  - destruct (IH H) as (p' & -> & Hp'). exists p'. split; [done|].
    apply elem_of_app. by right.
Qed.

Lemma levels_go_elem (l : list shape) :
  forall i p, p ∈ concat (levels_go i l) ->
    exists j k p', l !! j = Some k /\ p = (i + j) :: p' /\ p' ∈ concat (levels k).
Proof.
  induction l as [|k l IH]; intros i p; simpl; [by intros ?%elem_of_nil|].
  intros [H|H]%concat_zip_levels.
  - destruct (concat_map_cons i _ p H) as (p' & -> & Hp').
    exists 0, k, p'. rewrite Nat.add_0_r. done.
  - destruct (IH (S i) p H) as (j & k' & p' & Hj & -> & Hp').
    exists (S j), k', p'. split; [done|]. split; [f_equal; lia|done].
Qed.

(** A visible node is a node of the tree. *)
Lemma descendants_node_at (p : path) :
  forall t : rnode coord, p ∈ descendants t -> is_Some (node_at p t).
Proof.
  induction p as [|j p IH]; intros t; [by eexists|].
  unfold descendants. destruct t as [dt n [| |l] h q q0]; simpl.
  1,2: intros H; apply elem_of_cons in H as [H|H]; [done|by apply elem_of_nil in H].
  intros H. apply elem_of_cons in H as [H|H]; [done|].
  apply (levels_go_elem _ 0) in H as (j' & k & p' & Hj & Hp & Hp').
  simpl in Hp. simplify_eq.
  rewrite map_fmap, list_lookup_fmap in Hj.
  destruct (l !! j') as [c|] eqn:Hc; simpl in Hj; [|done]. simplify_eq.
  unfold kids. simpl. rewrite Hc. simpl. by apply IH.
Qed.

Lemma descendants_state (t t' : rnode coord) :
  state_of t' = state_of t -> descendants t' = descendants t.
Proof. intros H. unfold descendants. by rewrite !visible_shape_state, H. Qed.

Lemma StronglySorted_lookup_lt {A} (R : relation A) (l : list A) (i j : nat) (x y : A) :
  StronglySorted R l -> l !! i = Some x -> l !! j = Some y -> i < j -> R x y.
Proof.
  intros Hs. revert i j. induction Hs as [|a l Hs IH Hall]; intros i j; [done|].
  destruct i as [|i], j as [|j]; simpl; try lia.
  - intros ? Hy _. simplify_eq. rewrite Forall_forall in Hall. apply Hall.
    by apply list_elem_of_lookup_2 in Hy.
  - intros Hx Hy Hij. apply (IH i j); [done..|lia].
Qed.

Lemma path_sorted_NoDup (l : list path) : StronglySorted path_lt l -> NoDup l.
Proof.
  induction 1 as [|a l Hs IH Hall]; constructor; [|done].
  intros Hin. rewrite Forall_forall in Hall. by apply Hall, path_lt_irrefl in Hin.
Qed.

Lemma transform_draw_at (t : rnode coord) (el : element coord) :
  transform t el = draw_at t (datum el).
Proof. reflexivity. Qed.

Lemma datum_draw_at (t : rnode coord) (l : list path) : datum <$> (draw_at t <$> l) = l.
Proof. rewrite <- list_fmap_compose. apply list_fmap_id. Qed.

Lemma draw_at_save_positions (t : rnode coord) (p : path) :
  draw_at (save_positions t) p = draw_at t p.
Proof.
  unfold draw_at, transform. simpl. f_equal.
  pose proof (xy_at_save_positions p t) as H.
  destruct (node_at p (save_positions t)), (node_at p t); simpl in *; congruence.
Qed.

(** The elements the join keeps come in the order of the data when both
    lists are in the order of the paths. *)
Lemma matched_sorted (D N : list path) (js : list (option nat)) :
  StronglySorted path_lt D -> StronglySorted path_lt N ->
  length js = length N ->
  (forall a p j, N !! a = Some p -> js !! a = Some (Some j) -> D !! j = Some p) ->
  StronglySorted lt (omap (fun o : option nat => o) js) /\ forall j, j ∈ omap (fun o : option nat => o) js -> j < length D.
Proof.
  intros HD HN. revert js. induction HN as [|p N HN IH Hall]; intros [|o js] Hlen HP;
    simpl in *; try done.
  { split; [constructor|]. by intros j ?%elem_of_nil. }
  destruct (IH js) as [Hs Hb]; [lia|intros a q j Ha Hj; by apply (HP (S a))|].
  destruct o as [j|]; simpl; [|done]. split.
  - constructor; [done|]. rewrite Forall_forall. intros j2 Hj2.
    apply list_elem_of_omap in Hj2 as (o2 & Ho2 & Hj2). simpl in Hj2. subst o2.
    apply list_elem_of_lookup in Ho2 as [b Hb2].
    destruct (lookup_lt_is_Some_2 N b) as [q Hq].
    { apply lookup_lt_Some in Hb2. lia. }
    pose proof (HP 0 p j eq_refl eq_refl) as Hj.
    pose proof (HP (S b) q j2 Hq Hb2) as Hj2.
    rewrite Forall_forall in Hall.
    assert (Hpq : path_lt p q) by (apply Hall; by apply list_elem_of_lookup_2 in Hq).
    destruct (Nat.lt_trichotomy j j2) as [?|[->|Hlt]]; [done| |].
    + simplify_eq. by apply path_lt_irrefl in Hpq.
    + pose proof (StronglySorted_lookup_lt _ D j2 j q p HD Hj2 Hj Hlt) as Hqp.
      by apply (path_lt_trans p q p Hpq), path_lt_irrefl in Hqp.
  - intros j' [->|Hj']%elem_of_cons; [|by apply Hb].
    apply (lookup_lt_Some D j p). by apply (HP 0).
Qed.
End UpdateFacts.

Section UpdateSpec.
Import Renderer.
Import Normalizer(hierarchy, HNode, HOther).

Context {coord : Type}.
Variable tidy : shape -> path -> point coord.

Local Arguments modify_at : simpl never.

Lemma ids_NoDup (t : rnode coord) (ps : list path) (ks : list Z) :
  ids_inj t -> NoDup ps -> Forall2 (fun p k => id_at p t = Some k) ps ks -> NoDup ks.
Proof.
  intros Hinj Hnd Hf. revert Hnd. induction Hf as [|p k ps ks Hp Hf IH]; intros Hnd.
  { constructor. }
  apply NoDup_cons in Hnd as [Hp' Hnd]. constructor; [|by apply IH].
  intros Hin. apply list_elem_of_lookup in Hin as [a Ha].
  destruct (Forall2_lookup_r _ _ _ _ _ Hf Ha) as (q & Hq & Hqk).
  rewrite (Hinj p q k Hp Hqk) in Hp'. by apply list_elem_of_lookup_2 in Hq.
Qed.

Lemma omap_snd_zip {A} (N : list A) (js : list (option nat)) :
  length js = length N ->
  omap snd (zip N js) = omap (fun o : option nat => o) js.
Proof.
  revert js. induction N as [|p N IH]; intros [|o js] Hlen; simpl in *; try done.
  destruct o; simpl; rewrite IH by lia; done.
Qed.

(** [update] on a view whose ids are positive, distinct and not above the
    counter, and whose elements are bound, in path order, to nodes that
    have their id. *)
Lemma update_spec (t1 : rnode coord) (n : Z) (els : list (element coord)) :
  (0 <= n)%Z -> ids_ok n t1 -> ids_inj t1 ->
  StronglySorted path_lt (datum <$> els) ->
  (forall p, p ∈ datum <$> els -> is_Some (id_at p t1)) ->
  exists dkeys t3 n',
    keys (descendants t1) (treeLayout tidy t1, Some n) = Ok (dkeys, (t3, Some n'))
    /\ update tidy {| root := t1; i := Some n; drawn := els |}
       = Ok {| root := save_positions t3; i := Some n';
               drawn := draw_at t3 <$> descendants t1 |}
    /\ (n <= n')%Z /\ ids_ok n' t3 /\ ids_inj t3
    /\ (forall q z, id_at q t1 = Some z -> id_at q t3 = Some z)
    /\ (forall p, p ∈ descendants t1 -> is_Some (id_at p t3))
    /\ state_of t3 = state_of t1
    /\ place tidy (visible_shape t1) [] t3 = t3.
Proof.
  intros Hn Hok Hinj HD HDid.
  set (N := descendants t1). set (D := datum <$> els) in *.
  set (t2 := treeLayout tidy t1).
  assert (Hid2 : forall q, id_at q t2 = id_at q t1) by (intros q; apply id_at_place).
  assert (Hok2 : ids_ok n t2) by (intros q z; rewrite Hid2; apply Hok).
  assert (Hinj2 : ids_inj t2) by (intros q1 q2 z; rewrite !Hid2; apply Hinj).
  assert (Hst2 : state_of t2 = state_of t1) by apply state_of_place.
  assert (HN2 : descendants t2 = N) by (by apply descendants_state).
  (* the keys of the elements *)
  destruct (keys_known D t2 (Some n)) as (gkeys & Hg & Hgf).
  { intros p Hp. destruct (HDid p Hp) as [z Hz]. exists z. rewrite Hid2. split; [done|].
    apply Hok in Hz. lia. }
  (* the keys of the data *)
  destruct (keys_spec N t2 n Hn Hok2 Hinj2) as
      (dkeys & t3 & n' & Hd & Hle & Hok3 & Hinj3 & Hpre & Hdf & Hval).
  { intros p Hp. apply descendants_node_at. by rewrite HN2. }
  exists dkeys, t3, n'. split; [done|].
  assert (HNs : StronglySorted path_lt N) by apply descendants_sorted.
  assert (Hst3 : state_of t3 = state_of t1).
  { rewrite <- Hst2. apply (state_of_keys N (t2, Some n) (t3, Some n') dkeys Hd). }
  assert (Hfix : place tidy (visible_shape t1) [] t3 = t3).
  { pose proof (keys_commute (place tidy (visible_shape t1) []) N
                  (fun z q d => place_set_id tidy z q _ _ d)
                  (fun q d => id_at_place tidy _ _ q d)
                  t2 t3 (Some n) (Some n') dkeys Hd) as Hc.
    unfold t2, treeLayout in Hc. rewrite place_twice in Hc.
    fold (treeLayout tidy t1) in Hc. fold t2 in Hc. rewrite Hd in Hc. by simplify_eq. }
  (* the join *)
  assert (Hbk : bind_key gkeys dkeys [] = (fun k => first_index k gkeys) <$> dkeys).
  { apply bind_key_distinct; [|intros k _; apply not_elem_of_nil].
    apply (ids_NoDup t3 N); [done| |done]. by apply path_sorted_NoDup. }
  set (js := (fun k => first_index k gkeys) <$> dkeys) in *.
  assert (Hlen : length js = length N).
  { unfold js. rewrite length_fmap. symmetry. by apply Forall2_length in Hdf. }
  assert (HP : forall a p j, N !! a = Some p -> js !! a = Some (Some j) -> D !! j = Some p).
  { intros a p j Ha Hj. unfold js in Hj. rewrite list_lookup_fmap in Hj.
    destruct (dkeys !! a) as [k|] eqn:Hk; simpl in Hj; [|done].
    assert (Hfi : first_index k gkeys = Some j) by congruence.
    pose proof (Forall2_lookup_lr _ _ _ _ _ _ Hdf Ha Hk) as Hpk. simpl in Hpk.
    apply first_index_lookup in Hfi.
    destruct (Forall2_lookup_r _ _ _ _ _ Hgf Hfi) as (p' & Hp' & Hp'k).
    rewrite (Hinj3 p p' k Hpk); [done|]. by apply Hpre. }
  destruct (matched_sorted D N js HD HNs Hlen HP) as [Hjs Hjb].
  unfold update. simpl. fold t2 D. rewrite Hg. simpl. fold N. rewrite Hd. simpl.
  rewrite Hbk. fold js.
  destruct (runs (zip N js) []) as [rs last] eqn:Hruns.
  assert (Hz1 : (zip N js).*1 = N) by (apply fst_zip; lia).
  assert (Hz2 : omap snd (zip N js) = omap (fun o : option nat => o) js)
    by (by apply omap_snd_zip).
  assert (Hgroup : datum <$> joined_group els rs last = N).
  { rewrite <- Hz1. apply (joined_group_in_data_order els (zip N js) rs last Hruns).
    - by rewrite Hz2.
    - intros j Hj. rewrite Hz2 in Hj. apply Hjb in Hj. unfold D in Hj.
      by rewrite length_fmap in Hj. }
  split.
  { f_equal. f_equal.
    rewrite (list_fmap_ext (transform t3) (draw_at t3 ∘ datum) (joined_group els rs last))
      by (intros; apply transform_draw_at).
    by rewrite list_fmap_compose, Hgroup. }
  split; [done|]. split; [done|]. split; [done|]. split.
  { intros q z Hq. apply Hpre. by rewrite Hid2. }
  split; [|done].
  intros p Hp. apply list_elem_of_lookup in Hp as [a Ha].
  destruct (Forall2_lookup_l _ _ _ _ _ Hdf Ha) as (k & _ & Hk). eauto.
Qed.
End UpdateSpec.

Section Views.
Import Renderer.
Import Normalizer(hierarchy, HNode, HOther).

Context {coord : Type}.
Variable tidy : shape -> path -> point coord.

Local Arguments modify_at : simpl never.

Lemma update_settled (t1 : rnode coord) (n : Z) (els : list (element coord)) :
  (0 <= n)%Z -> ids_ok n t1 -> ids_inj t1 ->
  StronglySorted path_lt (datum <$> els) ->
  (forall p, p ∈ datum <$> els -> is_Some (id_at p t1)) ->
  exclusive (state_of t1) ->
  exists v', update tidy {| root := t1; i := Some n; drawn := els |} = Ok v'
             /\ settled tidy v'
             /\ state_of (root v') = state_of t1
             /\ (forall q z, id_at q t1 = Some z -> id_at q (root v') = Some z).
Proof.
  intros Hn Hok Hinj HD HDid Hex.
  destruct (update_spec tidy t1 n els Hn Hok Hinj HD HDid) as
      (dkeys & t3 & n' & Hk & Hu & Hle & Hok3 & Hinj3 & Hpre & Hids & Hst & Hfix).
  eexists. split; [exact Hu|]. simpl.
  assert (Hst' : state_of (save_positions t3) = state_of t1)
    by (by rewrite state_of_save_positions).
  assert (HN : descendants (save_positions t3) = descendants t1)
    by (by apply descendants_state).
  split; [|split; [done|]].
  - exists n'. simpl. split; [done|]. split; [lia|]. split; [|split; [|split; [|split; [|split; [|split]]]]].
    + intros q z. rewrite id_at_save_positions. apply Hok3.
    + intros q1 q2 z. rewrite !id_at_save_positions. apply Hinj3.
    + rewrite HN. apply list_fmap_ext. intros _ p _. by rewrite draw_at_save_positions.
    + intros p. rewrite HN, id_at_save_positions. apply Hids.
    + unfold treeLayout. rewrite !visible_shape_state, Hst', <- visible_shape_state.
      rewrite <- Hfix at 1. rewrite place_save_place. by rewrite Hfix.
    + apply save_positions_twice.
    + by rewrite Hst'.
  - intros q z Hq. rewrite id_at_save_positions. by apply Hpre.
Qed.

(** The tree [renderMindmap] hands to the first [update]. *)
Lemma place_list_hierarchy {B} (f : rnode coord -> B) (g : hierarchy -> B)
      (s : shape) (p : path) (l : list hierarchy) (j : nat) :
  Forall (fun h => forall p', f (place tidy s p' (hierarchy_of h)) = g h) l ->
  f <$> place_list tidy s p j (hierarchy_of <$> l) = g <$> l.
Proof.
  intros H. revert j. induction H as [|x l Hx _ IH]; intros j; csimpl; [done|].
  rewrite Hx. f_equal. apply IH.
Qed.

Lemma place_hierarchy_of (s : shape) (p : path) (n : string) (x : hierarchy)
      (l : list hierarchy) :
  place tidy s p (hierarchy_of (HNode n (x :: l)))
  = RNode (HNode n (x :: l)) None
      (Arr (place_list tidy s p 0 (hierarchy_of <$> x :: l))) Undefined
      (Some (tidy s p)) None.
Proof. reflexivity. Qed.

Lemma state_of_collapse_place (s : shape) (h : hierarchy) :
  forall p, state_of (collapse (place tidy s p (hierarchy_of h))) = collapsed_state h.
Proof.
  induction h as [n l IH|v] using hierarchy_ind'; intros p; [|reflexivity].
  destruct l as [|x l]; [reflexivity|].
  rewrite place_hierarchy_of.
  change (state_of (collapse (RNode ?a ?b (Arr ?L) ?c ?q ?q0)))
    with (State a None (Some (state_of <$> (collapse <$> L)))).
  rewrite <- list_fmap_compose.
  by rewrite (place_list_hierarchy (state_of ∘ collapse) collapsed_state).
Qed.

Lemma state_of_initial (dt : hierarchy) :
  state_of (collapse_children (treeLayout tidy (hierarchy_of dt))) = initial_state dt.
Proof.
  unfold treeLayout. destruct dt as [n [|x l]|v]; try reflexivity.
  rewrite place_hierarchy_of.
  change (state_of (collapse_children (RNode ?a ?b (Arr ?L) ?c ?q ?q0)))
    with (State a (Some (state_of <$> (collapse <$> L))) None).
  rewrite <- list_fmap_compose.
  rewrite (place_list_hierarchy (state_of ∘ collapse) collapsed_state); [done|].
  apply Forall_forall. intros h _ p. apply state_of_collapse_place.
Qed.

Lemma kids_collapse_place (s : shape) (p : path) (h : hierarchy) (j : nat) :
  kids (collapse (place tidy s p (hierarchy_of h))) !! j
  = (fun k => collapse (place tidy s (p ++ [j]) (hierarchy_of k))) <$> data_children h !! j.
Proof.
  destruct h as [n [|x l]|v]; try reflexivity.
  rewrite place_hierarchy_of.
  change (kids (collapse (RNode ?a ?b (Arr ?L) ?c ?q ?q0))) with (collapse <$> L).
  rewrite list_lookup_fmap, place_list_lookup, list_lookup_fmap.
  change (data_children (HNode n (x :: l))) with (x :: l).
  destruct ((x :: l) !! j); reflexivity.
Qed.

Lemma kids_initial (s : shape) (p : path) (h : hierarchy) (j : nat) :
  kids (collapse_children (place tidy s p (hierarchy_of h))) !! j
  = (fun k => collapse (place tidy s (p ++ [j]) (hierarchy_of k))) <$> data_children h !! j.
Proof.
  destruct h as [n [|x l]|v]; try reflexivity.
  rewrite place_hierarchy_of.
  change (kids (collapse_children (RNode ?a ?b (Arr ?L) ?c ?q ?q0))) with (collapse <$> L).
  rewrite list_lookup_fmap, place_list_lookup, list_lookup_fmap.
  change (data_children (HNode n (x :: l))) with (x :: l).
  destruct ((x :: l) !! j); reflexivity.
Qed.

Lemma id_at_collapse_place (q : path) :
  forall (s : shape) (p : path) (h : hierarchy),
    id_at q (collapse (place tidy s p (hierarchy_of h))) = None.
Proof.
  induction q as [|j q IH]; intros s p h.
  - by destruct h as [n [|x l]|v].
  - unfold id_at. simpl. rewrite kids_collapse_place.
    destruct (data_children h !! j) as [k|]; simpl; [|done]. apply IH.
Qed.

Lemma id_at_initial (q : path) (dt : hierarchy) :
  id_at q (collapse_children (treeLayout tidy (hierarchy_of dt))) = None.
Proof.
  unfold treeLayout. destruct q as [|j q].
  - by destruct dt as [n [|x l]|v].
  - unfold id_at. simpl. rewrite kids_initial.
    destruct (data_children dt !! j) as [k|]; simpl; [|done].
    apply (id_at_collapse_place q).
Qed.

Lemma render_settled (dt : hierarchy) (i0 : Z) :
  (0 <= i0)%Z ->
  exists v, render tidy dt (Some i0) = Ok v /\ settled tidy v
            /\ state_of (root v) = initial_state dt.
Proof.
  intros Hi. unfold render.
  destruct (update_settled (collapse_children (treeLayout tidy (hierarchy_of dt))) i0 [])
    as (v & Hu & Hs & Hst & _); try done.
  - intros p z. by rewrite id_at_initial.
  - intros p q z. by rewrite id_at_initial.
  - constructor.
  - intros p Hp. by apply elem_of_nil in Hp.
  - rewrite state_of_initial. apply initial_state_exclusive.
  - exists v. split; [done|]. split; [done|]. by rewrite Hst, state_of_initial.
Qed.

Lemma click_settled (v : view coord) (p : path) :
  settled tidy v ->
  exists v', click tidy p v = Ok v' /\ settled tidy v'
             /\ state_of (root v')
                = state_modify_at state_toggle p (state_of (root v))
             /\ (forall q z, id_at q (root v) = Some z -> id_at q (root v') = Some z).
Proof.
  intros (n & Hi & Hn & Hok & Hinj & Hdr & Hids & _ & _ & Hex). unfold click. rewrite Hi.
  destruct (update_settled (modify_at toggle p (root v)) n (drawn v))
    as (v' & Hu & Hs & Hst & Hpre); try done.
  - intros q z. rewrite id_at_toggle. apply Hok.
  - intros q1 q2 z. rewrite !id_at_toggle. apply Hinj.
  - rewrite Hdr, datum_draw_at. apply descendants_sorted.
  - intros q. rewrite Hdr, datum_draw_at, id_at_toggle. apply Hids.
  - rewrite (state_of_modify_at toggle state_toggle); [|apply state_of_toggle].
    by apply exclusive_toggle.
  - exists v'. split; [done|]. split; [done|]. split.
    + rewrite Hst. apply state_of_modify_at, state_of_toggle.
    + intros q z Hq. apply Hpre. by rewrite id_at_toggle.
Qed.

(** A second [update] of a settled view writes nothing. *)
Lemma update_idempotent (v : view coord) : settled tidy v -> update tidy v = Ok v.
Proof.
  intros (n & Hi & Hn & Hok & Hinj & Hdr & Hids & Hlay & Hsave & Hex).
  destruct v as [t c els]. simpl in *. subst c.
  destruct (update_spec tidy t n els Hn Hok Hinj) as
      (dkeys & t3 & n' & Hk & Hu & _).
  - rewrite Hdr, datum_draw_at. apply descendants_sorted.
  - intros p. rewrite Hdr, datum_draw_at. apply Hids.
  - rewrite Hlay in Hk.
    destruct (keys_known (descendants t) t (Some n)) as (ks & Hks & _).
    { intros p Hp. destruct (Hids p Hp) as [z Hz]. exists z. split; [done|].
      apply Hok in Hz. lia. }
    rewrite Hks in Hk. simplify_eq. by rewrite Hu, Hsave.
Qed.

Lemma reachable_settled (dt : hierarchy) (i0 : Z) (v : view coord) :
  (0 <= i0)%Z -> reachable tidy dt i0 v -> settled tidy v.
Proof.
  intros Hi. induction 1 as [v Hr|v v' p _ IH _ Hc].
  - destruct (render_settled dt i0 Hi) as (v0 & Hr0 & Hs & _). congruence.
  - destruct (click_settled v p IH) as (v0 & Hc0 & Hs & _). congruence.
Qed.

Lemma later_settled (v v' : view coord) :
  settled tidy v -> later tidy v v' ->
  settled tidy v' /\ forall q z, id_at q (root v) = Some z -> id_at q (root v') = Some z.
Proof.
  intros Hs. induction 1 as [v|v v1 v2 p _ IH _ Hc]; [done|].
  destruct (IH Hs) as [Hs1 Hid1].
  destruct (click_settled v1 p Hs1) as (v0 & Hc0 & Hs2 & _ & Hid2).
  assert (v0 = v2) by congruence. subst v0. split; [done|]. eauto.
Qed.
End Views.

Section Initial.
Import Renderer.
Import Normalizer(hierarchy, HNode, HOther).

Context {coord : Type}.
Variable tidy : shape -> path -> point coord.

Local Arguments modify_at : simpl never.
Local Arguments state_modify_at : simpl never.

Lemma key_total (p : path) (t : rnode coord) (n : Z) :
  exists k t' n', key p (t, Some n) = Ok (k, (t', Some n')).
Proof.
  unfold key. simpl. destruct (id_at p t) as [z|]; [destruct (z =? 0)%Z|]; eauto.
Qed.

Lemma keys_total (ps : list path) :
  forall (t : rnode coord) (n : Z),
    exists ks t' n', keys ps (t, Some n) = Ok (ks, (t', Some n'))
                     /\ length ks = length ps.
Proof.
  induction ps as [|p ps IH]; intros t n; simpl; [by exists [], t, n|].
  destruct (key_total p t n) as (k & t1 & n1 & ->). simpl.
  destruct (IH t1 n1) as (ks & t2 & n2 & -> & Hlen). simpl.
  exists (k :: ks), t2, n2. simpl. by rewrite Hlen.
Qed.

Lemma bind_key_nil (dkeys used : list Z) :
  bind_key [] dkeys used = (fun _ => None) <$> dkeys.
Proof.
  revert used. induction dkeys as [|k dkeys IH]; intros used; simpl; [done|].
  case_bool_decide; csimpl; by rewrite IH.
Qed.

(** The first [update], whatever number the counter starts from: every
    visible node enters. *)
Lemma update_first (t : rnode coord) (n : Z) :
  exists v, update tidy {| root := t; i := Some n; drawn := [] |} = Ok v
            /\ datum <$> drawn v = descendants t
            /\ state_of (root v) = state_of t.
Proof.
  destruct (keys_total (descendants t) (treeLayout tidy t) n)
    as (dkeys & t3 & n' & Hk & Hlen).
  assert (Hu : exists v, update tidy {| root := t; i := Some n; drawn := [] |} = Ok v
                         /\ datum <$> drawn v = descendants t).
  { unfold update. simpl. rewrite Hk. simpl. rewrite bind_key_nil.
    set (js := (fun _ : Z => @None nat) <$> dkeys).
    assert (Hjs : length js = length (descendants t)) by (unfold js; by rewrite length_fmap).
    assert (Ho : omap (fun o : option nat => o) js = []).
    { unfold js. clear. induction dkeys as [|k dkeys IH]; [done|]. exact IH. }
    destruct (runs (zip (descendants t) js) []) as [rs last] eqn:Hruns.
    eexists. split; [reflexivity|]. simpl.
    rewrite <- list_fmap_compose.
    change (datum ∘ transform t3) with (datum (coord := coord)).
    rewrite (joined_group_in_data_order [] (zip (descendants t) js) rs last Hruns).
    - apply fst_zip. lia.
    - rewrite omap_snd_zip, Ho by done. constructor.
    - intros j. rewrite omap_snd_zip, Ho by done. by intros ?%elem_of_nil. }
  destruct Hu as (v & Hu & Hd). exists v. split; [done|]. split; [done|].
  by apply (state_of_update tidy _ v) in Hu.
Qed.

Lemma shape_of_collapsed (h : hierarchy) : shape_of (collapsed_state h) = Shape [].
Proof. by destruct h as [n [|x l]|v]. Qed.

Lemma shape_of_initial (dt : hierarchy) :
  shape_of (initial_state dt) = Shape ((fun _ => Shape []) <$> data_children dt).
Proof.
  destruct dt as [n [|x l]|v]; try done. simpl. f_equal.
  rewrite shape_of_collapsed. f_equal.
  rewrite map_map. apply map_ext. intros h. apply shape_of_collapsed.
Qed.

Lemma levels_go_leaves {A} (l : list A) (i : nat) :
  concat (levels_go i ((fun _ => Shape []) <$> l)) = (fun j => [j]) <$> seq i (length l).
Proof.
  assert (H : levels_go i ((fun _ => Shape []) <$> l)
              = match l with
                | [] => []
                | _ => [(fun j => [j]) <$> seq i (length l)]
                end).
  { revert i. induction l as [|x l IH]; intros i; [done|]. csimpl.
    rewrite IH. by destruct l. }
  rewrite H. destruct l; [done|]. simpl. by rewrite app_nil_r.
Qed.

(** Of a tree in its initial state the root and its children are visible,
    and nothing else. *)
Lemma descendants_initial (t : rnode coord) (dt : hierarchy) :
  state_of t = initial_state dt ->
  descendants t = [] :: ((fun j => [j]) <$> seq 0 (length (data_children dt))).
Proof.
  intros H. unfold descendants. rewrite visible_shape_state, H, shape_of_initial.
  rewrite levels_unfold. simpl. f_equal. apply levels_go_leaves.
Qed.

Lemma levels_go_intro (l : list shape) :
  forall i j k p, l !! j = Some k -> p ∈ concat (levels k) ->
                  (i + j) :: p ∈ concat (levels_go i l).
Proof.
  induction l as [|k' l IH]; intros i [|j] k p Hj Hp; simpl in *; try done.
  - simplify_eq. apply concat_zip_levels. left. rewrite Nat.add_0_r.
    apply list_elem_of_In, in_concat. apply list_elem_of_In, in_concat in Hp as (L & HL & Hp).
    exists (cons i <$> L). split.
    + apply in_map_iff. eauto.
    + apply list_elem_of_In, list_elem_of_fmap. exists p. split; [done|]. by apply list_elem_of_In.
  - apply concat_zip_levels. right. replace (i + S j) with (S i + j) by lia. by apply (IH _ _ k).
Qed.

Lemma shape_levels_visible (p : path) :
  forall s : state, p ∈ concat (levels (shape_of s)) <-> visible_path p s.
Proof.
  induction p as [|j p IH]; intros [dt [l|] h]; simpl.
  - split; [done|]. intros _. by left.
  - split; [done|]. intros _. by left.
  - fold (levels_go 0 (List.map shape_of l)). split.
    + intros H. apply elem_of_cons in H as [H|H]; [done|].
      apply (levels_go_elem _ 0) in H as (j' & k & p' & Hj & Hp & Hp').
      simpl in Hp. simplify_eq. rewrite map_fmap, list_lookup_fmap in Hj.
      destruct (l !! j') as [c|] eqn:Hc; simpl in Hj; [|done]. simplify_eq.
      exists c. split; [done|]. by apply IH.
    + intros (k & Hk & Hv). right.
      apply (levels_go_intro _ 0 j (shape_of k)); [|by apply IH].
      by rewrite map_fmap, list_lookup_fmap, Hk.
  - split; [|done]. intros H. apply elem_of_cons in H as [H|H]; [done|by apply elem_of_nil in H].
Qed.

Lemma descendants_visible (p : path) (t : rnode coord) :
  p ∈ descendants t <-> visible_path p (state_of t).
Proof. unfold descendants. rewrite visible_shape_state. apply shape_levels_visible. Qed.

(** A click on a visible node leaves it visible. *)
Lemma visible_path_toggle (p : path) :
  forall s, visible_path p s -> visible_path p (state_modify_at state_toggle p s).
Proof.
  induction p as [|j p IH]; intros s; [done|].
  destruct s as [dt [l|] h]; [|done]. intros (k & Hk & Hv).
  unfold state_modify_at; fold (state_modify_at state_toggle p). simpl.
  exists (state_modify_at state_toggle p k). split; [|by apply IH].
  by rewrite list_lookup_alter_eq, Hk.
Qed.
End Initial.

(** ** The claims about the collapsible tree *)

Section RendererClaims.
Import Renderer.
Import Normalizer(hierarchy, HNode, HOther).

Context {coord : Type}.
Variable tidy : shape -> path -> point coord.

(** C3: once a hierarchy is rendered, with the counter bound to any number,
    the tree is in its initial state (the root shows its children, every
    node below it is collapsed); the visible nodes are the root and its
    immediate children, listed once each, and they are the nodes drawn; no
    path of two or more steps (a grandchild or below) is visible, and no
    node below the root shows children. *)
Theorem C3_initial_render (dt : hierarchy) (i0 : Z) :
  exists v,
    render tidy dt (Some i0) = Ok v
    /\ state_of (root v) = initial_state dt
    /\ descendants (root v)
       = [] :: ((fun j => [j]) <$> seq 0 (length (data_children dt)))
    /\ datum <$> drawn v = descendants (root v)
    /\ (forall q, 2 <= length q -> q ∉ descendants (root v))
    /\ (forall q f, q <> [] -> flags_at q (state_of (root v)) = Some f -> f.1 = false).
Proof.
  destruct (update_first tidy (collapse_children (treeLayout tidy (hierarchy_of dt))) i0)
    as (v & Hu & Hd & Hst).
  rewrite state_of_initial in Hst.
  pose proof (descendants_initial (root v) dt Hst) as Hdesc.
  exists v. split; [exact Hu|]. split; [done|]. split; [done|]. split.
  { rewrite Hd. symmetry. apply descendants_state. by rewrite state_of_initial. }
  split.
  - intros q Hq. rewrite Hdesc. intros [->|Hin]%elem_of_cons; [simpl in Hq; lia|].
    apply list_elem_of_fmap in Hin as (j & -> & _). simpl in Hq. lia.
  - intros q f Hq. rewrite Hst. by apply initial_state_flags.
Qed.

(** C4: in a view the page has reached, a click on a drawn node toggles
    the state of that node as the specification's state machine says
    (visible children go to the hidden slot, hidden children come back) and
    leaves the slots of every other node as they are; the node stays
    drawn, and a second click on it gives every node of the tree its
    visible and hidden children back.  The state of a tree is what its
    slots hold, [null] and [undefined] both counting as nothing. *)
Theorem C4_click_toggles_one_node (dt : hierarchy) (i0 : Z) (v : view coord) (p : path) :
  (0 <= i0)%Z -> reachable tidy dt i0 v -> p ∈ datum <$> drawn v ->
  exists v' v'',
    click tidy p v = Ok v'
    /\ state_of (root v') = state_modify_at state_toggle p (state_of (root v))
    /\ state_at p (state_of (root v')) = state_toggle <$> state_at p (state_of (root v))
    /\ (forall q, q <> p ->
          flags_at q (state_of (root v')) = flags_at q (state_of (root v)))
    /\ p ∈ datum <$> drawn v'
    /\ click tidy p v' = Ok v''
    /\ state_of (root v'') = state_of (root v).
Proof.
  intros Hi Hr Hp. pose proof (reachable_settled tidy dt i0 v Hi Hr) as Hs.
  destruct (click_settled tidy v p Hs) as (v' & Hc & Hs' & Hst & _).
  destruct (click_settled tidy v' p Hs') as (v'' & Hc' & _ & Hst' & _).
  exists v', v''. split; [done|]. split; [done|]. split.
  { rewrite Hst. apply state_at_toggle_self. }
  split.
  { intros q Hq. rewrite Hst. by apply flags_at_toggle_other. }
  destruct Hs as (n & _ & _ & _ & _ & Hdr & _ & _ & _ & Hex).
  destruct Hs' as (n' & _ & _ & _ & _ & Hdr' & _).
  split.
  { rewrite Hdr', datum_draw_at. rewrite Hdr, datum_draw_at in Hp.
    apply descendants_visible. rewrite Hst. apply visible_path_toggle.
    by apply descendants_visible. }
  split; [done|]. rewrite Hst', Hst. apply state_toggle_at_twice, Hex.
Qed.

(** C5: in a view the page has reached, the counter having started at a
    number that is not negative, the drawn elements are bound to the
    visible nodes, one element per node and none twice; every visible node
    has an id that is not zero and no two nodes share an id; whatever is
    clicked afterwards, a node keeps the id it has; and running [update]
    again on the unchanged tree gives the same view: the same ids, the
    same positions, the same elements. *)
Theorem C5_nodes_drawn_once_under_stable_ids (dt : hierarchy) (i0 : Z) (v : view coord) :
  (0 <= i0)%Z -> reachable tidy dt i0 v ->
  datum <$> drawn v = descendants (root v)
  /\ NoDup (datum <$> drawn v)
  /\ (forall p, p ∈ descendants (root v) ->
        exists z, id_at p (root v) = Some z /\ z <> 0%Z)
  /\ (forall p q z, id_at p (root v) = Some z -> id_at q (root v) = Some z -> p = q)
  /\ (forall v', later tidy v v' ->
        forall p z, id_at p (root v) = Some z -> id_at p (root v') = Some z)
  /\ update tidy v = Ok v.
Proof.
  intros Hi Hr. pose proof (reachable_settled tidy dt i0 v Hi Hr) as Hs.
  pose proof Hs as (n & _ & _ & Hok & Hinj & Hdr & Hids & _).
  assert (Hd : datum <$> drawn v = descendants (root v)) by (by rewrite Hdr, datum_draw_at).
  split; [done|]. split.
  { rewrite Hd. apply path_sorted_NoDup, descendants_sorted. }
  split.
  { intros p Hp. destruct (Hids p Hp) as [z Hz]. exists z. split; [done|].
    apply Hok in Hz. lia. }
  split; [exact Hinj|]. split.
  { intros v' Hl. by destruct (later_settled tidy v v' Hs Hl). }
  by apply update_idempotent.
Qed.
End RendererClaims.

Lemma C4_click_toggles_one_node_witness :
  exists v,
    Renderer.render Renderer.example_tidy Renderer.example_tree (Some 0%Z) = Ok v /\
    exists v' v'',
      Renderer.click Renderer.example_tidy [0] v = Ok v'
      /\ Renderer.state_of (Renderer.root v')
         = Renderer.state_modify_at Renderer.state_toggle [0]
             (Renderer.state_of (Renderer.root v))
      /\ Renderer.state_at [0] (Renderer.state_of (Renderer.root v'))
         = Renderer.state_toggle
             <$> Renderer.state_at [0] (Renderer.state_of (Renderer.root v))
      /\ (forall q, q <> [0] ->
            Renderer.flags_at q (Renderer.state_of (Renderer.root v'))
            = Renderer.flags_at q (Renderer.state_of (Renderer.root v)))
      /\ [0] ∈ Renderer.datum <$> Renderer.drawn v'
      /\ Renderer.click Renderer.example_tidy [0] v' = Ok v''
      /\ Renderer.state_of (Renderer.root v'') = Renderer.state_of (Renderer.root v).
Proof.
  eexists. split; [vm_compute; reflexivity|].
  apply (C4_click_toggles_one_node Renderer.example_tidy Renderer.example_tree 0%Z).
  - lia.
  - apply Renderer.reach_render. vm_compute. reflexivity.
  - vm_compute. apply list_elem_of_In. simpl. auto.
Defined.

Lemma C5_nodes_drawn_once_under_stable_ids_witness :
  exists v,
    Renderer.render Renderer.example_tidy Renderer.example_tree (Some 0%Z) = Ok v /\
    (Renderer.datum <$> Renderer.drawn v = Renderer.descendants (Renderer.root v)
     /\ NoDup (Renderer.datum <$> Renderer.drawn v)
     /\ (forall p, p ∈ Renderer.descendants (Renderer.root v) ->
           exists z, Renderer.id_at p (Renderer.root v) = Some z /\ z <> 0%Z)
     /\ (forall p q z, Renderer.id_at p (Renderer.root v) = Some z ->
           Renderer.id_at q (Renderer.root v) = Some z -> p = q)
     /\ (forall v', Renderer.later Renderer.example_tidy v v' ->
           forall p z, Renderer.id_at p (Renderer.root v) = Some z ->
                       Renderer.id_at p (Renderer.root v') = Some z)
     /\ Renderer.update Renderer.example_tidy v = Ok v).
Proof.
  eexists. split; [vm_compute; reflexivity|].
  apply (C5_nodes_drawn_once_under_stable_ids Renderer.example_tidy
           Renderer.example_tree 0%Z).
  - lia.
  - apply Renderer.reach_render. vm_compute. reflexivity.
Defined.

(** ** The paper list *)

Section SortFacts.
Import PaperList.
Context {A : Type} (cmp : A -> A -> Z).

Lemma insert_perm (x : A) (l : list A) : insert cmp x l ≡ₚ x :: l.
Proof.
  induction l as [|y l IH]; simpl; [done|].
  destruct (cmp x y <=? 0)%Z; [done|]. rewrite IH. apply Permutation_swap.
Qed.

Lemma sort_perm (l : list A) : sort cmp l ≡ₚ l.
Proof.
  induction l as [|x l IH]; simpl; [done|]. by rewrite insert_perm, IH.
Qed.

Lemma insert_sorted (x : A) (l : list A) :
  consistent_on cmp (x :: l) ->
  StronglySorted (precedes cmp) l -> StronglySorted (precedes cmp) (insert cmp x l).
Proof.
  intros [Htot Htr] Hs. induction Hs as [|y l Hs IH Hall]; simpl.
  { repeat constructor. }
  destruct (cmp x y <=? 0)%Z eqn:E.
  - apply Z.leb_le in E. constructor; [by constructor|].
    constructor; [done|]. rewrite Forall_forall in *. intros z Hz.
    apply (Htr x y z); [by left|right; by left|right; by right|done|by apply Hall].
  - apply Z.leb_gt in E. constructor.
    + apply IH.
      * intros a b Ha Hb. apply Htot.
        -- apply elem_of_cons in Ha as [->|Ha]; [by left|right; by right].
        -- apply elem_of_cons in Hb as [->|Hb]; [by left|right; by right].
      * intros a b c Ha Hb Hc. apply Htr.
        -- apply elem_of_cons in Ha as [->|Ha]; [by left|right; by right].
        -- apply elem_of_cons in Hb as [->|Hb]; [by left|right; by right].
        -- apply elem_of_cons in Hc as [->|Hc]; [by left|right; by right].
    + rewrite Forall_forall in *. intros z Hz. rewrite insert_perm in Hz.
      apply elem_of_cons in Hz as [->|Hz]; [|by apply Hall].
      destruct (Htot x y) as [H|H]; [by left|right; by left| |done].
      unfold precedes in H. lia.
Qed.

Lemma sort_sorted (l : list A) :
  consistent_on cmp l -> StronglySorted (precedes cmp) (sort cmp l).
Proof.
  induction l as [|x l IH]; intros Hc; simpl; [constructor|].
  apply insert_sorted.
  - destruct Hc as [Htot Htr]. split.
    + intros a b Ha Hb. apply Htot.
      * apply elem_of_cons in Ha as [->|Ha]; [by left|right; by rewrite <- (sort_perm l)].
      * apply elem_of_cons in Hb as [->|Hb]; [by left|right; by rewrite <- (sort_perm l)].
    + intros a b c Ha Hb Hc. apply Htr.
      * apply elem_of_cons in Ha as [->|Ha]; [by left|right; by rewrite <- (sort_perm l)].
      * apply elem_of_cons in Hb as [->|Hb]; [by left|right; by rewrite <- (sort_perm l)].
      * apply elem_of_cons in Hc as [->|Hc]; [by left|right; by rewrite <- (sort_perm l)].
  - apply IH. destruct Hc as [Htot Htr]. split.
    + intros a b Ha Hb. apply Htot; by right.
    + intros a b c Ha Hb Hc. apply Htr; by right.
Qed.
End SortFacts.

Section PaperFacts.
Import JsString PaperList.

Lemma starts_with_spec (t l : list ascii) :
  starts_with t l = true <-> exists post, l = t ++ post.
Proof.
  revert l. induction t as [|c t IH]; intros l; simpl.
  - split; [eauto|done].
  - destruct l as [|d l].
    + split; [done|]. by intros [post H].
    + rewrite andb_true_iff, bool_decide_eq_true, IH. split.
      * intros [-> [post ->]]. eauto.
      * intros [post H]. simplify_eq. eauto.
Qed.

Lemma occurs_in_spec (t l : list ascii) :
  occurs_in t l = true <-> exists pre post, l = pre ++ t ++ post.
Proof.
  induction l as [|d l IH]; simpl.
  - rewrite orb_false_r, starts_with_spec. split.
    + intros [post H]. by exists [], post.
    + intros (pre & post & H). destruct pre; [eauto|done].
  - rewrite orb_true_iff, starts_with_spec, IH. split.
    + intros [[post H]|(pre & post & ->)]; [by exists [], post|by exists (d :: pre), post].
    + intros ([|d' pre] & post & H); [left; eauto|right]. simpl in H. simplify_eq. by exists pre, post.
Qed.

Lemma includes_spec (title term : string) :
  includes (toLowerCase title) (toLowerCase term) = true
  <-> contains_ignoring_case title term.
Proof. unfold includes. apply occurs_in_spec. Qed.

Lemma includes_empty (s : string) : includes s "" = true.
Proof. unfold includes. apply occurs_in_spec. by exists [], (chars s). Qed.

Lemma chars_str (l : list ascii) : chars (str l) = l.
Proof. apply list_ascii_of_string_of_list_ascii. Qed.

Lemma str_chars (s : string) : str (chars s) = s.
Proof. apply string_of_list_ascii_of_string. Qed.

Lemma toLowerCase_empty (s : string) : toLowerCase s = ""%string -> s = ""%string.
Proof.
  unfold toLowerCase. intros H. apply (f_equal chars) in H. rewrite chars_str in H.
  simpl in H. destruct s; [done|]. simpl in H. done.
Qed.
End PaperFacts.

Section ListFacts.
Import JsString PaperList.

Variable localeCompare : string -> string -> Z.

Lemma filter_all {A} (f : A -> bool) (l : list A) :
  (forall x, f x = true) -> List.filter f l = l.
Proof. intros H. induction l as [|x l IH]; simpl; [done|]. by rewrite H, IH. Qed.

Lemma shown_matching (data : listing) (c : controls) :
  shown localeCompare data c
  = if bool_decide (sortSelect c = Some "title"%string)
    then sort (by_title localeCompare) (matching data (search_text c))
    else sort by_date (matching data (search_text c)).
Proof.
  unfold shown, matching, search_text, searchTerm.
  assert (H : (if bool_decide (match searchInput c with
                                | Some v => toLowerCase v
                                | None => ""%string
                                end = ""%string)
               then papers data
               else List.filter
                      (fun p => includes (toLowerCase (title p))
                                  match searchInput c with
                                  | Some v => toLowerCase v
                                  | None => ""%string
                                  end) (papers data))
              = List.filter
                  (fun p => includes (toLowerCase (title p))
                              (toLowerCase (default ""%string (searchInput c))))
                  (papers data)).
  { destruct (searchInput c) as [v|]; simpl.
    - case_bool_decide as Hv; [|done]. rewrite Hv.
      symmetry. apply filter_all. intros p. apply includes_empty.
    - symmetry. apply filter_all. intros p. apply includes_empty. }
  by rewrite H.
Qed.

Lemma by_date_consistent (l : list paper) :
  (forall p, p ∈ l -> is_Some (published p)) -> consistent_on by_date l.
Proof.
  intros Hv. split.
  - intros a b [ta Ha]%Hv [tb Hb]%Hv. unfold precedes, by_date. rewrite Ha, Hb. lia.
  - intros a b c [ta Ha]%Hv [tb Hb]%Hv [tc Hc]%Hv. unfold precedes, by_date.
    rewrite Ha, Hb, Hc. lia.
Qed.

Lemma StronglySorted_on {A} (Q : A -> Prop) (R R' : relation A) (l : list A) :
  (forall a, a ∈ l -> Q a) -> (forall a b, Q a -> Q b -> R a b -> R' a b) ->
  StronglySorted R l -> StronglySorted R' l.
Proof.
  intros HQ Himp Hs. induction Hs as [|a l Hs IH Hall]; constructor.
  - apply IH. intros b Hb. apply HQ. by right.
  - rewrite Forall_forall in *. intros b Hb. apply Himp; [apply HQ; by left|apply HQ; by right|by apply Hall].
Qed.

(** C9: for every page of papers, search text and sort selection, the
    cards put into the grid are those of the papers whose title contains
    the search text whatever the case of the letters, each as often as the
    page has it; with the title sort they are in the order of
    [localeCompare] on the titles, where that is a consistent comparator,
    and otherwise, all dates being valid, in the order of the published
    dates, the newest first. *)
Theorem C9_list_filtered_then_sorted (data : listing) (c : controls) :
  let term := search_text c in
  let list := shown localeCompare data c in
  loadPapers localeCompare true data c = Some (card_of <$> list, pagination data)
  /\ list ≡ₚ matching data term
  /\ (forall p, p ∈ list <-> p ∈ papers data /\ contains_ignoring_case (title p) term)
  /\ (sortSelect c = Some "title"%string ->
      consistent_on (by_title localeCompare) (matching data term) ->
      StronglySorted (fun a b => (localeCompare (title a) (title b) <= 0)%Z) list)
  /\ (sortSelect c <> Some "title"%string ->
      (forall p, p ∈ matching data term -> is_Some (published p)) ->
      StronglySorted newest_first list).
Proof.
  intros term list.
  assert (Hperm : list ≡ₚ matching data term).
  { unfold list. rewrite shown_matching. case_bool_decide; apply sort_perm. }
  split; [done|]. split; [done|]. split; [|split].
  - intros p. rewrite Hperm. unfold matching.
    rewrite list_elem_of_In, filter_In, <- list_elem_of_In, includes_spec. done.
  - intros Ht Hc. unfold list. rewrite shown_matching, bool_decide_eq_true_2 by done.
    by apply (sort_sorted (by_title localeCompare)).
  - intros Ht Hv. unfold list. rewrite shown_matching, bool_decide_eq_false_2 by done.
    apply (StronglySorted_on (fun p => is_Some (published p)) (precedes by_date)).
    + intros p Hp. apply Hv. by rewrite <- (sort_perm by_date).
    + intros a b [ta Ha] [tb Hb] Hab. exists ta, tb. split; [done|]. split; [done|].
      unfold precedes, by_date in Hab. rewrite Ha, Hb in Hab. lia.
    + apply sort_sorted. by apply by_date_consistent.
Qed.
End ListFacts.

Lemma C9_list_filtered_then_sorted_witness :
  let by_name := {| PaperList.searchInput := Some "GRAPH"%string;
                    PaperList.sortSelect := Some "title"%string |} in
  let by_day := {| PaperList.searchInput := Some "GRAPH"%string;
                   PaperList.sortSelect := None |} in
  StronglySorted
    (fun a b => (PaperList.example_collation (PaperList.title a) (PaperList.title b) <= 0)%Z)
    (PaperList.shown PaperList.example_collation PaperList.example_listing by_name)
  /\ StronglySorted PaperList.newest_first
       (PaperList.shown PaperList.example_collation PaperList.example_listing by_day).
Proof.
  intros by_name by_day. split.
  - apply (C9_list_filtered_then_sorted PaperList.example_collation
             PaperList.example_listing by_name); [reflexivity|].
    split.
    + intros a b _ _.
      unfold PaperList.precedes, PaperList.by_title, PaperList.example_collation. lia.
    + intros a b c _ _ _.
      unfold PaperList.precedes, PaperList.by_title, PaperList.example_collation. lia.
  - apply (C9_list_filtered_then_sorted PaperList.example_collation
             PaperList.example_listing by_day); [discriminate|].
    intros p Hp. apply list_elem_of_In in Hp. vm_compute in Hp.
    destruct Hp as [<-|[<-|[]]]; eexists; reflexivity.
Defined.

(** * Further properties *)

(** ** The matcher *)

Section MatcherFacts.
Import JsString.
Variable fl : flags.
Variable inp : list ascii.

Lemma nth_error_lookup {A} (l : list A) (p : nat) : nth_error l p = l !! p.
Proof. revert p. induction l as [|x l IH]; intros [|p]; simpl; auto. Qed.

Lemma run_Seq (r1 r2 : re) pos cap k :
  run fl inp (Seq r1 r2) pos cap k
  = run fl inp r1 pos cap (fun p c => run fl inp r2 p c k).
Proof. reflexivity. Qed.

Lemma run_Bol pos cap k :
  run fl inp Bol pos cap k = if at_bol fl inp pos then k pos cap else None.
Proof. reflexivity. Qed.

Lemma run_Group (r : re) pos cap k :
  run fl inp (Group r) pos cap k
  = run fl inp r pos cap (fun p _ => k p (Some (pos, p))).
Proof. reflexivity. Qed.

(** A literal matches where it stands, and nowhere else. *)
Lemma run_Lits (w : list ascii) :
  forall pos cap k,
    run fl inp (Lits w) pos cap k
    = if word_at fl inp w pos then k (pos + length w) cap else None.
Proof.
  induction w as [|c w IH]; intros pos cap k.
  - simpl. by rewrite Nat.add_0_r.
  - destruct w as [|c' w'].
    + simpl. unfold at_pos. destruct (nth_error inp pos) as [d|]; [|done].
      rewrite andb_true_r. by rewrite Nat.add_1_r.
    + change (Lits (c :: c' :: w')) with (Seq (Lit c) (Lits (c' :: w'))).
      cbn [run]. unfold at_pos. cbn [word_at].
      destruct (nth_error inp pos) as [d|]; [|done].
      destruct (lit_matches fl c d); [|done]. rewrite IH. cbn [andb].
      replace (S pos + length (c' :: w')) with (pos + length (c :: c' :: w'))
        by (simpl; lia).
      done.
Qed.

(** [search_from] finds the first index, from [from] on, at which the
    pattern matches. *)
Lemma search_from_Some (r : re) (n : nat) :
  forall from b e c,
    search_from fl inp r n from = Some (b, e, c) ->
    from <= b <= from + n
    /\ match_at fl inp r b = Some (e, c)
    /\ forall p, from <= p < b -> match_at fl inp r p = None.
Proof.
  induction n as [|n IH]; intros from b e c; simpl.
  - destruct (match_at fl inp r from) as [[e' c']|] eqn:Hm; [|done].
    intros [= <- <- <-]. split; [lia|]. split; [done|]. intros; lia.
  - destruct (match_at fl inp r from) as [[e' c']|] eqn:Hm.
    + intros [= <- <- <-]. split; [lia|]. split; [done|]. intros; lia.
    + intros H. apply IH in H as (Hb & Hmb & Hfirst). split; [lia|]. split; [done|].
      intros p Hp. destruct (decide (p = from)) as [->|]; [done|]. apply Hfirst. lia.
Qed.

Lemma search_from_None (r : re) (n : nat) :
  forall from,
    search_from fl inp r n from = None <->
    forall p, from <= p <= from + n -> match_at fl inp r p = None.
Proof.
  induction n as [|n IH]; intros from; simpl.
  - destruct (match_at fl inp r from) as [[e' c']|] eqn:Hm.
    + split; [done|]. intros H. rewrite H in Hm by lia. done.
    + split; [|done]. intros _ p Hp. by replace p with from by lia.
  - destruct (match_at fl inp r from) as [[e' c']|] eqn:Hm.
    + split; [done|]. intros H. rewrite H in Hm by lia. done.
    + rewrite IH. split; intros H p Hp.
      * destruct (decide (p = from)) as [->|]; [done|]. apply H. lia.
      * apply H. lia.
Qed.

Lemma leading_length (cls : ascii -> bool) (l : list ascii) : leading cls l <= length l.
Proof. induction l as [|c l IH]; simpl; [lia|]. destruct (cls c); lia. Qed.

Lemma leading_take (cls : ascii -> bool) (l : list ascii) :
  Forall (fun c => cls c = true) (take (leading cls l) l).
Proof.
  induction l as [|c l IH]; simpl; [done|].
  destruct (cls c) eqn:Hc; simpl; [|done]. by constructor.
Qed.

Lemma leading_all (cls : ascii -> bool) (l : list ascii) :
  Forall (fun c => cls c = true) l -> leading cls l = length l.
Proof. induction 1 as [|c l Hc _ IH]; simpl; [done|]. by rewrite Hc, IH. Qed.

(** A greedy star over one class of code units, followed by something that
    cannot fail, takes all the code units of the class there are. *)
Lemma run_star_class (r : re) (cls : ascii -> bool) :
  (forall pos cap k,
      run fl inp r pos cap k
      = match inp !! pos with
        | Some c => if cls c then k (S pos) cap else None
        | None => None
        end) ->
  forall pos cap k,
    (forall p c, k p c <> None) ->
    run fl inp (Star true r) pos cap k = k (pos + leading cls (drop pos inp)) cap.
Proof.
  intros Hr pos cap k Hk. cbn [run].
  assert (Hn : leading cls (drop pos inp) <= length inp - pos).
  { rewrite <- length_drop. apply leading_length. }
  revert Hn. generalize (length inp - pos). intros n. revert pos.
  induction n as [|n IH]; intros pos Hn.
  - simpl. replace (leading cls (drop pos inp)) with 0 by lia.
    rewrite Nat.add_0_r. by destruct (k pos cap).
  - cbn [orelse]. rewrite Hr.
    destruct (inp !! pos) as [c|] eqn:Hc.
    + rewrite (drop_S _ _ _ Hc) in Hn |- *. cbn [leading] in Hn |- *.
      destruct (cls c).
      * replace (S pos <=? pos) with false by (symmetry; apply Nat.leb_gt; lia).
        rewrite IH by lia.
        replace (S pos + leading cls (drop (S pos) inp))
          with (pos + S (leading cls (drop (S pos) inp))) by lia.
        destruct (k _ cap) eqn:Hkk; [done|]. by apply Hk in Hkk.
      * rewrite Nat.add_0_r. by destruct (k pos cap).
    + rewrite drop_ge by (apply lookup_ge_None; done). simpl.
      rewrite Nat.add_0_r. by destruct (k pos cap).
Qed.

Lemma word_at_self (w post : list ascii) :
  forall pre, word_at fl (pre ++ w ++ post) w (length pre) = true.
Proof.
  induction w as [|c w IH]; intros pre; [done|].
  cbn [word_at]. rewrite nth_error_lookup, lookup_app_r, Nat.sub_diag by lia.
  simpl. apply andb_true_iff. split.
  - unfold lit_matches. destruct (ignoreCase fl); by apply bool_decide_eq_true.
  - specialize (IH (pre ++ [c])). rewrite length_app, Nat.add_1_r in IH.
    by rewrite <- app_assoc in IH.
Qed.

End MatcherFacts.

(** ** Summary cleaning, for every text *)

Section BoldFacts.
Import JsString.

Lemma no_bold_app (a b : list ascii) :
  no_bold a -> no_bold b -> last a <> Some "*"%char -> no_bold (a ++ b).
Proof.
  intros Ha Hb Hlast p [H1 H2].
  destruct (decide (S p < length a)) as [Hlt|Hge].
  - apply (Ha p). rewrite !lookup_app_l in H1, H2 by lia. done.
  - destruct (decide (p < length a)) as [Hp|Hp].
    + apply Hlast. rewrite last_lookup. rewrite lookup_app_l in H1 by lia.
      by replace (Init.Nat.pred (length a)) with p by lia.
    + apply (Hb (p - length a)). rewrite !lookup_app_r in H1, H2 by lia.
      by replace (S p - length a) with (S (p - length a)) in H2 by lia.
Qed.

Lemma bold_match_at (inp : list ascii) (pos : nat) :
  match_at (reflags re_bold) inp (pattern re_bold) pos
  = if word_at (reflags re_bold) inp ["*"; "*"]%char pos
    then Some (pos + 2, None) else None.
Proof.
  unfold match_at.
  change (pattern re_bold) with (Lits ["*"; "*"]%char).
  by rewrite run_Lits.
Qed.

Lemma bold_word_at (inp : list ascii) (pos : nat) :
  word_at (reflags re_bold) inp ["*"; "*"]%char pos = true
  <-> inp !! pos = Some "*"%char /\ inp !! S pos = Some "*"%char.
Proof.
  unfold word_at. rewrite !nth_error_lookup. unfold lit_matches.
  cbn [reflags re_bold ignoreCase].
  destruct (inp !! pos) as [c|]; [|naive_solver].
  destruct (inp !! S pos) as [d|]; [|rewrite andb_false_r; naive_solver].
  rewrite andb_true_r, andb_true_iff, !bool_decide_eq_true. naive_solver.
Qed.

(** Removing the bold markers from left to right leaves none behind. *)
Lemma remove_bold_no_bold (inp : list ascii) (n : nat) :
  forall c, length inp <= c + n ->
    no_bold (remove_matches (reflags re_bold) inp (pattern re_bold) true n c c).
Proof.
  induction n as [|n IH]; intros c Hlen.
  - cbn [remove_matches].
    destruct (search_from _ _ _ _ _) as [[[b e] cap]|] eqn:Hs.
    + apply search_from_Some in Hs as (Hb & Hm & _).
      rewrite bold_match_at in Hm.
      destruct (word_at _ _ _ _) eqn:Hw; [|done].
      apply bold_word_at in Hw as [Hw _]. apply lookup_lt_Some in Hw. lia.
    + pose proof (proj1 (search_from_None _ _ _ _ _) Hs) as Hs'. clear Hs.
      rename Hs' into Hs. intros p [H1 H2].
      rewrite !lookup_drop in H1, H2.
      assert (Hp : c + p <= c + (length inp - c)).
      { apply lookup_lt_Some in H1. lia. }
      specialize (Hs (c + p) (conj (Nat.le_add_r _ _) Hp)).
      rewrite bold_match_at in Hs.
      destruct (word_at _ _ _ _) eqn:Hw; [done|].
      apply not_true_iff_false in Hw. apply Hw, bold_word_at.
      by rewrite <- Nat.add_succ_r.
  - cbn [remove_matches].
    destruct (search_from _ _ _ _ _) as [[[b e] cap]|] eqn:Hs.
    + apply search_from_Some in Hs as (Hb & Hm & Hfirst).
      rewrite bold_match_at in Hm.
      destruct (word_at _ _ _ _) eqn:Hw; [|done]. injection Hm as <- <-.
      apply bold_word_at in Hw as [Hw1 Hw2].
      replace (b + 2 =? b) with false by (symmetry; apply Nat.eqb_neq; lia).
      assert (Hno : forall p, c <= p < b ->
                ~ (inp !! p = Some "*"%char /\ inp !! S p = Some "*"%char)).
      { intros p Hp Hpair. specialize (Hfirst p Hp). rewrite bold_match_at in Hfirst.
        apply bold_word_at in Hpair. by rewrite Hpair in Hfirst. }
      apply no_bold_app.
      * intros p [H1 H2]. unfold slice in H1, H2.
        apply lookup_take_Some in H1 as [H1 Hp1], H2 as [H2 Hp2].
        rewrite lookup_drop in H1, H2.
        apply (Hno (c + p)); [lia|]. by rewrite <- Nat.add_succ_r.
      * apply IH. apply lookup_lt_Some in Hw2. lia.
      * unfold slice. rewrite last_lookup, length_take, length_drop.
        intros Hl. apply lookup_take_Some in Hl as [Hl Hlt].
        rewrite lookup_drop in Hl.
        apply lookup_lt_Some in Hw2.
        apply (Hno (b - 1)); [lia|]. split.
        -- rewrite <- Hl. f_equal. lia.
        -- rewrite <- Hw1. f_equal. lia.
    + pose proof (proj1 (search_from_None _ _ _ _ _) Hs) as Hs'. clear Hs.
      rename Hs' into Hs. intros p [H1 H2].
      rewrite !lookup_drop in H1, H2.
      assert (Hp : c + p <= c + (length inp - c)).
      { apply lookup_lt_Some in H1. lia. }
      specialize (Hs (c + p) (conj (Nat.le_add_r _ _) Hp)).
      rewrite bold_match_at in Hs.
      destruct (word_at _ _ _ _) eqn:Hw; [done|].
      apply not_true_iff_false in Hw. apply Hw, bold_word_at.
      by rewrite <- Nat.add_succ_r.
Qed.

Lemma no_bold_includes (l : list ascii) :
  no_bold l -> occurs_in ["*"; "*"]%char l = false.
Proof.
  intros Hl. apply not_true_iff_false. intros (pre & post & ->)%occurs_in_spec.
  apply (Hl (length pre)). split.
  - by rewrite lookup_app_r, Nat.sub_diag by lia.
  - rewrite lookup_app_r by lia. by replace (S (length pre) - length pre) with 1 by lia.
Qed.

(** X1: [cleanSummary] leaves no bold marker: its result contains no two
    asterisks side by side, whatever the text. *)
Theorem cleanSummary_no_bold_marker (text : option string) :
  includes (cleanSummary text) "**" = false.
Proof.
  unfold cleanSummary. destruct text as [s|]; [|done].
  case_bool_decide; [done|].
  unfold includes, js_remove at 1. rewrite chars_str.
  apply no_bold_includes, remove_bold_no_bold. lia.
Qed.

End BoldFacts.

Section CaseFacts.
Import JsString.

Lemma code_units_all (a : ascii) : In a code_units.
Proof.
  unfold code_units. apply in_map_iff. exists (nat_of_ascii a).
  split; [apply ascii_nat_embedding|]. apply in_seq.
  pose proof (nat_ascii_bounded a). lia.
Qed.

Lemma fold_agrees_all :
  forallb (fun a => forallb (fold_agrees a) code_units) code_units = true.
Proof. vm_compute. reflexivity. Qed.

(** What the [i] flag identifies, [toLowerCase] identifies. *)
Lemma canonicalize_lower (a b : ascii) :
  canonicalize a = canonicalize b -> lower a = lower b.
Proof.
  intros Hc. pose proof fold_agrees_all as H.
  rewrite forallb_forall in H. specialize (H a (code_units_all a)).
  rewrite forallb_forall in H. specialize (H b (code_units_all b)).
  unfold fold_agrees in H. rewrite bool_decide_eq_true_2 in H by done.
  simpl in H. by apply bool_decide_eq_true in H.
Qed.

Lemma word_at_lower (fl : flags) (inp w : list ascii) :
  ignoreCase fl = true ->
  forall pos, word_at fl inp w pos = true ->
    take (length w) (drop pos (lower <$> inp)) = lower <$> w.
Proof.
  intros Hfl. induction w as [|c w IH]; intros pos; [done|].
  cbn [word_at]. rewrite nth_error_lookup.
  destruct (inp !! pos) as [d|] eqn:Hd; [|done].
  intros [Hm Hw]%andb_true_iff.
  unfold lit_matches in Hm. rewrite Hfl in Hm. apply bool_decide_eq_true in Hm.
  assert (Hl : (lower <$> inp) !! pos = Some (lower d)) by by rewrite list_lookup_fmap, Hd.
  rewrite (drop_S _ _ _ Hl). csimpl. f_equal.
  - symmetry. by apply canonicalize_lower.
  - by apply IH.
Qed.

Lemma word_at_occurs (fl : flags) (inp w : list ascii) (pos : nat) :
  ignoreCase fl = true -> word_at fl inp w pos = true ->
  occurs_in (lower <$> w) (lower <$> inp) = true.
Proof.
  intros Hfl Hw. apply occurs_in_spec.
  exists (take pos (lower <$> inp)), (drop (length w) (drop pos (lower <$> inp))).
  rewrite <- (word_at_lower fl inp w Hfl pos Hw).
  by rewrite !take_drop.
Qed.

Lemma occurs_in_drop (w l : list ascii) (e : nat) :
  occurs_in w (drop e l) = true -> occurs_in w l = true.
Proof.
  rewrite !occurs_in_spec. intros (pre & post & Heq).
  exists (take e l ++ pre), post. by rewrite <- app_assoc, <- Heq, take_drop.
Qed.

(** The preamble is matched at the start of the text only, so what is left
    is an end of the text. *)
Lemma remove_preamble_suffix (s : string) :
  exists e, chars (js_remove s re_preamble) = drop e (chars s).
Proof.
  unfold js_remove. rewrite chars_str. set (inp := chars s).
  destruct (length inp) as [|n] eqn:Hn.
  - exists 0. destruct inp; [|done]. vm_compute. reflexivity.
  - cbn [remove_matches global re_preamble].
    destruct (search_from _ _ _ _ _) as [[[b e] cap]|] eqn:Hs.
    + apply search_from_Some in Hs as (_ & Hm & _).
      assert (b = 0) as ->.
      { destruct b as [|b]; [done|]. unfold match_at in Hm. simpl in Hm. done. }
      exists e. unfold slice. by rewrite Nat.sub_diag, take_0.
    + by exists 0.
Qed.

End CaseFacts.

Section LabelFacts.
Import JsString.

Lemma includes_lower (text t : string) :
  includes (toLowerCase text) t = occurs_in (chars t) (lower <$> chars text).
Proof. unfold includes, toLowerCase. by rewrite chars_str, map_fmap. Qed.

(** A match of a pattern that starts with a label shows the label in the
    text, whatever the case of its letters. *)
Lemma label_match (rx : regexp) (label : string) (rest : re) (text : string)
      (m : string * option string) :
  pattern rx = Seq (Word label) rest -> ignoreCase (reflags rx) = true ->
  js_match text rx = Some m ->
  occurs_in (lower <$> chars label) (lower <$> chars text) = true.
Proof.
  intros Hp Hfl. unfold js_match, exec.
  destruct (search_from _ _ _ _ _) as [[[b e] c]|] eqn:Hs; [|done]. intros _.
  apply search_from_Some in Hs as (_ & Hm & _).
  unfold match_at in Hm. rewrite Hp in Hm. cbn [run] in Hm.
  unfold Word in Hm. rewrite run_Lits in Hm.
  destruct (word_at _ _ _ _) eqn:Hw; [|done].
  by eapply word_at_occurs.
Qed.

Lemma short_label_needed (text : string) (m : string * option string) :
  js_match text re_short = Some m ->
  includes (toLowerCase text) "short summary" = true.
Proof.
  intros Hm. rewrite includes_lower.
  by apply (label_match re_short "Short Summary" _ text m eq_refl eq_refl).
Qed.

Lemma long_label_needed (text : string) (m : string * option string) :
  js_match text re_long = Some m ->
  includes (toLowerCase text) "long summary" = true.
Proof.
  intros Hm. rewrite includes_lower.
  by apply (label_match re_long "Long Summary" _ text m eq_refl eq_refl).
Qed.

Lemma includes_after_preamble (s t : string) :
  includes (toLowerCase (js_remove s re_preamble)) t = true ->
  includes (toLowerCase s) t = true.
Proof.
  rewrite !includes_lower. destruct (remove_preamble_suffix s) as [e ->].
  rewrite fmap_drop. apply occurs_in_drop.
Qed.

Lemma short_unmatched (s : string) :
  includes (toLowerCase s) "short summary" = false ->
  js_match (js_remove s re_preamble) re_short = None.
Proof.
  intros Hs. destruct (js_match _ re_short) as [m|] eqn:Hm; [|done].
  apply short_label_needed, includes_after_preamble in Hm. congruence.
Qed.

Lemma long_unmatched (s : string) :
  includes (toLowerCase s) "long summary" = false ->
  js_match (js_remove s re_preamble) re_long = None.
Proof.
  intros Hs. destruct (js_match _ re_long) as [m|] eqn:Hm; [|done].
  apply long_label_needed, includes_after_preamble in Hm. congruence.
Qed.

(** Without a match for the section asked for, the result is the text,
    without the preamble and trimmed. *)
Lemma formatSummaries_unmatched (s ty : string) :
  s <> ""%string ->
  (ty = "short"%string -> js_match (js_remove s re_preamble) re_short = None) ->
  (ty = "long"%string -> js_match (js_remove s re_preamble) re_long = None) ->
  formatSummaries (Some s) ty = trim (js_remove s re_preamble).
Proof.
  intros Hs Hshort Hlong. unfold formatSummaries.
  rewrite bool_decide_eq_false_2 by done. cbv zeta.
  case_bool_decide as Hty.
  - rewrite (Hshort Hty). rewrite bool_decide_eq_false_2; [done|]. by rewrite Hty.
  - case_bool_decide as Hty'; [|done]. by rewrite (Hlong Hty').
Qed.

(** X2: where the text does not hold the label of the section asked for,
    in any case of its letters, [formatSummaries] falls back to the text,
    without the preamble and trimmed. *)
Theorem formatSummaries_without_label (s ty : string) :
  s <> ""%string ->
  (ty = "short"%string -> includes (toLowerCase s) "short summary" = false) ->
  (ty = "long"%string -> includes (toLowerCase s) "long summary" = false) ->
  formatSummaries (Some s) ty = trim (js_remove s re_preamble).
Proof.
  intros Hs Hshort Hlong. apply formatSummaries_unmatched; [done| |].
  - intros Hty. apply short_unmatched. by apply Hshort.
  - intros Hty. apply long_unmatched. by apply Hlong.
Qed.

End LabelFacts.

Lemma formatSummaries_without_label_witness :
  JsString.formatSummaries (Some "A study of graphs. "%string) "short"
  = JsString.trim (JsString.js_remove "A study of graphs. " JsString.re_preamble).
Proof.
  apply (formatSummaries_without_label "A study of graphs. " "short").
  - discriminate.
  - intros _. vm_compute. reflexivity.
  - discriminate.
Defined.

Section BlankFacts.
Import JsString PaperList.

Lemma space_lower_all :
  forallb (fun c => implb (is_space c) (bool_decide (lower c = c))) code_units = true.
Proof. vm_compute. reflexivity. Qed.

Lemma space_lower (c : ascii) : is_space c = true -> lower c = c.
Proof.
  intros Hc. pose proof space_lower_all as H. rewrite forallb_forall in H.
  specialize (H c (code_units_all c)). rewrite Hc in H. by apply bool_decide_eq_true in H.
Qed.

Lemma blank_no_word (l w : list ascii) (c : ascii) :
  Forall (fun c => is_space c = true) l -> is_space c = false ->
  occurs_in (c :: w) (lower <$> l) = false.
Proof.
  intros Hl Hc. apply not_true_iff_false. intros (pre & post & Heq)%occurs_in_spec.
  assert (Hin : c ∈ lower <$> l) by (rewrite Heq; set_solver).
  apply list_elem_of_fmap in Hin as (d & -> & Hd).
  rewrite Forall_forall in Hl. specialize (Hl d Hd).
  rewrite (space_lower d Hl) in Hc. congruence.
Qed.

Lemma trim_start_blank (l : list ascii) :
  Forall (fun c => is_space c = true) l -> trim_start l = [].
Proof. induction 1 as [|c l Hc _ IH]; simpl; [done|]. by rewrite Hc. Qed.

Lemma formatSummaries_blank (text : option string) (ty : string) :
  blank text -> formatSummaries text ty = ""%string.
Proof.
  destruct text as [s|]; [|done]. intros Hb. unfold blank in Hb.
  destruct (decide (s = ""%string)) as [->|Hs]; [done|].
  rewrite formatSummaries_unmatched; try done.
  - unfold trim. destruct (remove_preamble_suffix s) as [e ->].
    by rewrite (trim_start_blank (drop e (chars s))) by by apply Forall_drop.
  - intros _. apply short_unmatched. rewrite includes_lower. by apply blank_no_word.
  - intros _. apply long_unmatched. rewrite includes_lower. by apply blank_no_word.
Qed.

(** X3: a paper whose short summary is missing, empty or white space
    alone gets the card text "No summary available.". *)
Theorem card_without_summary (p : paper) :
  blank (summary_short p) -> summary (card_of p) = "No summary available."%string.
Proof.
  intros Hb. unfold card_of. simpl. by rewrite (formatSummaries_blank _ _ Hb).
Qed.

End BlankFacts.

Lemma card_without_summary_witness :
  PaperList.summary
    (PaperList.card_of
       {| PaperList.id := 4; PaperList.title := "Untold"; PaperList.authors := None;
          PaperList.summary_short := Some "  "%string; PaperList.published := None |})
  = "No summary available."%string.
Proof.
  apply (card_without_summary
           {| PaperList.id := 4; PaperList.title := "Untold"; PaperList.authors := None;
              PaperList.summary_short := Some "  "%string; PaperList.published := None |}).
  simpl. repeat constructor.
Defined.

Section PreambleFacts.
Import JsString.

Lemma trim_start_drop (l : list ascii) : trim_start l = drop (leading is_space l) l.
Proof. induction l as [|c l IH]; simpl; [done|]. by destruct (is_space c). Qed.

Lemma trim_start_twice (l : list ascii) : trim_start (trim_start l) = trim_start l.
Proof.
  induction l as [|c l IH]; simpl; [done|].
  destruct (is_space c) eqn:Hc; [done|]. simpl. by rewrite Hc.
Qed.

(** Greedy [\s*] before the end of the pattern takes all the white space
    there is. *)
Lemma run_spaces (fl : flags) (inp : list ascii) (pos : nat) (cap : capture) :
  run fl inp (Star true Space) pos cap (fun p c => Some (p, c))
  = Some (pos + leading is_space (drop pos inp), cap).
Proof.
  apply (run_star_class fl inp Space is_space); [|done].
  intros pos' cap' k. cbn [run]. unfold at_pos. by rewrite nth_error_lookup.
Qed.

Lemma chars_append (s t : string) : chars (s +:+ t) = chars s ++ chars t.
Proof. induction s as [|c s IH]; simpl; [done|]. unfold chars in *. simpl. by rewrite IH. Qed.

(** The preamble goes, and the white space after it. *)
Lemma remove_preamble (rest : string) :
  js_remove (preamble +:+ rest) re_preamble = str (trim_start (chars rest)).
Proof.
  unfold js_remove. rewrite chars_append. set (P := chars preamble).
  set (inp := P ++ chars rest).
  assert (Hm : match_at (reflags re_preamble) inp (pattern re_preamble) 0
               = Some (length P + leading is_space (chars rest), None)).
  { unfold match_at. cbn [pattern re_preamble].
    change (Word "Here are the summaries based on the provided abstract:") with (Lits P).
    rewrite run_Seq, run_Bol. cbn [at_bol]. rewrite run_Seq, run_Lits.
    rewrite (word_at_self _ P (chars rest) []). cbv beta.
    rewrite run_spaces. unfold inp. cbn [Nat.add]. by rewrite drop_app_length. }
  cbn [global re_preamble].
  assert (Hs : forall n, search_from (reflags re_preamble) inp (pattern re_preamble) n 0
               = Some (0, length P + leading is_space (chars rest), None)).
  { intros n. destruct n; cbn [search_from]; by rewrite Hm. }
  destruct (length inp) eqn:Hlen; [done|].
  cbn [remove_matches]. rewrite Hs.
  unfold slice. rewrite Nat.sub_diag, take_0, app_nil_l. f_equal.
  unfold inp. rewrite <- drop_drop, drop_app_length. symmetry. apply trim_start_drop.
Qed.

(** X4: a text that starts with the preamble, asked for a section that is
    neither "short" nor "long": the result is the rest of the text,
    trimmed; the preamble is gone, and the white space after it. *)
Theorem formatSummaries_strips_preamble (rest ty : string) :
  ty <> "short"%string -> ty <> "long"%string ->
  formatSummaries (Some (preamble +:+ rest)) ty = trim rest.
Proof.
  intros Hs Hl. unfold formatSummaries.
  rewrite bool_decide_eq_false_2 by done. cbv zeta.
  rewrite !bool_decide_eq_false_2 by done.
  rewrite remove_preamble. unfold trim. by rewrite chars_str, trim_start_twice.
Qed.

End PreambleFacts.

Lemma formatSummaries_strips_preamble_witness :
  JsString.formatSummaries
    (Some (JsString.preamble +:+ "  Graphs are everywhere. ")) "full"
  = JsString.trim "  Graphs are everywhere. ".
Proof.
  apply (formatSummaries_strips_preamble "  Graphs are everywhere. " "full");
    discriminate.
Defined.

(** ** The graph normalizer, for every graph *)

Section NormalizerExtras.
Import Normalizer.

(** The loop over the edges changes no name. *)
Lemma link_edge_name (m m' : gmap string tnode) (e : edge) (k : string) :
  link_edge m e = Ok m' -> name <$> m' !! k = name <$> m !! k.
Proof.
  unfold link_edge. destruct (truthy _ && truthy _); [|by intros [= <-]].
  destruct (get m (from e)); try done. intros [= <-].
  destruct (decide (k0 = k)) as [->|Hne].
  - rewrite lookup_alter_eq. by destruct (m !! k).
  - by rewrite lookup_alter_ne.
Qed.

Lemma link_edges_name (es : list edge) (m m' : gmap string tnode) (k : string) :
  link_edges m es = Ok m' -> name <$> m' !! k = name <$> m !! k.
Proof.
  revert m. induction es as [|e es IH]; intros m; simpl; [by intros [= <-]|].
  destruct (link_edge m e) as [m1|] eqn:He; simpl; [|done].
  intros H. rewrite (IH _ H). by eapply link_edge_name.
Qed.

(** X5: whenever [convertToHierarchy] returns, it returns the tree node of
    the node the rule for the root names, and that tree node is in the
    store; and it throws nothing but a TypeError. *)
Theorem convertToHierarchy_returns_chosen_root (g : graph) :
  (forall m v, convertToHierarchy g = Ok (m, v) ->
     exists r, chosen_root g r /\ v = VNode (id r) /\ is_Some (m !! id r))
  /\ (forall e, convertToHierarchy g = Throw e -> e = TypeError).
Proof.
  split.
  - intros m v. unfold convertToHierarchy.
    destruct (link_edges _ _) as [m1|] eqn:Hl; simpl; [|done].
    destruct (select_root _ _) as [r|] eqn:Hr; [|done]. intros [= <- <-].
    exists r. split; [by apply select_root_spec|].
    assert (Hd : declared g (id r)).
    { apply list_elem_of_fmap. exists r. split; [done|]. by eapply select_root_elem. }
    rewrite (link_edges_get _ _ _ Hl), (get_declared _ _ Hd). split; [done|].
    pose proof (link_edges_name _ _ _ (id r) Hl) as Hn.
    apply build_nodes_declared in Hd as [t Ht]. rewrite Ht in Hn.
    destruct (m1 !! id r); [by eexists|done].
  - intros e. unfold convertToHierarchy.
    destruct (link_edges _ _) as [m1|e1] eqn:Hl; simpl.
    + destruct (select_root _ _); [done|]. by intros [= <-].
    + intros [= <-]. clear -Hl. revert Hl. generalize (build_nodes (nodes g)).
      induction (edges g) as [|x es IH]; intros m; simpl; [done|].
      destruct (link_edge m x) as [m1|e2] eqn:He; simpl; [by apply IH|].
      intros [= <-]. unfold link_edge in He.
      destruct (truthy _ && truthy _); [|done].
      by destruct (get m (from x)); simplify_eq.
Qed.

(** X6: whenever the call returns, an id that is declared more than once
    has one tree node, and it carries the label of the last node declared
    with that id. *)
Theorem convertToHierarchy_last_label (g : graph) (m : gmap string tnode) (v : value)
        (k : string) :
  convertToHierarchy g = Ok (m, v) ->
  name <$> m !! k
  = label <$> last (List.filter (fun n => bool_decide (id n = k)) (nodes g)).
Proof.
  unfold convertToHierarchy.
  destruct (link_edges _ _) as [m1|] eqn:Hl; simpl; [|done].
  destruct (select_root _ _); [|done]. intros [= <- _].
  rewrite (link_edges_name _ _ _ _ Hl), build_nodes_lookup.
  by destruct (last _).
Qed.

Lemma link_edges_children (g : graph) (es : list edge) :
  forall m m' : gmap string tnode,
  (forall k, get m k = get (build_nodes (nodes g)) k) ->
  (forall e, e ∈ es ->
     (declared g (from e) \/ ~ inherited g (from e)) /\
     (declared g (to e) \/ ~ inherited g (to e))) ->
  link_edges m es = Ok m' ->
  forall k, children <$> m' !! k
            = (fun t => children t ++ edge_children g k es) <$> m !! k.
Proof.
  induction es as [|e es IH]; intros m m' Hget Hplain; simpl.
  - intros [= <-] k. unfold edge_children. simpl.
    destruct (m !! k); simpl; [|done]. by rewrite app_nil_r.
  - destruct (link_edge m e) as [m1|] eqn:He; simpl; [|done].
    intros Hl k.
    assert (Hget1 : forall k, get m1 k = get (build_nodes (nodes g)) k).
    { intros k'. rewrite <- Hget. by eapply link_edge_get. }
    rewrite (IH m1 m' Hget1 (fun e' He' => Hplain e' (list_elem_of_further _ _ _ He')) Hl k).
    destruct (Hplain e (list_elem_of_here _ _)) as [Hf Ht].
    unfold link_edge in He. rewrite !Hget in He.
    unfold edge_children. simpl.
    destruct (decide (declared g (from e))) as [Hdf|Hnf];
      [destruct (decide (declared g (to e))) as [Hdt|Hnt]|].
    + rewrite (get_declared _ _ Hdf), (get_declared _ _ Hdt) in He. simpl in He.
      injection He as <-.
      assert (Hwf : well_formed g e = true) by (apply well_formed_true; done).
      rewrite Hwf, andb_true_r.
      destruct (decide (from e = k)) as [->|Hne].
      * rewrite lookup_alter_eq, bool_decide_eq_true_2 by done.
        destruct (m !! k); simpl; [|done].
        by rewrite <- app_assoc.
      * rewrite lookup_alter_ne, bool_decide_eq_false_2 by done. done.
    + destruct Ht as [?|Hni]; [done|].
      rewrite (get_unknown _ _ Hnt Hni) in He. rewrite andb_false_r in He.
      injection He as <-.
      assert (Hwf : well_formed g e = false).
      { apply not_true_is_false. rewrite well_formed_true. tauto. }
      by rewrite Hwf, andb_false_r.
    + destruct Hf as [?|Hni]; [done|].
      rewrite (get_unknown _ _ Hnf Hni) in He. simpl in He.
      injection He as <-.
      assert (Hwf : well_formed g e = false).
      { apply not_true_is_false. rewrite well_formed_true. tauto. }
      by rewrite Hwf, andb_false_r.
Qed.

(** X7: in a graph with plain edges, the children of every tree node are
    the targets of the well-formed edges that leave it, in the order of
    the edges and once for every edge. *)
Theorem convertToHierarchy_children (g : graph) :
  plain_edges g -> nodes g <> [] ->
  exists m r,
    convertToHierarchy g = Ok (m, VNode (id r))
    /\ forall k, declared g k ->
         children <$> m !! k = Some (edge_children g k (edges g)).
Proof.
  intros Hplain Hne.
  destruct (link_edges_plain g (edges g) (build_nodes (nodes g)))
    as (m & Hl & _ & Hget); [done|exact Hplain|].
  destruct (convertToHierarchy_root g m Hne Hl) as (r & _ & Hc).
  exists m, r. split; [done|]. intros k Hk.
  rewrite (link_edges_children g (edges g) _ m (fun _ => eq_refl) Hplain Hl k).
  apply build_nodes_declared in Hk as [t Ht]. rewrite Ht. simpl.
  rewrite build_nodes_lookup in Ht.
  destruct (last _); simplify_eq/=. done.
Qed.

(** X8: an edge from a node into a key that [nodesById] inherits is not
    ignored: the member of [Object.prototype] becomes a child of the
    node. *)
Theorem convertToHierarchy_inherited_target (n : node) (k : string) (depth : nat) :
  k ∈ object_prototype_keys -> k <> id n -> 1 < depth ->
  hierarchy_of_result depth
    (convertToHierarchy {| nodes := [n]; edges := [ {| from := id n; to := k |} ] |})
  = Ok (Some (HNode (label n) [HOther (VBuiltin k)])).
Proof.
  intros Hk Hne Hd.
  assert (Hget : get (build_nodes [n]) k = VBuiltin k).
  { unfold get, build_nodes, set. simpl.
    rewrite lookup_insert_ne by done. rewrite lookup_empty.
    assert (Hnc : k <> "name"%string /\ k <> "children"%string).
    { unfold object_prototype_keys in Hk. set_solver. }
    destruct (_ !! "__proto__"%string).
    - rewrite !bool_decide_eq_false_2 by tauto.
      unfold object_prototype. by rewrite bool_decide_eq_true_2.
    - unfold object_prototype. by rewrite bool_decide_eq_true_2. }
  unfold convertToHierarchy, hierarchy_of_result. simpl.
  unfold link_edge. simpl. rewrite Hget.
  assert (Hself : get (build_nodes [n]) (id n) = VNode (id n)).
  { unfold get, build_nodes, set. simpl. by rewrite lookup_insert_eq. }
  rewrite Hself. simpl.
  unfold select_root, targets. simpl.
  rewrite bool_decide_eq_false_2 by set_solver. simpl.
  rewrite get_alter_push, Hself.
  destruct depth as [|[|d]]; [lia|lia|]. simpl.
  unfold build_nodes, set. simpl.
  by rewrite lookup_alter_eq, lookup_insert_eq.
Qed.

(** A tree node that is its own child has no finite hierarchy. *)
Lemma unfold_own_child (m : gmap string tnode) (k : string) (t : tnode) :
  m !! k = Some t -> VNode k ∈ children t ->
  forall depth, unfold depth m (VNode k) = None.
Proof.
  intros Hk Hin. induction depth as [|d IH]; [done|]. simpl. rewrite Hk.
  destruct (mapM _ _) as [l|] eqn:Hm; [|done].
  apply mapM_Some in Hm.
  apply list_elem_of_lookup in Hin as [j Hj].
  destruct (Forall2_lookup_l _ _ _ _ _ Hm Hj) as (y & _ & Hy). congruence.
Qed.

(** In a graph with plain edges where every node is the target of an edge
    and the first node is the target of an edge of its own, the hierarchy
    returned has no leaf level at any depth. *)
Lemma cycle_at_root (g : graph) (r : node) :
  plain_edges g -> head (nodes g) = Some r ->
  (forall n, n ∈ nodes g -> is_target g (id n)) ->
  {| from := id r; to := id r |} ∈ edges g ->
  forall depth, hierarchy_of_result depth (convertToHierarchy g) = Ok None.
Proof.
  intros Hplain Hhead Hall Hloop depth.
  assert (Hne : nodes g <> []) by (by destruct (nodes g)).
  destruct (link_edges_plain g (edges g) (build_nodes (nodes g)))
    as (m & Hl & _ & Hget); [done|exact Hplain|].
  destruct (convertToHierarchy_root g m Hne Hl) as (r0 & Hr0 & Hc).
  assert (id r0 = id r) as Hid.
  { destruct Hr0 as [(pre & post & Hn & Hnt & _)|[_ Hh]].
    - exfalso. apply Hnt, Hall. rewrite Hn. set_solver.
    - congruence. }
  rewrite Hc, Hid. simpl. f_equal.
  assert (Hd : declared g (id r)).
  { apply list_elem_of_fmap. exists r. split; [done|].
    destruct (nodes g); simplify_eq/=. set_solver. }
  pose proof (link_edges_children g (edges g) _ m (fun _ => eq_refl) Hplain Hl (id r))
    as Hch.
  apply build_nodes_declared in Hd as Hb. destruct Hb as [t0 Ht0].
  rewrite Ht0 in Hch. simpl in Hch.
  destruct (m !! id r) as [t|] eqn:Ht; [|done]. injection Hch as Hch.
  eapply unfold_own_child; [done|]. rewrite Hch.
  apply elem_of_app. right. unfold edge_children. apply list_elem_of_fmap.
  exists {| from := id r; to := id r |}. split; [done|].
  apply list_elem_of_In, filter_In. split; [by apply list_elem_of_In|]. simpl.
  rewrite bool_decide_eq_true_2 by done. simpl.
  apply well_formed_true. split; apply list_elem_of_fmap; exists r;
    (split; [done|]); destruct (nodes g); simplify_eq/=; set_solver.
Qed.

End NormalizerExtras.

Lemma convertToHierarchy_last_label_witness :
  match Normalizer.convertToHierarchy Normalizer.duplicate_id_graph with
  | Ok (m, _) => Normalizer.name <$> m !! "a"%string = Some "second"%string
  | Throw _ => False
  end.
Proof.
  destruct (Normalizer.convertToHierarchy Normalizer.duplicate_id_graph)
    as [[m v]|e] eqn:H.
  - exact (convertToHierarchy_last_label Normalizer.duplicate_id_graph m v "a" H).
  - vm_compute in H. discriminate H.
Defined.

Lemma plain_parallel_edge_graph : Normalizer.plain_edges Normalizer.parallel_edge_graph.
Proof.
  assert (Hz : ~ Normalizer.inherited Normalizer.parallel_edge_graph "zzz").
  { intros [H|[_ [H|H]]]; [|discriminate H..].
    assert (Hd : bool_decide ("zzz"%string ∈ Normalizer.object_prototype_keys) = false)
      by (vm_compute; reflexivity).
    apply bool_decide_eq_false in Hd. exact (Hd H). }
  assert (Ha : Normalizer.declared Normalizer.parallel_edge_graph "a")
    by (apply list_elem_of_here).
  assert (Hb : Normalizer.declared Normalizer.parallel_edge_graph "b")
    by (apply list_elem_of_further, list_elem_of_here).
  intros e He. unfold Normalizer.parallel_edge_graph in He. simpl in He.
  apply elem_of_cons in He as [->|He]; [by split; left|].
  apply elem_of_cons in He as [->|He]; [by split; [right|left]|].
  apply list_elem_of_singleton in He as ->. by split; left.
Defined.

Lemma convertToHierarchy_children_witness :
  exists m r,
    Normalizer.convertToHierarchy Normalizer.parallel_edge_graph
    = Ok (m, Normalizer.VNode (Normalizer.id r))
    /\ forall k, Normalizer.declared Normalizer.parallel_edge_graph k ->
         Normalizer.children <$> m !! k
         = Some (Normalizer.edge_children Normalizer.parallel_edge_graph k
                   (Normalizer.edges Normalizer.parallel_edge_graph)).
Proof.
  apply (convertToHierarchy_children Normalizer.parallel_edge_graph).
  - exact plain_parallel_edge_graph.
  - discriminate.
Defined.

Lemma convertToHierarchy_inherited_target_witness :
  Normalizer.hierarchy_of_result 2
    (Normalizer.convertToHierarchy
       {| Normalizer.nodes := [ {| Normalizer.id := "a"; Normalizer.label := "A" |} ];
          Normalizer.edges := [ {| Normalizer.from := "a"; Normalizer.to := "toString" |} ] |})
  = Ok (Some (Normalizer.HNode "A" [Normalizer.HOther (Normalizer.VBuiltin "toString")])).
Proof.
  apply (convertToHierarchy_inherited_target
           {| Normalizer.id := "a"; Normalizer.label := "A" |} "toString" 2).
  - apply (bool_decide_unpack _). vm_compute. exact I.
  - discriminate.
  - lia.
Defined.

(** ** The collapsible tree, view by view *)

Section RendererExtras.
Import Renderer.
Import Normalizer(hierarchy, HNode, HOther).
Context {coord : Type}.
Variable tidy : shape -> path -> point coord.
Local Arguments modify_at : simpl never.
Local Arguments state_modify_at : simpl never.

(** Keys of nodes that have no id yet: the counter numbers them in the
    order of the list. *)
Lemma keys_fresh (ps : list path) :
  forall (t : rnode coord) (n : Z),
    NoDup ps ->
    (forall p, p ∈ ps -> is_Some (node_at p t) /\ id_at p t = None) ->
    exists ks t',
      keys ps (t, Some n) = Ok (ks, (t', Some (n + Z.of_nat (length ps))%Z))
      /\ (forall j p, ps !! j = Some p -> id_at p t' = Some (n + 1 + Z.of_nat j)%Z)
      /\ (forall q, q ∉ ps -> id_at q t' = id_at q t)
      /\ state_of t' = state_of t.
Proof.
  induction ps as [|p ps IH]; intros t n Hnd Hps.
  - exists [], t. simpl. rewrite Z.add_0_r. split; [done|]. split; [by intros j p|]. by split.
  - apply NoDup_cons in Hnd as [Hp Hnd].
    destruct (Hps p (list_elem_of_here _ _)) as [Hv Hid].
    destruct (IH (modify_at (set_id (n + 1)) p t) (n + 1)%Z Hnd)
      as (ks & t' & Hk & Hids & Hother & Hst).
    { intros p' Hp'. destruct (Hps p' (list_elem_of_further _ _ _ Hp')) as [Hv' Hid'].
      split.
      - by apply (valid_modify_at (set_id (n + 1)) p p' t (kids_set_id _)).
      - rewrite id_at_set_id_other; [done|]. by intros ->. }
    exists ((n + 1)%Z :: ks), t'.
    replace (n + Z.of_nat (length (p :: ps)))%Z with (n + 1 + Z.of_nat (length ps))%Z
      by (simpl; lia).
    simpl. rewrite (key_fresh p t n Hid). simpl. rewrite Hk. simpl.
    split; [done|]. split; [|split].
    + intros [|j] q Hq; simplify_eq/=.
      * rewrite Hother by done. rewrite id_at_set_id_same by done. f_equal. lia.
      * rewrite (Hids j q Hq). f_equal. lia.
    + intros q Hq. apply not_elem_of_cons in Hq as [Hqp Hq].
      rewrite Hother by done. by rewrite id_at_set_id_other.
    + by rewrite Hst, state_of_set_id.
Qed.

(** The first rendering gives the nodes it draws the numbers after the
    counter, in the order of [descendants], and no other node a number. *)
Lemma render_ids (dt : hierarchy) (n : Z) :
  let ps := [] :: ((fun j => [j]) <$> seq 0 (length (data_children dt))) in
  exists v,
    render tidy dt (Some n) = Ok v
    /\ i v = Some (n + Z.of_nat (length ps))%Z
    /\ (forall a p, ps !! a = Some p -> id_at p (root v) = Some (n + 1 + Z.of_nat a)%Z)
    /\ (forall q, q ∉ ps -> id_at q (root v) = None).
Proof.
  cbv zeta.
  set (t0 := collapse_children (treeLayout tidy (hierarchy_of dt))).
  set (ps := [] :: ((fun j => [j]) <$> seq 0 (length (data_children dt)))).
  assert (Hdesc : descendants t0 = ps) by (apply descendants_initial, state_of_initial).
  assert (Hnone : forall q, id_at q (treeLayout tidy t0) = None).
  { intros q. unfold treeLayout. rewrite id_at_place. apply id_at_initial. }
  destruct (keys_fresh ps (treeLayout tidy t0) n) as (ks & t' & Hk & Hids & Hother & Hst).
  { rewrite <- Hdesc. eapply path_sorted_NoDup, descendants_sorted. }
  { intros p Hp. split; [|done]. rewrite <- Hdesc in Hp.
    apply descendants_node_at in Hp. destruct Hp as [d Hd].
    unfold treeLayout.
    assert (Hc := node_at_corresponds _ (placed_corresponds tidy (visible_shape t0))
                    p t0 (place tidy (visible_shape t0) [] t0)
                    (or_intror (ex_intro _ [] eq_refl))).
    rewrite Hd in Hc. inversion Hc. by eexists. }
  assert (Hlen : length ps = S (length (data_children dt))).
  { unfold ps. simpl. by rewrite length_fmap, length_seq. }
  unfold render. fold t0. unfold update. simpl. rewrite Hdesc, Hk. simpl.
  destruct (runs _ _) as [rs last]. eexists. split; [reflexivity|]. simpl.
  split; [done|]. split.
  - intros a p Hp. rewrite id_at_save_positions. by apply Hids.
  - intros q Hq. rewrite id_at_save_positions, Hother; done.
Qed.

(** X9: the first rendering numbers the root and its children from the
    counter on, in the order they are drawn, and leaves every node below
    them without an id. *)
Theorem render_numbers_visible_nodes (dt : hierarchy) (n : Z) :
  exists v,
    render tidy dt (Some n) = Ok v
    /\ i v = Some (n + 1 + Z.of_nat (length (data_children dt)))%Z
    /\ id_at [] (root v) = Some (n + 1)%Z
    /\ (forall j, j < length (data_children dt) ->
          id_at [j] (root v) = Some (n + 2 + Z.of_nat j)%Z)
    /\ (forall q, 2 <= length q -> id_at q (root v) = None).
Proof.
  destruct (render_ids dt n) as (v & Hr & Hi & Hids & Hnone). exists v.
  split; [done|]. split; [|split; [|split]].
  - rewrite Hi. simpl. rewrite length_fmap, length_seq. f_equal. lia.
  - rewrite (Hids 0 []) by done. f_equal. lia.
  - intros j Hj. rewrite (Hids (S j) [j]).
    + f_equal. lia.
    + simpl. by rewrite list_lookup_fmap, lookup_seq_lt.
  - intros q Hq. apply Hnone.
    intros [->|Hin]%elem_of_cons; [simpl in Hq; lia|].
    apply list_elem_of_fmap in Hin as (j & -> & _). simpl in Hq. lia.
Qed.

(** With nothing bound to the counter, no tree is drawn: the key function
    throws at the root. *)
Lemma render_unbound_counter (dt : hierarchy) :
  render tidy dt None = Throw ReferenceError.
Proof.
  set (t0 := collapse_children (treeLayout tidy (hierarchy_of dt))).
  assert (Hdesc : descendants t0
                  = [] :: ((fun j => [j]) <$> seq 0 (length (data_children dt))))
    by (apply descendants_initial, state_of_initial).
  unfold render. fold t0. unfold update. simpl. rewrite Hdesc. simpl.
  unfold key. simpl.
  assert (Hnone : id_at [] (treeLayout tidy t0) = None).
  { unfold treeLayout. rewrite id_at_place. apply id_at_initial. }
  by rewrite Hnone.
Qed.

Lemma key_counter (p : path) (st st' : rnode coord * option Z) (k : Z) :
  key p st = Ok (k, st') ->
  match st.2, st'.2 with
  | Some n, Some n' => (n <= n')%Z
  | None, None => True
  | _, _ => False
  end.
Proof.
  unfold key. destruct st as [t [n|]]; simpl.
  - destruct (id_at p t) as [z|]; [destruct (z =? 0)%Z|]; intros [= <- <-]; simpl; lia.
  - destruct (id_at p t) as [z|]; [destruct (z =? 0)%Z|]; intros; by simplify_eq.
Qed.

Lemma keys_counter (ps : list path) :
  forall (st st' : rnode coord * option Z) (ks : list Z),
    keys ps st = Ok (ks, st') ->
    match st.2, st'.2 with
    | Some n, Some n' => (n <= n')%Z
    | None, None => True
    | _, _ => False
    end.
Proof.
  induction ps as [|p ps IH]; intros st st' ks; simpl.
  - intros [= <- <-]. destruct st.2; [lia|done].
  - destruct (key p st) as [[k st1]|] eqn:Hk; simpl; [|done].
    destruct (keys ps st1) as [[ks1 st2]|] eqn:Hks; simpl; [|done].
    intros [= <- <-]. apply key_counter in Hk. apply IH in Hks.
    destruct st.2, st1.2, st2.2; try done. lia.
Qed.

(** X10: [update] alone moves no node between the slots: the state of the
    tree and the nodes that are visible stay, and the counter never goes
    back. *)
Theorem update_keeps_state (v v' : view coord) :
  update tidy v = Ok v' ->
  state_of (root v') = state_of (root v)
  /\ descendants (root v') = descendants (root v)
  /\ match i v, i v' with
     | Some n, Some n' => (n <= n')%Z
     | None, None => True
     | _, _ => False
     end.
Proof.
  intros Hu. pose proof (state_of_update tidy v v' Hu) as Hst.
  split; [done|]. split; [by apply descendants_state|].
  unfold update in Hu.
  destruct (keys (datum <$> drawn v) _) as [[gkeys st1]|] eqn:Hg; simpl in Hu; [|done].
  destruct (keys (descendants (root v)) st1) as [[dkeys st2]|] eqn:Hd; simpl in Hu; [|done].
  destruct (runs _ _) as [rs last]. injection Hu as <-. simpl.
  apply keys_counter in Hg, Hd. simpl in Hg.
  destruct (i v), st1.2, st2.2; try done. lia.
Qed.

(** The layout writes to every visible node the pair the library gives its
    path. *)
Lemma xy_at_place (s : shape) (p : path) :
  forall (q0 : path) (t : rnode coord),
    visible_path p (state_of t) ->
    node_at p (place tidy s q0 t) ≫= xy = Some (tidy s (q0 ++ p)).
Proof.
  induction p as [|j p IH]; intros q0 t Hv.
  - rewrite place_unfold. simpl. by rewrite app_nil_r.
  - destruct t as [dt n c h q q1]. simpl in Hv.
    destruct c as [| |l]; try done. destruct Hv as (k & Hk & Hv).
    rewrite place_unfold. simpl. unfold kids. simpl.
    rewrite place_list_lookup. simpl.
    rewrite map_fmap, list_lookup_fmap in Hk.
    destruct (l !! j) as [d|] eqn:Hd; simplify_eq/=.
    rewrite (IH (q0 ++ [j]) d Hv). by rewrite <- app_assoc.
Qed.

Lemma settled_picture (v : view coord) :
  settled tidy v -> drawn v = pictured tidy (root v) <$> descendants (root v).
Proof.
  intros (n & _ & _ & _ & _ & Hdr & _ & Hlay & _ & _).
  rewrite Hdr. apply Forall_fmap_ext, Forall_forall. intros p Hp.
  unfold draw_at, transform, pictured, enter. simpl. f_equal.
  rewrite <- Hlay at 1. unfold treeLayout.
  rewrite xy_at_place; [done|]. by apply descendants_visible.
Qed.

(** X11: what is drawn is read off the expand/collapse state alone: in
    every view the page goes through, the elements are those of the
    visible nodes, each translated to the place the layout of the visible
    shape gives it, with the two coordinates swapped. *)
Theorem drawn_is_picture_of_state (dt : hierarchy) (i0 : Z) (v : view coord) :
  (0 <= i0)%Z -> reachable tidy dt i0 v ->
  drawn v = pictured tidy (root v) <$> descendants (root v).
Proof.
  intros Hi Hr. by apply settled_picture, (reachable_settled tidy dt i0).
Qed.

Lemma visible_path_toggle_other (p : path) :
  forall (q : path) (s : state),
    ~ above p q ->
    visible_path q (state_modify_at state_toggle p s) <-> visible_path q s.
Proof.
  induction p as [|j p IH]; intros q s Hq.
  - destruct q as [|j' q]; [done|]. destruct Hq. by exists (j' :: q).
  - destruct q as [|j' q]; [done|].
    destruct s as [dt [l|] [h|]]; unfold state_modify_at; fold state_modify_at;
      simpl; try done.
    all: destruct (decide (j' = j)) as [->|Hne].
    2,4: by rewrite list_lookup_alter_ne.
    all: rewrite list_lookup_alter_eq.
    all: assert (Hq' : ~ above p q)
      by (intros (r & Hr & ->); apply Hq; by exists r).
    all: split; intros (k & Hk & Hv).
    all: destruct (l !! j) as [k0|] eqn:Hl; simplify_eq/=.
    all: eexists; split; [done|]; by apply (IH q _ Hq').
Qed.

(** X12: a click changes what is visible only below the node clicked: the
    node itself stays drawn, and every node that is not under it is
    visible after the click just when it was before. *)
Theorem click_changes_only_below (dt : hierarchy) (i0 : Z) (v : view coord) (p : path) :
  (0 <= i0)%Z -> reachable tidy dt i0 v -> p ∈ datum <$> drawn v ->
  exists v',
    click tidy p v = Ok v'
    /\ p ∈ descendants (root v')
    /\ forall q, ~ above p q ->
         (q ∈ descendants (root v') <-> q ∈ descendants (root v)).
Proof.
  intros Hi Hr Hp.
  pose proof (reachable_settled tidy dt i0 v Hi Hr) as Hs.
  destruct (click_settled tidy v p Hs) as (v' & Hc & _ & Hst & _).
  exists v'. split; [done|].
  assert (Hall : forall q, ~ above p q ->
            (q ∈ descendants (root v') <-> q ∈ descendants (root v))).
  { intros q Hq. rewrite !descendants_visible, Hst.
    by apply visible_path_toggle_other. }
  split; [|done]. apply Hall.
  - intros (r & Hr' & Heq). apply Hr'.
    apply (f_equal length) in Heq. rewrite length_app in Heq.
    destruct r; [done|simpl in Heq; lia].
  - destruct Hs as (n & _ & _ & _ & _ & Hdr & _).
    by rewrite Hdr, datum_draw_at in Hp.
Qed.

Lemma state_toggle_leaf (p : path) :
  forall s, flags_at p s = Some (false, false) -> state_modify_at state_toggle p s = s.
Proof.
  induction p as [|j p IH]; intros s.
  - unfold flags_at. simpl. destruct s as [dt [l|] [h|]]; simpl; intros; by simplify_eq.
  - unfold flags_at. simpl.
    destruct s as [dt [l|] [h|]]; unfold state_modify_at; fold state_modify_at;
      simpl; try done.
    all: intros Hf; do 2 f_equal; apply list_eq; intros a.
    all: destruct (decide (a = j)) as [Heq|Hne];
      [subst a; rewrite list_lookup_alter_eq|by rewrite list_lookup_alter_ne].
    all: match goal with
         | |- _ <$> ?o = _ => destruct o as [k|] eqn:Hk; simpl in *; [|done]
         end.
    all: f_equal; by apply IH.
Qed.

Lemma pictured_state (t t' : rnode coord) :
  state_of t' = state_of t ->
  pictured tidy t' <$> descendants t' = pictured tidy t <$> descendants t.
Proof.
  intros Hst. rewrite (descendants_state _ _ Hst).
  unfold pictured. by rewrite !visible_shape_state, Hst.
Qed.

(** X13: a click on a node that has no children in either slot changes
    nothing: the state of the tree and the elements drawn are as
    before. *)
Theorem click_on_leaf (dt : hierarchy) (i0 : Z) (v : view coord) (p : path) :
  (0 <= i0)%Z -> reachable tidy dt i0 v -> p ∈ datum <$> drawn v ->
  flags_at p (state_of (root v)) = Some (false, false) ->
  exists v',
    click tidy p v = Ok v'
    /\ state_of (root v') = state_of (root v)
    /\ drawn v' = drawn v.
Proof.
  intros Hi Hr Hp Hf.
  pose proof (reachable_settled tidy dt i0 v Hi Hr) as Hs.
  destruct (click_settled tidy v p Hs) as (v' & Hc & Hs' & Hst & _).
  rewrite state_toggle_leaf in Hst by done.
  exists v'. split; [done|]. split; [done|].
  rewrite (settled_picture v Hs), (settled_picture v' Hs').
  by apply pictured_state.
Qed.

End RendererExtras.

Section CounterFacts.
Import Renderer.
Import Normalizer(hierarchy, HNode, HOther).
Context {coord : Type}.
Variable tidy : shape -> path -> point coord.
Local Arguments modify_at : simpl never.
Local Arguments state_modify_at : simpl never.
Local Arguments keys : simpl never.
Local Arguments key : simpl never.

(** X14: an id of zero does not count as an id.  With the counter bound
    to -1 the first rendering gives the root the id 0, and the next
    [update] gives it another one: ids are stable only from a counter that
    is not negative. *)
Theorem counter_minus_one_renumbers_root (dt : hierarchy) :
  exists v v',
    render tidy dt (Some (-1)%Z) = Ok v
    /\ id_at [] (root v) = Some 0%Z
    /\ update tidy v = Ok v'
    /\ id_at [] (root v') = Some (1 + Z.of_nat (length (data_children dt)))%Z.
Proof.
  set (len := length (data_children dt)).
  set (ps := (fun j => [j]) <$> seq 0 len).
  destruct (render_ids tidy dt (-1)) as (v & Hr & Hiv0 & Hids & _).
  assert (Hiv : i v = Some (-1 + 1 + Z.of_nat len)%Z).
  { rewrite Hiv0. simpl. rewrite length_fmap, length_seq. f_equal. lia. }
  assert (Hroot : id_at [] (root v) = Some (-1 + 1)%Z)
    by (rewrite (Hids 0 []) by done; f_equal; lia).
  assert (Hkids : forall j, j < len -> id_at [j] (root v) = Some (-1 + 2 + Z.of_nat j)%Z).
  { intros j Hj. rewrite (Hids (S j) [j]); [f_equal; lia|].
    simpl. by rewrite list_lookup_fmap, lookup_seq_lt. }
  destruct (update_first tidy
              (collapse_children (treeLayout tidy (hierarchy_of dt))) (-1))
    as (v0 & Hu & Hdat & Hst).
  unfold render in Hr. rewrite Hr in Hu. injection Hu as <-.
  rewrite state_of_initial in Hst.
  assert (Hdesc : descendants (root v) = [] :: ps) by by apply descendants_initial.
  rewrite (descendants_initial _ dt (state_of_initial tidy dt)) in Hdat. fold len ps in Hdat.
  set (t := treeLayout tidy (root v)).
  set (t1 := modify_at (set_id (Z.of_nat len + 1)) [] t).
  assert (Hkey : key [] (t, Some (Z.of_nat len))
                 = Ok ((Z.of_nat len + 1)%Z, (t1, Some (Z.of_nat len + 1)%Z))).
  { unfold key. simpl. unfold t at 1, treeLayout. by rewrite id_at_place, Hroot. }
  assert (Hps : forall p, p ∈ ps -> exists z, id_at p t1 = Some z /\ z <> 0%Z).
  { intros p (j & -> & Hj)%list_elem_of_fmap. apply elem_of_seq in Hj.
    exists (-1 + 2 + Z.of_nat j)%Z. split; [|lia].
    unfold t1. rewrite id_at_set_id_other by done.
    unfold t, treeLayout. rewrite id_at_place. apply Hkids. lia. }
  assert (Hroot1 : id_at [] t1 = Some (Z.of_nat len + 1)%Z).
  { unfold t1. by apply id_at_set_id_same. }
  destruct (keys_known ps t1 (Some (Z.of_nat len + 1)%Z) Hps) as (ks & Hks & _).
  destruct (keys_known ([] :: ps) t1 (Some (Z.of_nat len + 1)%Z)) as (ks' & Hks' & _).
  { intros p [->|Hp]%elem_of_cons; [|by apply Hps]. eexists. split; [done|lia]. }
  assert (Hup : exists v', update tidy v = Ok v'
                 /\ id_at [] (root v') = Some (1 + Z.of_nat len)%Z).
  { unfold update. rewrite Hdat, Hiv, Hdesc. fold t.
    replace (-1 + 1 + Z.of_nat len)%Z with (Z.of_nat len) by lia.
    change (keys ([] :: ps) (t, Some (Z.of_nat len)))
      with ('(k, st1) ← key [] (t, Some (Z.of_nat len));
            '(ks, st2) ← keys ps st1; Ok (k :: ks, st2)).
    rewrite Hkey. simpl. rewrite Hks. simpl. rewrite Hks'. simpl.
    destruct (runs _ _) as [rs last]. eexists. split; [reflexivity|]. simpl.
    rewrite id_at_save_positions, Hroot1. f_equal. lia. }
  destruct Hup as (v' & Hup & Hid).
  exists v, v'. split; [done|]. split; [by rewrite Hroot|]. by split.
Qed.

End CounterFacts.

Lemma update_keeps_state_witness :
  exists v v',
    Renderer.render Renderer.example_tidy Renderer.example_tree (Some 0%Z) = Ok v
    /\ Renderer.update Renderer.example_tidy v = Ok v'
    /\ Renderer.state_of (Renderer.root v') = Renderer.state_of (Renderer.root v)
    /\ Renderer.descendants (Renderer.root v') = Renderer.descendants (Renderer.root v)
    /\ match Renderer.i v, Renderer.i v' with
       | Some n, Some n' => (n <= n')%Z
       | None, None => True
       | _, _ => False
       end.
Proof.
  eexists _, _. split; [vm_compute; reflexivity|]. split; [vm_compute; reflexivity|].
  apply (update_keeps_state Renderer.example_tidy). vm_compute. reflexivity.
Defined.

Lemma drawn_is_picture_of_state_witness :
  exists v,
    Renderer.render Renderer.example_tidy Renderer.example_tree (Some 0%Z) = Ok v
    /\ Renderer.drawn v
       = Renderer.pictured Renderer.example_tidy (Renderer.root v)
           <$> Renderer.descendants (Renderer.root v).
Proof.
  eexists. split; [vm_compute; reflexivity|].
  apply (drawn_is_picture_of_state Renderer.example_tidy Renderer.example_tree 0%Z).
  - lia.
  - apply Renderer.reach_render. vm_compute. reflexivity.
Defined.

Lemma click_changes_only_below_witness :
  exists v,
    Renderer.render Renderer.example_tidy Renderer.example_tree (Some 0%Z) = Ok v
    /\ exists v',
         Renderer.click Renderer.example_tidy [0] v = Ok v'
         /\ [0] ∈ Renderer.descendants (Renderer.root v')
         /\ forall q, ~ Renderer.above [0] q ->
              (q ∈ Renderer.descendants (Renderer.root v')
               <-> q ∈ Renderer.descendants (Renderer.root v)).
Proof.
  eexists. split; [vm_compute; reflexivity|].
  apply (click_changes_only_below Renderer.example_tidy Renderer.example_tree 0%Z).
  - lia.
  - apply Renderer.reach_render. vm_compute. reflexivity.
  - vm_compute. apply list_elem_of_In. simpl. auto.
Defined.

Lemma click_on_leaf_witness :
  exists v,
    Renderer.render Renderer.example_tidy Renderer.example_tree (Some 0%Z) = Ok v
    /\ exists v',
         Renderer.click Renderer.example_tidy [2] v = Ok v'
         /\ Renderer.state_of (Renderer.root v') = Renderer.state_of (Renderer.root v)
         /\ Renderer.drawn v' = Renderer.drawn v.
Proof.
  eexists. split; [vm_compute; reflexivity|].
  apply (click_on_leaf Renderer.example_tidy Renderer.example_tree 0%Z).
  - lia.
  - apply Renderer.reach_render. vm_compute. reflexivity.
  - vm_compute. apply list_elem_of_In. simpl. auto.
  - vm_compute. reflexivity.
Defined.

(** ** The links of the tree *)

Section KeyedFacts.
Import Links.
Context {K : Type} `{EqDecision K}.

Lemma first_index_of_lookup (k : K) (g : list K) (j : nat) :
  first_index_of k g = Some j -> g !! j = Some k.
Proof.
  revert j. induction g as [|k' g IH]; intros j; simpl; [done|].
  case_bool_decide as Hk; [by intros [= <-]; subst|].
  destruct (first_index_of k g) as [j'|]; simpl; [|done].
  intros [= <-]. by apply IH.
Qed.

(** A datum is joined to an element of its key, and a key is not used
    twice. *)
Lemma bind_keys_lookup (g d : list K) :
  forall used a j,
    bind_keys g d used !! a = Some (Some j) ->
    exists k, d !! a = Some k /\ g !! j = Some k /\ k ∉ used.
Proof.
  induction d as [|k d IH]; intros used a j; simpl; [done|].
  case_bool_decide as Hu.
  - destruct a as [|a]; simpl; [done|]. intros Ha. by apply IH in Ha.
  - destruct (first_index_of k g) as [j'|] eqn:Hf.
    + destruct a as [|a]; simpl.
      * intros [= <-]. exists k. by split; [|split; [apply first_index_of_lookup|]].
      * intros Ha. apply IH in Ha as (k' & ? & ? & Hk'). exists k'.
        split; [done|]. split; [done|]. set_solver.
    + destruct a as [|a]; simpl; [done|]. intros Ha. by apply IH in Ha.
Qed.

Lemma bind_keys_length (g d used : list K) : length (bind_keys g d used) = length d.
Proof.
  revert used. induction d as [|k d IH]; intros used; simpl; [done|].
  destruct (if bool_decide (k ∈ used) then None else first_index_of k g);
    simpl; by rewrite IH.
Qed.

Lemma bind_keys_NoDup (g d : list K) :
  forall used, NoDup (omap (fun o : option nat => o) (bind_keys g d used)).
Proof.
  induction d as [|k d IH]; intros used; simpl; [constructor|].
  case_bool_decide as Hu; [apply IH|].
  destruct (first_index_of k g) as [j|] eqn:Hf; simpl; [|apply IH].
  constructor; [|apply IH].
  intros Hin. apply list_elem_of_omap in Hin as (o & Ho & ->).
  apply list_elem_of_lookup in Ho as [a Ha].
  apply bind_keys_lookup in Ha as (k' & _ & Hg & Hk').
  apply first_index_of_lookup in Hf. rewrite Hf in Hg. injection Hg as <-.
  set_solver.
Qed.

End KeyedFacts.

Section RunsFacts.
Import Renderer.

(** Where the data of a join go: a joined datum ends a run, an entering
    one is in a run or in the last one. *)
Lemma runs_elem (joined : list (path * option nat)) :
  forall pending rs last,
    runs joined pending = (rs, last) ->
    (forall ens j p, (ens, j, p) ∈ rs ->
       (p, Some j) ∈ joined /\ forall q, q ∈ ens -> q ∈ pending \/ (q, None) ∈ joined)
    /\ (forall q, q ∈ last -> q ∈ pending \/ (q, None) ∈ joined)
    /\ (forall q j, (q, Some j) ∈ joined -> exists ens, (ens, j, q) ∈ rs)
    /\ (forall q, q ∈ pending \/ (q, None) ∈ joined ->
          q ∈ last \/ exists ens j p, (ens, j, p) ∈ rs /\ q ∈ ens).
Proof.
  induction joined as [|[p [j|]] joined IH]; intros pending rs last; simpl.
  - intros [= <- <-]. split; [by intros ??? ?%elem_of_nil|].
    split; [by left|]. split; [by intros ?? ?%elem_of_nil|].
    intros q [Hq|Hq%elem_of_nil]; [by left|done].
  - destruct (runs joined []) as [rs' last'] eqn:Hr. intros [= <- <-].
    destruct (IH [] rs' last' Hr) as (H1 & H2 & H3 & H4).
    split; [|split; [|split]].
    + intros ens j' p' [[= -> -> ->]|Hin]%elem_of_cons.
      * split; [by left|]. by left.
      * destruct (H1 _ _ _ Hin) as [Hp Hens]. split; [by right|].
        intros q Hq. destruct (Hens q Hq) as [?%elem_of_nil|?]; [done|]. right. by right.
    + intros q Hq. destruct (H2 q Hq) as [?%elem_of_nil|?]; [done|]. right. by right.
    + intros q j' [[= -> ->]|Hin]%elem_of_cons.
      * exists pending. by left.
      * destruct (H3 _ _ Hin) as [ens Hens]. exists ens. by right.
    + intros q [Hq|[?|Hq]%elem_of_cons]; [|done|].
      * right. exists pending, j, p. split; [by left|done].
      * destruct (H4 q (or_intror Hq)) as [?|(ens & j' & p' & ? & ?)]; [by left|].
        right. exists ens, j', p'. split; [by right|done].
  - intros Hr. destruct (IH (pending ++ [p]) rs last Hr) as (H1 & H2 & H3 & H4).
    split; [|split; [|split]].
    + intros ens j' p' Hin. destruct (H1 _ _ _ Hin) as [Hp Hens]. split; [by right|].
      intros q Hq. destruct (Hens q Hq) as [[?|Hs]%elem_of_app|?].
      * by left.
      * apply list_elem_of_singleton in Hs as ->. right. by left.
      * right. by right.
    + intros q Hq. destruct (H2 q Hq) as [[?|Hs]%elem_of_app|?].
      * by left.
      * apply list_elem_of_singleton in Hs as ->. right. by left.
      * right. by right.
    + intros q j' [[=]|Hin]%elem_of_cons. by apply H3.
    + intros q Hq. apply H4. destruct Hq as [Hq|[[= ->]|Hq]%elem_of_cons].
      * left. apply elem_of_app. by left.
      * left. apply elem_of_app. right. by apply list_elem_of_singleton.
      * by right.
Qed.

End RunsFacts.

Section LinkFacts.
Import Renderer Links.
Import Normalizer(hierarchy, HNode, HOther).
Context {coord : Type}.
Variable tidy : shape -> path -> point coord.
Local Arguments modify_at : simpl never.
Local Arguments state_modify_at : simpl never.

Lemma find_run (rs : list (list path * nat * path)) (ens : list path) (j : nat) (p : path) :
  NoDup (run_index <$> rs) -> (ens, j, p) ∈ rs ->
  List.find (fun r => bool_decide (r.1.2 = j)) rs = Some (ens, j, p).
Proof.
  induction rs as [|r rs IH]; [by intros _ ?%elem_of_nil|].
  rewrite fmap_cons. intros [Hr Hnd]%NoDup_cons [<-|Hin]%elem_of_cons; cbn [List.find].
  - cbn [fst snd]. by rewrite bool_decide_eq_true_2.
  - case_bool_decide as Hj; [|by apply IH].
    destruct Hr. apply list_elem_of_fmap. exists (ens, j, p). by split.
Qed.

Lemma joined_links_elem (t : rnode coord) (els : list (link coord)) rs last
      (el' : link coord) :
  el' ∈ joined_links t els rs last <->
  (exists j el, els !! j = Some el /\
     el' ∈ match List.find (fun r => bool_decide (r.1.2 = j)) rs with
           | Some (ens, _, p) =>
               (enter_link t <$> ens) ++ [{| target := p; curve := curve el |}]
           | None => [el]
           end)
  \/ el' ∈ enter_link t <$> last.
Proof.
  unfold joined_links. rewrite elem_of_app, list_elem_of_In, in_concat.
  split; (intros [H|H]; [left|by right]).
  - destruct H as (l & Hl%list_elem_of_In & Hel%list_elem_of_In).
    apply elem_of_lookup_imap in Hl as (j & el & -> & Hj). by exists j, el.
  - destruct H as (j & el & Hj & Hel). eexists. split.
    + apply list_elem_of_In. by apply (elem_of_lookup_imap_2 _ _ _ _ Hj).
    + by apply list_elem_of_In.
Qed.

(** The join of the links under ids that tell the nodes apart: no element
    is removed or changed, every link of the tree has an element, and an
    element that is new is the one entered for a link of the tree. *)
Lemma update_links_spec (t1 : rnode coord) (els : list (link coord)) :
  ids_inj t1 ->
  (forall el, el ∈ els -> is_Some (id_at (target el) t1)) ->
  (forall el, el ∈ els -> el ∈ update_links tidy t1 els)
  /\ (forall q, q ∈ links t1 -> q ∈ target <$> update_links tidy t1 els)
  /\ (forall el', el' ∈ update_links tidy t1 els ->
        el' ∈ els \/ target el' ∈ links t1).
Proof.
  intros Hinj Hids. unfold update_links.
  set (t := treeLayout tidy t1). set (data := links t1).
  set (gkeys := (fun el => id_at (target el) t) <$> els).
  set (dkeys := (fun p => id_at p t) <$> data).
  set (js := bind_keys gkeys dkeys []).
  assert (Hlen : length js = length data).
  { unfold js, dkeys. by rewrite bind_keys_length, length_fmap. }
  destruct (runs (zip data js) []) as [rs last] eqn:Hruns.
  destruct (runs_elem _ _ _ _ Hruns) as (R1 & R2 & R3 & R4).
  assert (Hnd : NoDup (run_index <$> rs)).
  { destruct (runs_spec _ _ _ _ Hruns) as [-> _].
    rewrite omap_snd_zip by done. apply bind_keys_NoDup. }
  assert (Hid : forall q, id_at q t = id_at q t1)
    by (intros q; unfold t, treeLayout; apply id_at_place).
  assert (KF : forall p j, (p, Some j) ∈ zip data js ->
             exists el, els !! j = Some el /\ p = target el).
  { intros p j Hin. apply list_elem_of_lookup in Hin as [a Ha].
    apply lookup_zip_Some in Ha as [Hd Hj].
    apply bind_keys_lookup in Hj as (k & Hk & Hg & _).
    unfold dkeys in Hk. rewrite list_lookup_fmap, Hd in Hk. injection Hk as <-.
    unfold gkeys in Hg. rewrite list_lookup_fmap in Hg.
    destruct (els !! j) as [el|] eqn:Hel; [|done]. injection Hg as Hg.
    exists el. split; [done|].
    destruct (Hids el) as [z Hz]; [by eapply list_elem_of_lookup_2|].
    rewrite !Hid in Hg. rewrite Hz in Hg. by eapply Hinj. }
  assert (Hnone : forall q, (q, None) ∈ zip data js -> q ∈ data)
    by (intros q; apply elem_of_zip_l).
  assert (Hrebind : forall j el ens j' p,
             els !! j = Some el ->
             List.find (fun r => bool_decide (r.1.2 = j)) rs = Some (ens, j', p) ->
             {| target := p; curve := curve el |} = el
             /\ forall q, q ∈ ens -> q ∈ data).
  { intros j el ens j' p Hel Hf. apply find_some in Hf as [Hin Hj].
    apply bool_decide_eq_true in Hj. simpl in Hj. subst j'.
    apply list_elem_of_In in Hin. destruct (R1 _ _ _ Hin) as [Hp Hens].
    destruct (KF _ _ Hp) as (el0 & Hel0 & ->). rewrite Hel in Hel0. injection Hel0 as <-.
    split; [by destruct el|]. intros q Hq.
    destruct (Hens q Hq) as [?%elem_of_nil|?]; [done|by apply Hnone]. }
  split; [|split].
  - intros el Hel. apply list_elem_of_lookup in Hel as [j Hj].
    apply joined_links_elem. left. exists j, el. split; [done|].
    destruct (List.find _ rs) as [[[ens j'] p]|] eqn:Hf; [|by apply list_elem_of_singleton].
    destruct (Hrebind _ _ _ _ _ Hj Hf) as [-> _].
    apply elem_of_app. right. by apply list_elem_of_singleton.
  - intros q Hq. apply list_elem_of_lookup in Hq as [a Ha].
    destruct (js !! a) as [o|] eqn:Ho;
      [|apply lookup_ge_None in Ho; apply lookup_lt_Some in Ha; lia].
    assert (Hin : (q, o) ∈ zip data js).
    { apply list_elem_of_lookup. exists a. by apply lookup_zip_Some. }
    apply list_elem_of_fmap.
    assert (Hrun : forall ens j p, (ens, j, p) ∈ rs -> forall x, x ∈ ens \/ x = p ->
               exists el', x = target el' /\ el' ∈ joined_links t els rs last).
    { intros ens j p Hr x Hx. destruct (R1 _ _ _ Hr) as [Hp _].
      destruct (KF _ _ Hp) as (el & Hel & _).
      pose proof (find_run rs ens j p Hnd Hr) as Hf.
      destruct Hx as [Hx| ->].
      - exists (enter_link t x). split; [done|]. apply joined_links_elem. left.
        exists j, el. split; [done|]. rewrite Hf. apply elem_of_app. left.
        apply list_elem_of_fmap. by exists x.
      - eexists. split; [|apply joined_links_elem; left; exists j, el; split; [done|];
                           rewrite Hf; apply elem_of_app; right;
                           by apply list_elem_of_singleton].
        done. }
    destruct o as [j|].
    + destruct (R3 _ _ Hin) as [ens Hr]. by apply (Hrun ens j q Hr); right.
    + destruct (R4 q (or_intror Hin)) as [Hl|(ens & j & p & Hr & Hq)].
      * exists (enter_link t q). split; [done|]. apply joined_links_elem. right.
        apply list_elem_of_fmap. by exists q.
      * by apply (Hrun ens j p Hr); left.
  - intros el' [(j & el & Hj & Hel)|Hl]%joined_links_elem.
    + destruct (List.find _ rs) as [[[ens j'] p]|] eqn:Hf.
      * destruct (Hrebind _ _ _ _ _ Hj Hf) as [Heq Hens]. rewrite Heq in Hel.
        apply elem_of_app in Hel as [Hel|Hel].
        -- apply list_elem_of_fmap in Hel as (q & -> & Hq). right. by apply Hens.
        -- apply list_elem_of_singleton in Hel as ->. left.
           by eapply list_elem_of_lookup_2.
      * apply list_elem_of_singleton in Hel as ->. left. by eapply list_elem_of_lookup_2.
    + apply list_elem_of_fmap in Hl as (q & -> & Hq). right. simpl.
      destruct (R2 q Hq) as [?%elem_of_nil|?]; [done|by apply Hnone].
Qed.

Lemma descendants_links (t : rnode coord) : descendants t = [] :: links t.
Proof. unfold links, descendants. destruct (visible_shape t). by rewrite levels_unfold. Qed.

Lemma links_descendants (t : rnode coord) (q : path) :
  q ∈ links t <-> q ∈ descendants t /\ q <> [].
Proof.
  pose proof (path_sorted_NoDup _ (descendants_sorted t)) as Hnd.
  rewrite descendants_links in Hnd |- *. apply NoDup_cons in Hnd as [Hn _].
  split.
  - intros Hq. split; [by right|]. by intros ->.
  - by intros [[->|?]%elem_of_cons Hne].
Qed.

Lemma links_state (t t' : rnode coord) :
  state_of t' = state_of t -> links t' = links t.
Proof. intros Hst. unfold links. by rewrite (descendants_state _ _ Hst). Qed.

(** One [update] of a scene whose tree has good ids and whose links lead
    to nodes with ids. *)
Lemma update_scene_ok (t1 : rnode coord) (n : Z) (els : list (element coord))
      (ls : list (link coord)) :
  (0 <= n)%Z -> ids_ok n t1 -> ids_inj t1 ->
  StronglySorted path_lt (datum <$> els) ->
  (forall p, p ∈ datum <$> els -> is_Some (id_at p t1)) ->
  exclusive (state_of t1) ->
  (forall el, el ∈ ls -> is_Some (id_at (target el) t1)) ->
  exists s',
    update_scene tidy {| tree := {| root := t1; i := Some n; drawn := els |};
                         paths := ls |} = Ok s'
    /\ links_ok tidy s'
    /\ state_of (root (tree s')) = state_of t1
    /\ (forall el, el ∈ ls -> el ∈ paths s').
Proof.
  intros Hn Hok Hinj HD HDid Hex Hls.
  destruct (update_settled tidy t1 n els Hn Hok Hinj HD HDid Hex)
    as (v' & Hu & Hs & Hst & Hpre).
  destruct (update_links_spec t1 ls Hinj Hls) as (Ha & Hb & Hc).
  unfold update_scene. cbn [tree paths]. rewrite Hu. simpl.
  eexists. split; [reflexivity|]. cbn [tree paths root].
  split; [|by split]. split; [done|]. split.
  - intros el' [Hel|Hel]%Hc.
    + destruct (Hls el' Hel) as [z Hz]. exists z. by apply Hpre.
    + destruct Hs as (n' & _ & _ & _ & _ & _ & Hids & _).
      apply Hids. rewrite (descendants_state _ _ Hst).
      by apply links_descendants in Hel as [? _].
  - intros q Hq. apply Hb. by rewrite <- (links_state _ _ Hst).
Qed.

Lemma render_scene_ok (dt : hierarchy) (i0 : Z) :
  (0 <= i0)%Z ->
  exists s, render_scene tidy dt (Some i0) = Ok s /\ links_ok tidy s.
Proof.
  intros Hi. unfold render_scene.
  destruct (update_scene_ok (collapse_children (treeLayout tidy (hierarchy_of dt)))
              i0 [] []) as (s & Hu & Hs & _); try done.
  - intros p z. by rewrite id_at_initial.
  - intros p q z. by rewrite id_at_initial.
  - constructor.
  - intros p Hp. by apply elem_of_nil in Hp.
  - rewrite state_of_initial. apply initial_state_exclusive.
  - intros el Hel. by apply elem_of_nil in Hel.
  - by exists s.
Qed.

Lemma click_scene_ok (s : scene coord) (p : path) :
  links_ok tidy s ->
  exists s', click_scene tidy p s = Ok s' /\ links_ok tidy s'
             /\ state_of (root (tree s'))
                = state_modify_at state_toggle p (state_of (root (tree s)))
             /\ (forall el, el ∈ paths s -> el ∈ paths s').
Proof.
  intros ((n & Hi & Hn & Hok & Hinj & Hdr & Hids & _ & _ & Hex) & Hls & _).
  unfold click_scene. rewrite Hi.
  destruct (update_scene_ok (modify_at toggle p (root (tree s))) n (drawn (tree s))
              (paths s)) as (s' & Hu & Hs & Hst & Hkeep); try done.
  - intros q z. rewrite id_at_toggle. apply Hok.
  - intros q1 q2 z. rewrite !id_at_toggle. apply Hinj.
  - rewrite Hdr, datum_draw_at. apply descendants_sorted.
  - intros q. rewrite Hdr, datum_draw_at, id_at_toggle. apply Hids.
  - rewrite (state_of_modify_at toggle state_toggle); [|apply state_of_toggle].
    by apply exclusive_toggle.
  - intros el Hel. rewrite id_at_toggle. by apply Hls.
  - exists s'. split; [done|]. split; [done|]. split; [|done].
    rewrite Hst. apply state_of_modify_at, state_of_toggle.
Qed.

Lemma reachable_scene_ok (dt : hierarchy) (i0 : Z) (s : scene coord) :
  (0 <= i0)%Z -> reachable_scene tidy dt i0 s -> links_ok tidy s.
Proof.
  intros Hi. induction 1 as [s Hr|s s' p _ IH _ Hc].
  - destruct (render_scene_ok dt i0 Hi) as (s0 & Hr0 & Hs). congruence.
  - destruct (click_scene_ok s p IH) as (s0 & Hc0 & Hs & _). congruence.
Qed.

Lemma hidden_after_toggle (p : path) (j : nat) :
  forall s : state,
    visible_path (p ++ [j]) s ->
    ~ visible_path (p ++ [j]) (state_modify_at state_toggle p s).
Proof.
  induction p as [|a p IH]; intros s.
  - unfold state_modify_at. simpl. destruct s as [dt [l|] h]; simpl; [|done].
    intros _ Hf. exact Hf.
  - rewrite <- app_comm_cons. unfold state_modify_at; fold state_modify_at.
    destruct s as [dt [l|] [h|]]; cbn [visible_path]; try done.
    all: intros (k & Hk & Hv) (k' & Hk' & Hv').
    all: rewrite list_lookup_alter_eq, Hk in Hk'; simpl in Hk'; injection Hk' as <-.
    all: by apply (IH k).
Qed.

(** X15: no link element is ever removed or redrawn: after a click every
    element is still in the group, with the curve it entered with, and
    every visible node below the root has one. *)
Theorem links_are_never_removed (dt : hierarchy) (i0 : Z) (s : scene coord) (p : path) :
  (0 <= i0)%Z -> reachable_scene tidy dt i0 s -> p ∈ datum <$> drawn (tree s) ->
  exists s',
    click_scene tidy p s = Ok s'
    /\ (forall el, el ∈ paths s -> el ∈ paths s')
    /\ (forall q, q ∈ descendants (root (tree s')) -> q <> [] ->
          q ∈ target <$> paths s').
Proof.
  intros Hi Hr Hp. pose proof (reachable_scene_ok dt i0 s Hi Hr) as Hs.
  destruct (click_scene_ok s p Hs) as (s' & Hc & (_ & _ & Hcov) & _ & Hkeep).
  exists s'. split; [done|]. split; [done|].
  intros q Hq Hne. apply Hcov. by apply links_descendants.
Qed.

(** X16: collapsing a node leaves the links to its children in the
    picture: the children are no longer drawn, their links are. *)
Theorem collapse_leaves_stale_links (dt : hierarchy) (i0 : Z) (s : scene coord)
        (p : path) (j : nat) :
  (0 <= i0)%Z -> reachable_scene tidy dt i0 s ->
  p ∈ datum <$> drawn (tree s) -> p ++ [j] ∈ descendants (root (tree s)) ->
  exists s',
    click_scene tidy p s = Ok s'
    /\ (p ++ [j] ∉ datum <$> drawn (tree s'))
    /\ p ++ [j] ∈ target <$> paths s'.
Proof.
  intros Hi Hr Hp Hj. pose proof (reachable_scene_ok dt i0 s Hi Hr) as Hs.
  destruct (click_scene_ok s p Hs) as (s' & Hc & (Hset & _ & _) & Hst & Hkeep).
  exists s'. split; [done|]. split.
  - destruct Hset as (n & _ & _ & _ & _ & Hdr & _).
    rewrite Hdr, datum_draw_at, descendants_visible, Hst.
    apply hidden_after_toggle. by apply descendants_visible.
  - destruct Hs as (_ & _ & Hcov).
    assert (Hin : p ++ [j] ∈ links (root (tree s))).
    { apply links_descendants. split; [done|]. by destruct p. }
    apply Hcov, list_elem_of_fmap in Hin as (el & -> & Hel).
    apply list_elem_of_fmap. exists el. split; [done|]. by apply Hkeep.
Qed.

End LinkFacts.

Lemma links_are_never_removed_witness :
  exists s,
    Links.render_scene Renderer.example_tidy Renderer.example_tree (Some 0%Z) = Ok s
    /\ exists s',
         Links.click_scene Renderer.example_tidy [0] s = Ok s'
         /\ (forall el, el ∈ Links.paths s -> el ∈ Links.paths s')
         /\ (forall q, q ∈ Renderer.descendants (Renderer.root (Links.tree s')) ->
               q <> [] -> q ∈ Links.target <$> Links.paths s').
Proof.
  eexists. split; [vm_compute; reflexivity|].
  apply (links_are_never_removed Renderer.example_tidy Renderer.example_tree 0%Z).
  - lia.
  - apply Links.scene_render. vm_compute. reflexivity.
  - vm_compute. apply list_elem_of_In. simpl. auto.
Defined.

Lemma collapse_leaves_stale_links_witness :
  exists s,
    Links.render_scene Renderer.example_tidy Renderer.example_tree (Some 0%Z) = Ok s
    /\ exists s',
         Links.click_scene Renderer.example_tidy [] s = Ok s'
         /\ ([] ++ [1] ∉ Renderer.datum <$> Renderer.drawn (Links.tree s'))
         /\ [] ++ [1] ∈ Links.target <$> Links.paths s'.
Proof.
  eexists. split; [vm_compute; reflexivity|].
  apply (collapse_leaves_stale_links Renderer.example_tidy Renderer.example_tree 0%Z).
  - lia.
  - apply Links.scene_render. vm_compute. reflexivity.
  - vm_compute. apply list_elem_of_In. simpl. auto.
  - vm_compute. apply list_elem_of_In. simpl. auto.
Defined.

(** ** The entry of the mind map renderer, payload by payload *)

Section MindmapExtras.
Import Mindmap.
Import Normalizer(graph, hierarchy).
Context {coord : Type}.
Variable tidy : Renderer.shape -> Renderer.path -> Renderer.point coord.
Variable JSON_parse : string -> option data.

(** X17: on a page without [#mindmapContainer] nothing is drawn and the
    counter is not touched, whatever the payload; the call ends, also for
    a graph with a cycle; and for a graph it returns or throws as
    [convertToHierarchy] does, which runs before the container is looked
    up. *)
Theorem renderMindmap_without_container (depth : nat) (pg : page coord) :
  container pg = None ->
  (forall v,
     match renderMindmap tidy JSON_parse depth v pg with
     | Returned pg' | Thrown _ pg' => container pg' = None /\ i pg' = i pg
     | Unfinished => False
     end)
  /\ (forall g,
        renderMindmap tidy JSON_parse depth (PObject (DGraph g)) pg
        = match Normalizer.convertToHierarchy g with
          | Ok _ => Returned pg
          | Throw e => Thrown e pg
          end).
Proof.
  intros Hc.
  assert (Hdraw : forall h, draw tidy h pg = Returned pg)
    by (intros h; unfold draw; by rewrite Hc).
  split.
  - intros v. unfold renderMindmap. destruct (absent v); [done|].
    destruct v as [| |s|d]; simpl; try done.
    + destruct (JSON_parse s) as [[|g|t]|]; simpl; try done.
      * destruct (Normalizer.convertToHierarchy g) as [[m x]|]; [by rewrite Hdraw|done].
      * by rewrite Hdraw.
    + destruct d as [|g|t]; try done.
      * destruct (Normalizer.convertToHierarchy g) as [[m x]|]; [by rewrite Hdraw|done].
      * by rewrite Hdraw.
  - intros g. unfold renderMindmap. simpl.
    destruct (Normalizer.convertToHierarchy g) as [[m x]|]; [by rewrite Hdraw|done].
Qed.

(** X18: a payload text that parses to [null] is not caught by the [try]:
    the TypeError of [data.nodes] reaches the caller, and the page is as it
    was. *)
Theorem renderMindmap_null_text_throws (depth : nat) (s : string) (pg : page coord) :
  s <> ""%string -> JSON_parse s = Some DNull ->
  renderMindmap tidy JSON_parse depth (PString s) pg = Thrown TypeError pg.
Proof.
  intros Hs Hp. unfold renderMindmap. simpl.
  rewrite bool_decide_eq_false_2 by done. by rewrite Hp.
Qed.

(** X19: [script.js] declares no [i].  On a page where nothing else binds
    it, a tree payload empties the container, lays the tree out and
    collapses it, and then throws a ReferenceError from the key function:
    no node is drawn. *)
Theorem renderMindmap_unbound_counter (depth : nat) (t : hierarchy) (pg : page coord)
        (c : option (Renderer.view coord)) :
  container pg = Some c -> i pg = None ->
  exists v,
    renderMindmap tidy JSON_parse depth (PObject (DTree t)) pg
    = Thrown ReferenceError (set_container (Some v) pg)
    /\ Renderer.drawn v = []
    /\ Renderer.state_of (Renderer.root v) = Renderer.initial_state t.
Proof.
  intros Hc Hi. unfold renderMindmap, draw. simpl. rewrite Hc, Hi.
  rewrite render_unbound_counter. eexists. split; [reflexivity|]. simpl.
  split; [done|]. apply state_of_initial.
Qed.

(** X20: a tree payload on a page with a container and a bound counter:
    what was in the container is replaced by the root and its children,
    and the counter has moved on by the number of nodes drawn. *)
Theorem renderMindmap_draws_tree (depth : nat) (t : hierarchy) (pg : page coord)
        (c : option (Renderer.view coord)) (n : Z) :
  container pg = Some c -> i pg = Some n ->
  exists v,
    renderMindmap tidy JSON_parse depth (PObject (DTree t)) pg
    = Returned {| container := Some (Some v); console := console pg;
                  i := Some (n + 1 + Z.of_nat (length (Renderer.data_children t)))%Z |}
    /\ Renderer.datum <$> Renderer.drawn v
       = [] :: ((fun j => [j]) <$> seq 0 (length (Renderer.data_children t)))
    /\ Renderer.id_at [] (Renderer.root v) = Some (n + 1)%Z.
Proof.
  intros Hc Hi. unfold renderMindmap, draw. simpl. rewrite Hc, Hi.
  destruct (render_ids tidy t n) as (v & Hr & Hiv0 & Hids & _).
  assert (Hiv : Renderer.i v
                = Some (n + 1 + Z.of_nat (length (Renderer.data_children t)))%Z).
  { rewrite Hiv0. simpl. rewrite length_fmap, length_seq. f_equal. lia. }
  assert (Hroot : Renderer.id_at [] (Renderer.root v) = Some (n + 1)%Z)
    by (rewrite (Hids 0 []) by done; f_equal; lia).
  destruct (update_first tidy
              (Renderer.collapse_children
                 (Renderer.treeLayout tidy (Renderer.hierarchy_of t))) n)
    as (v' & Hu & Hd & Hst).
  unfold Renderer.render in Hr. rewrite Hr in Hu. injection Hu as <-.
  unfold Renderer.render. rewrite Hr, Hiv. exists v. split; [done|].
  split; [|done]. rewrite Hd. apply descendants_initial, state_of_initial.
Qed.

(** X21: a graph with a cycle through its root: the hierarchy returned is
    endless, and on a page with a container the call does not get to draw
    it, however deep it is read. *)
Theorem renderMindmap_cycle_unfinished (g : graph) (r : Normalizer.node)
        (pg : page coord) (c : option (Renderer.view coord)) :
  Normalizer.plain_edges g -> head (Normalizer.nodes g) = Some r ->
  (forall n, n ∈ Normalizer.nodes g -> Normalizer.is_target g (Normalizer.id n)) ->
  {| Normalizer.from := Normalizer.id r; Normalizer.to := Normalizer.id r |}
    ∈ Normalizer.edges g ->
  container pg = Some c ->
  forall depth,
    Normalizer.hierarchy_of_result depth (Normalizer.convertToHierarchy g) = Ok None
    /\ renderMindmap tidy JSON_parse depth (PObject (DGraph g)) pg = Unfinished.
Proof.
  intros Hplain Hhead Hall Hloop Hc depth.
  pose proof (cycle_at_root g r Hplain Hhead Hall Hloop depth) as Hh.
  split; [done|]. unfold renderMindmap. simpl.
  destruct (Normalizer.convertToHierarchy g) as [[m x]|]; [|done].
  simpl in Hh. injection Hh as Hh. unfold draw. by rewrite Hc, Hh.
Qed.

End MindmapExtras.

Lemma renderMindmap_without_container_witness :
  let pg : Mindmap.page unit :=
    {| Mindmap.container := None; Mindmap.console := []; Mindmap.i := Some 0%Z |} in
  (forall v,
     match Mindmap.renderMindmap (coord := unit) (fun _ _ => (tt, tt)) (fun _ => None) 4
             v pg with
     | Mindmap.Returned pg' | Mindmap.Thrown _ pg' =>
         Mindmap.container pg' = None /\ Mindmap.i pg' = Mindmap.i pg
     | Mindmap.Unfinished => False
     end)
  /\ (forall g,
        Mindmap.renderMindmap (coord := unit) (fun _ _ => (tt, tt)) (fun _ => None) 4
          (Mindmap.PObject (Mindmap.DGraph g)) pg
        = match Normalizer.convertToHierarchy g with
          | Ok _ => Mindmap.Returned pg
          | Throw e => Mindmap.Thrown e pg
          end).
Proof.
  intros pg.
  apply (renderMindmap_without_container (coord := unit) (fun _ _ => (tt, tt))
           (fun _ => None) 4 pg).
  reflexivity.
Defined.

Lemma renderMindmap_null_text_throws_witness :
  let pg : Mindmap.page unit :=
    {| Mindmap.container := Some None; Mindmap.console := []; Mindmap.i := Some 0%Z |} in
  Mindmap.renderMindmap (coord := unit) (fun _ _ => (tt, tt))
    (fun _ => Some Mindmap.DNull) 4 (Mindmap.PString "null") pg
  = Mindmap.Thrown TypeError pg.
Proof.
  intros pg.
  apply (renderMindmap_null_text_throws (coord := unit) (fun _ _ => (tt, tt))
           (fun _ => Some Mindmap.DNull) 4 "null" pg).
  - discriminate.
  - reflexivity.
Defined.

Lemma renderMindmap_unbound_counter_witness :
  let pg : Mindmap.page nat :=
    {| Mindmap.container := Some None; Mindmap.console := []; Mindmap.i := None |} in
  exists v,
    Mindmap.renderMindmap Renderer.example_tidy (fun _ => None) 4
      (Mindmap.PObject (Mindmap.DTree Renderer.example_tree)) pg
    = Mindmap.Thrown ReferenceError (Mindmap.set_container (Some v) pg)
    /\ Renderer.drawn v = []
    /\ Renderer.state_of (Renderer.root v)
       = Renderer.initial_state Renderer.example_tree.
Proof.
  intros pg.
  apply (renderMindmap_unbound_counter Renderer.example_tidy (fun _ => None) 4
           Renderer.example_tree pg None); reflexivity.
Defined.

Lemma renderMindmap_draws_tree_witness :
  let pg : Mindmap.page nat :=
    {| Mindmap.container := Some None; Mindmap.console := []; Mindmap.i := Some 10%Z |} in
  exists v,
    Mindmap.renderMindmap Renderer.example_tidy (fun _ => None) 4
      (Mindmap.PObject (Mindmap.DTree Renderer.example_tree)) pg
    = Mindmap.Returned
        {| Mindmap.container := Some (Some v); Mindmap.console := [];
           Mindmap.i := Some (10 + 1 + Z.of_nat 3)%Z |}
    /\ Renderer.datum <$> Renderer.drawn v = [[]; [0]; [1]; [2]]
    /\ Renderer.id_at [] (Renderer.root v) = Some (10 + 1)%Z.
Proof.
  intros pg.
  apply (renderMindmap_draws_tree Renderer.example_tidy (fun _ => None) 4
           Renderer.example_tree pg None 10%Z); reflexivity.
Defined.

Lemma plain_loop_graph : Normalizer.plain_edges Normalizer.loop_graph.
Proof.
  assert (Ha : Normalizer.declared Normalizer.loop_graph "a")
    by (apply list_elem_of_here).
  assert (Hb : Normalizer.declared Normalizer.loop_graph "b")
    by (apply list_elem_of_further, list_elem_of_here).
  intros e He. unfold Normalizer.loop_graph in He. simpl in He.
  apply elem_of_cons in He as [->|He]; [by split; left|].
  apply list_elem_of_singleton in He as ->. by split; left.
Defined.

Lemma renderMindmap_cycle_unfinished_witness :
  let pg : Mindmap.page unit :=
    {| Mindmap.container := Some None; Mindmap.console := []; Mindmap.i := Some 0%Z |} in
  Normalizer.hierarchy_of_result 9
    (Normalizer.convertToHierarchy Normalizer.loop_graph) = Ok None
  /\ Mindmap.renderMindmap (coord := unit) (fun _ _ => (tt, tt)) (fun _ => None) 9
       (Mindmap.PObject (Mindmap.DGraph Normalizer.loop_graph)) pg
     = Mindmap.Unfinished.
Proof.
  intros pg.
  apply (fun H1 H2 H3 H4 H5 =>
           renderMindmap_cycle_unfinished (coord := unit) (fun _ _ => (tt, tt))
             (fun _ => None) Normalizer.loop_graph
             {| Normalizer.id := "a"; Normalizer.label := "A" |} pg None
             H1 H2 H3 H4 H5 9).
  - exact plain_loop_graph.
  - reflexivity.
  - intros n Hn. unfold Normalizer.loop_graph in Hn. simpl in Hn.
    apply elem_of_cons in Hn as [->|Hn].
    + exists {| Normalizer.from := "a"; Normalizer.to := "a" |}.
      split; [apply list_elem_of_here|reflexivity].
    + apply list_elem_of_singleton in Hn as ->.
      exists {| Normalizer.from := "a"; Normalizer.to := "b" |}.
      split; [apply list_elem_of_further, list_elem_of_here|reflexivity].
  - apply list_elem_of_here.
  - reflexivity.
Defined.

(** ** The paper list: buttons and ties *)

Section PaginationFacts.
Import JsString PaperList.
Variable localeCompare : string -> string -> Z.

Lemma disabled_buttons (p a len : nat) :
  List.filter snd ((fun n => (n, bool_decide (n = p))) <$> seq a len)
  = if bool_decide (a <= p < a + len) then [(p, true)] else [].
Proof.
  revert a. induction len as [|len IH]; intros a.
  - simpl. rewrite bool_decide_eq_false_2 by lia. done.
  - cbn [seq]. rewrite fmap_cons. cbn [List.filter snd]. rewrite IH.
    destruct (decide (a = p)) as [->|Hne].
    + rewrite bool_decide_eq_true_2 by done.
      rewrite (bool_decide_eq_false_2 (S p <= p < _)) by lia.
      by rewrite bool_decide_eq_true_2 by lia.
    + rewrite (bool_decide_eq_false_2 (a = p)) by done.
      destruct (decide (S a <= p < S a + len)).
      * by rewrite !bool_decide_eq_true_2 by lia.
      * by rewrite !bool_decide_eq_false_2 by lia.
Qed.

(** X22: the page buttons are numbered from 1 to the number of pages the
    answer reports, in order, whatever the search and the sort; the button
    of the page shown is disabled and no other; when the answer's page is
    outside that range, no button is. *)
Theorem pagination_buttons (data : listing) :
  fst <$> pagination data = seq 1 (total_pages data)
  /\ List.filter snd (pagination data)
     = (if bool_decide (1 <= page data <= total_pages data)
        then [(page data, true)] else [])
  /\ forall c, snd <$> loadPapers localeCompare true data c = Some (pagination data).
Proof.
  split; [|split].
  - unfold pagination. rewrite <- list_fmap_compose. apply list_fmap_id.
  - unfold pagination. rewrite disabled_buttons.
    destruct (decide (1 <= page data <= total_pages data)).
    + by rewrite !bool_decide_eq_true_2 by lia.
    + by rewrite !bool_decide_eq_false_2 by lia.
  - done.
Qed.

End PaginationFacts.

Section StableFacts.
Import JsString PaperList.
Context {A : Type} (cmp : A -> A -> Z).



End StableFacts.

Section StableDates.
Import JsString PaperList.
Variable localeCompare : string -> string -> Z.


End StableDates.


(** ** The paper page *)

Section DetailFacts.
Import JsString PaperDetail.

Lemma run_Digit (inp : list ascii) pos cap k :
  run (reflags re_paper) inp Digit pos cap k
  = match inp !! pos with
    | Some c => if is_digit c then k (S pos) cap else None
    | None => None
    end.
Proof.
  unfold Digit. cbn [run]. unfold at_pos. rewrite nth_error_lookup.
  destruct (inp !! pos) as [c|]; [|done].
  unfold lit_matches. cbn [reflags re_paper ignoreCase].
  generalize (k (S pos) cap). intros o.
  destruct c as [[] [] [] [] [] [] [] []]; destruct o; reflexivity.
Qed.

(** Where the pattern of the paper path matches, and what it captures. *)
Lemma paper_match_at (inp : list ascii) (b : nat) :
  match_at (reflags re_paper) inp (pattern re_paper) b
  = if word_at (reflags re_paper) inp (chars "/paper/") b
    then match inp !! (b + 7) with
         | Some c =>
             if is_digit c
             then let e := b + 8 + leading is_digit (drop (b + 8) inp) in
                  Some (e, Some (b + 7, e))
             else None
         | None => None
         end
    else None.
Proof.
  unfold match_at. cbn [pattern re_paper]. unfold Word.
  rewrite run_Seq, run_Lits.
  destruct (word_at _ _ _ _); [|done].
  change (length (chars "/paper/")) with 7.
  rewrite run_Group. unfold Plus. rewrite run_Seq, run_Digit.
  destruct (inp !! (b + 7)) as [c|]; [|done].
  destruct (is_digit c); [|done].
  rewrite (run_star_class _ inp Digit is_digit (run_Digit inp)); [|done].
  cbv zeta. replace (S (b + 7)) with (b + 8) by lia. done.
Qed.

Lemma word_at_exact (fl : flags) (inp w : list ascii) :
  ignoreCase fl = false ->
  forall pos, word_at fl inp w pos = true -> take (length w) (drop pos inp) = w.
Proof.
  intros Hfl. induction w as [|c w IH]; intros pos; [done|].
  cbn [word_at]. rewrite nth_error_lookup.
  destruct (inp !! pos) as [d|] eqn:Hd; [|done].
  intros [Hm Hw]%andb_true_iff.
  unfold lit_matches in Hm. rewrite Hfl in Hm. apply bool_decide_eq_true in Hm.
  rewrite (drop_S _ _ _ Hd). csimpl. f_equal; [done|]. by apply IH.
Qed.

Lemma paperId_shape (pathname id : string) :
  paperId pathname = Some id ->
  exists b d ds,
    take 7 (drop b (chars pathname)) = chars "/paper/"
    /\ drop (b + 7) (chars pathname) = d :: ds
    /\ is_digit d = true
    /\ chars id = d :: take (leading is_digit ds) ds.
Proof.
  unfold paperId, js_match, exec. set (inp := chars pathname).
  destruct (search_from _ _ _ _ _) as [[[b e] c]|] eqn:Hs; [|done].
  apply search_from_Some in Hs as (_ & Hm & _). rewrite paper_match_at in Hm.
  destruct (word_at _ _ _ _) eqn:Hw; [|done].
  destruct (inp !! (b + 7)) as [d|] eqn:Hd; [|done].
  destruct (is_digit d) eqn:Hdig; [|done]. cbv zeta in Hm. injection Hm as <- <-.
  simpl. intros [= <-]. exists b, d, (drop (b + 8) inp).
  split; [by apply (word_at_exact (reflags re_paper) inp (chars "/paper/") eq_refl)|].
  split; [rewrite (drop_S _ _ _ Hd); do 2 f_equal; lia|]. split; [done|].
  unfold group1. cbn [snd]. rewrite chars_str. unfold slice.
  replace (b + 8 + leading is_digit (drop (b + 8) inp) - (b + 7))
    with (S (leading is_digit (drop (b + 8) inp))) by lia.
  rewrite (drop_S _ _ _ Hd). simpl. do 3 f_equal. lia.
Qed.

(** X24: the id [loadPaperDetail] asks the API for is never empty and
    holds digits alone: it stands in the path right after ["/paper/"], and
    it is all the digits there are. *)
Theorem paperId_digits (pathname id : string) :
  paperId pathname = Some id ->
  id <> ""%string
  /\ Forall (fun c => is_digit c = true) (chars id)
  /\ exists pre post,
       chars pathname = pre ++ chars "/paper/" ++ chars id ++ post
       /\ match post with c :: _ => is_digit c = false | [] => True end.
Proof.
  intros (b & d & ds & Hw & Hd & Hdig & Hid)%paperId_shape.
  split; [by intros ->|]. split.
  - rewrite Hid. constructor; [done|]. apply leading_take.
  - exists (take b (chars pathname)), (drop (leading is_digit ds) ds).
    split.
    + rewrite Hid, <- Hw. rewrite <- app_comm_cons, take_drop.
      rewrite <- Hd, <- drop_drop. by rewrite !take_drop.
    + clear. induction ds as [|c ds IH]; simpl; [done|].
      by destruct (is_digit c) eqn:Hc.
Qed.

Lemma uint_digits (d : Decimal.uint) :
  Forall (fun c => is_digit c = true) (chars (NilEmpty.string_of_uint d)).
Proof. induction d; simpl; by constructor. Qed.

Lemma number_text_digits (z : Z) :
  (0 <= z)%Z ->
  exists d ds, chars (number_text z) = d :: ds
               /\ Forall (fun c => is_digit c = true) (d :: ds).
Proof.
  intros Hz. unfold number_text. destruct z as [|p|p]; [| |lia].
  - exists "0"%char, []. split; [done|]. by repeat constructor.
  - simpl. pose proof (uint_digits (Pos.to_uint p)) as Hd.
    destruct (Pos.to_uint p) eqn:Hp; simpl in *;
      [exists "0"%char, []; split; [done|by repeat constructor]|..];
      eexists _, _; split; done.
Qed.

(** X25: the link of a card leads to the page of its paper: for a paper
    whose id is not negative, [loadPaperDetail] reads back from the path
    just the id the card was made from. *)
Theorem card_link_opens_paper (p : PaperList.paper) :
  (0 <= PaperList.id p)%Z ->
  paperId (card_path (PaperList.card_of p)) = Some (number_text (PaperList.id p)).
Proof.
  intros Hz. unfold card_path. cbn [PaperList.card_of PaperList.href].
  destruct (number_text_digits _ Hz) as (d & ds & Hn & Hall).
  unfold paperId, js_match, exec. rewrite chars_append, Hn.
  set (inp := chars "/paper/" ++ d :: ds).
  apply Forall_cons in Hall as [Hd Hds].
  assert (Hm : match_at (reflags re_paper) inp (pattern re_paper) 0
               = Some (length inp, Some (7, length inp))).
  { rewrite paper_match_at.
    rewrite (word_at_self _ (chars "/paper/") (d :: ds) []).
    assert (H7 : inp !! (0 + 7) = Some d) by done.
    assert (H8 : drop (0 + 8) inp = ds) by done.
    rewrite H7, Hd. cbv zeta. rewrite H8, (leading_all _ _ Hds).
    unfold inp. rewrite length_app. simpl. do 3 f_equal; lia. }
  assert (Hs : forall n, search_from (reflags re_paper) inp (pattern re_paper) n 0
               = Some (0, length inp, Some (7, length inp))).
  { intros n. destruct n; cbn [search_from]; by rewrite Hm. }
  rewrite Hs. simpl. f_equal. unfold group1. simpl.
  rewrite <- (str_chars (number_text _)), Hn. simpl. by rewrite take_ge.
Qed.

Section Page.
Context {coord : Type}.
Variable tidy : Renderer.shape -> Renderer.path -> Renderer.point coord.
Variable JSON_parse : string -> option Mindmap.data.
Variable fetch : string -> answer.

(** X26: a paper whose long summary is missing, empty or white space alone
    is shown with the text "No long summary available."; the title is the
    answer's, and there is one line for every fact and one tag for every
    entity. *)
Theorem detail_without_long_summary (depth : nat) (pathname id : string)
        (pg : Mindmap.page coord) :
  paperId pathname = Some id -> blank (long (fetch id)) ->
  exists d o,
    loadPaperDetail tidy JSON_parse fetch depth pathname pg = Some (d, o)
    /\ longSummary d = "No long summary available."%string
    /\ paperTitle d = title (fetch id)
    /\ length (factsList d) = length (facts (fetch id))
    /\ length (entitiesList d) = length (entities (fetch id)).
Proof.
  intros Hid Hb. unfold loadPaperDetail. rewrite Hid. eexists _, _.
  split; [reflexivity|]. unfold fill. cbn [longSummary paperTitle factsList entitiesList].
  rewrite (formatSummaries_blank _ _ Hb), !length_fmap. done.
Qed.

End Page.
End DetailFacts.

Lemma paperId_digits_witness :
  "42"%string <> ""%string
  /\ Forall (fun c => PaperDetail.is_digit c = true) (JsString.chars "42")
  /\ exists pre post,
       JsString.chars "/paper/42/cited" = pre ++ JsString.chars "/paper/" ++ JsString.chars "42" ++ post
       /\ match post with c :: _ => PaperDetail.is_digit c = false | [] => True end.
Proof.
  apply (paperId_digits "/paper/42/cited" "42"). vm_compute. reflexivity.
Defined.

Lemma card_link_opens_paper_witness :
  let p := {| PaperList.id := 2024; PaperList.title := "Graphs"; PaperList.authors := None;
              PaperList.summary_short := None; PaperList.published := None |} in
  PaperDetail.paperId (PaperDetail.card_path (PaperList.card_of p))
  = Some (PaperDetail.number_text (PaperList.id p)).
Proof.
  intros p. apply (card_link_opens_paper p). simpl. lia.
Defined.

Lemma detail_without_long_summary_witness :
  let data := {| PaperDetail.title := "Graphs"; PaperDetail.pdf_url := "/g.pdf";
                 PaperDetail.long := Some " "%string;
                 PaperDetail.facts := [ {| PaperDetail.fact_type := "Method";
                                           PaperDetail.value := "Transformer" |} ];
                 PaperDetail.entities := [];
                 PaperDetail.mindmap_json := Mindmap.PNull |} in
  let pg : Mindmap.page unit :=
    {| Mindmap.container := Some None; Mindmap.console := []; Mindmap.i := Some 0%Z |} in
  exists d o,
    PaperDetail.loadPaperDetail (coord := unit) (fun _ _ => (tt, tt)) (fun _ => None)
      (fun _ => data) 4 "/paper/7" pg = Some (d, o)
    /\ PaperDetail.longSummary d = "No long summary available."%string
    /\ PaperDetail.paperTitle d = PaperDetail.title data
    /\ length (PaperDetail.factsList d) = length (PaperDetail.facts data)
    /\ length (PaperDetail.entitiesList d) = length (PaperDetail.entities data).
Proof.
  intros data pg.
  apply (detail_without_long_summary (coord := unit) (fun _ _ => (tt, tt))
           (fun _ => None) (fun _ => data) 4 "/paper/7" "7" pg).
  - vm_compute. reflexivity.
  - simpl. repeat constructor.
Defined.

(** ** The dark mode switch *)

Section DarkFacts.
Import DarkMode.

Lemma click_records (pg : page) :
  is_Some (toggleBtn pg) ->
  let pg' := click pg in
  stored pg' = Some (if dark pg' then "true" else "false")%string
  /\ toggleBtn pg' = Some (if dark pg' then LightMode else DarkMode)
  /\ dark pg' = negb (dark pg).
Proof. intros [c Hc]. unfold click. rewrite Hc. simpl. by destruct (dark pg). Qed.

Lemma clicks_button (n : nat) (pg : page) :
  is_Some (toggleBtn pg) -> is_Some (toggleBtn (clicks n pg)).
Proof.
  intros Hb. induction n as [|n IH]; [done|]. simpl. unfold click at 1.
  destruct IH as [c ->]. by eexists.
Qed.

(** X27: after a click and whatever clicks follow, the storage holds
    "true" or "false", the one that says whether the page is dark, and the
    button offers the other mode. *)
Theorem clicks_record_the_mode (n : nat) (pg : page) :
  is_Some (toggleBtn pg) ->
  let pg' := clicks (S n) pg in
  stored pg' = Some (if dark pg' then "true" else "false")%string
  /\ toggleBtn pg' = Some (if dark pg' then LightMode else DarkMode).
Proof.
  intros Hb. cbv zeta.
  destruct (click_records (clicks n pg) (clicks_button n pg Hb)) as (Hs & Ht & _).
  by split.
Qed.

Lemma visit_agrees (storage : option string) :
  dark (visit true false storage) = bool_decide (stored (visit true false storage) = Some "true"%string).
Proof. unfold visit, load. simpl. by case_bool_decide; simpl; case_bool_decide. Qed.

(** X28: the preference survives a reload: on a page with the button
    whose markup is not dark, after any number of clicks the next visit
    shows the mode the page was left in, and leaves the storage as it
    is. *)
Theorem dark_mode_survives_reload (storage : option string) (n : nat) :
  let left := clicks n (visit true false storage) in
  dark (visit true false (stored left)) = dark left
  /\ stored (visit true false (stored left)) = stored left.
Proof.
  cbv zeta. set (pg := clicks n (visit true false storage)).
  assert (Hinv : dark pg = bool_decide (stored pg = Some "true"%string)).
  { unfold pg. destruct n as [|n]; [apply visit_agrees|].
    destruct (click_records (clicks n (visit true false storage))) as (Hs & _).
    - apply clicks_button. unfold visit, load. simpl. case_bool_decide; by eexists.
    - change (clicks (S n) ?x) with (click (clicks n x)).
      rewrite Hs. by destruct (dark _). }
  rewrite Hinv. unfold visit, load. simpl.
  by destruct (bool_decide (stored pg = Some "true"%string)).
Qed.

(** X29: on a page without the button the script does nothing: a stored
    preference is not applied, and the page stays as its markup has
    it. *)
Theorem no_button_no_dark_mode (markup_dark : bool) (storage : option string) (n : nat) :
  clicks n (visit false markup_dark storage)
  = {| toggleBtn := None; dark := markup_dark; stored := storage |}.
Proof.
  induction n as [|n IH]; [reflexivity|].
  change (clicks (S n) ?pg) with (click (clicks n pg)). rewrite IH. reflexivity.
Qed.

End DarkFacts.

Lemma clicks_record_the_mode_witness :
  let pg := {| DarkMode.toggleBtn := Some DarkMode.Markup; DarkMode.dark := true;
               DarkMode.stored := None |} in
  let pg' := DarkMode.clicks 2 pg in
  DarkMode.stored pg' = Some (if DarkMode.dark pg' then "true" else "false")%string
  /\ DarkMode.toggleBtn pg'
     = Some (if DarkMode.dark pg' then DarkMode.LightMode else DarkMode.DarkMode).
Proof.
  intros pg. apply (clicks_record_the_mode 1 pg). by eexists.
Defined.

(** ** The start of a page *)

Section InitFacts.
Import Init.

(** X30: the first handler throws just when the page has the grid and
    lacks the search field or the sort box; [loadPapers] has been called by
    then, [loadPaperDetail] never is, and the sort box gets no listener.
    When it does not throw, it calls [loadPapers] on a page with the grid
    and [loadPaperDetail] on a page with the title, and nothing else. *)
Theorem init_missing_control (d : dom) :
  ((init d).2 = Some TypeError
   <-> papersGrid d = true /\ (searchInput d = false \/ sortSelect d = false))
  /\ ((init d).2 = Some TypeError ->
        LoadPapers ∈ (init d).1 /\ (LoadPaperDetail ∉ (init d).1)
        /\ (ListenChange ∉ (init d).1))
  /\ ((init d).2 = None ->
        (LoadPaperDetail ∈ (init d).1 <-> paperTitle d = true)
        /\ (LoadPapers ∈ (init d).1 <-> papersGrid d = true)).
Proof.
  assert (Hin : forall (x : step) l, x ∈ l <-> In x l)
    by (intros; apply list_elem_of_In).
  destruct d as [[] [] [] []]; cbv [init papersGrid searchInput sortSelect paperTitle
                                     fst snd app];
    rewrite ?Hin; simpl; intuition congruence.
Qed.

End InitFacts.

